(** * Jarvis-AI: intent resolution and dialogue state machine

    A shallow embedding of the Python sources

      - [core/command_processor.py]  (normaliser, intent catalog, resolver,
                                      parameter extraction),
      - [core/session_manager.py]    (history deque, pending confirmation),
      - [core/speech_engine.py]      (speech output state, volume, [listen]),
      - [jarvis.py]                  (the dialogue controller),
      - [utils/logger.py]            (the history file),
      - [functions/system_functions.py]  (opening applications),
      - [config.py]                  (constants),

    followed by the properties the specification states about them, and
    by further properties of the code.

    Conventions of the embedding.

    - A Python [str] is a [list ascii]; a character [c] stands for the
      Unicode code point [nat_of_ascii c], so the model covers exactly the
      strings over code points 0..255 and classifies them the way CPython
      does ([str.isspace], [\w], [\d], [str.lower]).  String literals are
      ASCII throughout.
    - [re] patterns are terms of [Re.regex]; matching is the backtracking
      search of CPython's engine (leftmost start, alternatives left to
      right, greedy or lazy repetition), with capture groups.
    - A Python exception is a value of [exn]; code that can raise returns
      [result].  Controller code runs in a state-and-exception monad over
      the [Jarvis] object.
    - [dict]s with string keys are [gmap string _]; the intent catalog, whose
      iteration order matters, is an association list. *)

From Stdlib Require Import ZArith QArith Ascii String List Lia Bool.
From Stdlib Require Import DecimalString Sorted Permutation.
From Stdlib Require Import Floats.SpecFloat.
From stdpp Require Import base tactics option list strings gmap.

Local Open Scope string_scope.
Local Open Scope list_scope.
Local Open Scope nat_scope.

(** Python [str]: a list of code points below 256. *)
Abbreviation str := (list ascii).

Coercion list_ascii_of_string : string >-> list.

(** Exceptions the modelled code can raise. *)
Inductive exn : Type :=
| IndexError
| KeyError (key : string)
| AttributeError
| ValueError
| TypeError
| RecursionError.

Inductive result (A : Type) : Type :=
| Ok (a : A)
| Raise (e : exn).
Arguments Ok {A} a.
Arguments Raise {A} e.

Definition result_bind {A B} (r : result A) (f : A -> result B) : result B :=
  match r with
  | Ok a => f a
  | Raise e => Raise e
  end.

Global Instance result_mbind : MBind result := fun A B f r => result_bind r f.
Global Instance result_mret : MRet result := fun A a => Ok a.

(** ** Python string primitives *)
Module Py.

Definition code (c : ascii) : nat := nat_of_ascii c.

Definition between (lo hi : nat) (c : ascii) : bool :=
  (lo <=? code c) && (code c <=? hi).

(** [str.isspace] on a single character ([Py_UNICODE_ISSPACE]): TAB..CR,
    FS..US, SPACE, NEL and NBSP. *)
Definition isspace (c : ascii) : bool :=
  between 9 13 c || between 28 32 c || (code c =? 133) || (code c =? 160).

(** [\d] of [re] on [str] patterns: the decimal digits. *)
Definition isdecimal (c : ascii) : bool := between 48 57 c.

(** [str.isalnum] on a single character, Latin-1 block included. *)
Definition isalnum (c : ascii) : bool :=
  isdecimal c || between 65 90 c || between 97 122 c
  || (code c =? 170) || (code c =? 178) || (code c =? 179)
  || (code c =? 181) || (code c =? 185) || (code c =? 186)
  || between 188 190 c
  || between 192 214 c || between 216 246 c || between 248 255 c.

(** [\w] of [re]: alphanumerics and the underscore. *)
Definition isword (c : ascii) : bool := isalnum c || (code c =? 95).

Definition isupper (c : ascii) : bool :=
  between 65 90 c || between 192 214 c || between 216 222 c.

Definition lower_char (c : ascii) : ascii :=
  if isupper c then ascii_of_nat (code c + 32) else c.

(** [s.lower()] *)
Definition lower (s : str) : str := map lower_char s.

Fixpoint lstrip (s : str) : str :=
  match s with
  | [] => []
  | c :: s' => if isspace c then lstrip s' else s
  end.

Fixpoint rstrip (s : str) : str :=
  match s with
  | [] => []
  | c :: s' =>
      match rstrip s' with
      | [] => if isspace c then [] else [c]
      | r => c :: r
      end
  end.

(** [s.strip()] *)
Definition strip (s : str) : str := rstrip (lstrip s).

(** [s.split()]: the maximal runs of non-whitespace characters. *)
Fixpoint split_ws_aux (cur : str) (s : str) : list str :=
  match s with
  | [] => if bool_decide (cur = []) then [] else [rev cur]
  | c :: s' =>
      if isspace c
      then (if bool_decide (cur = []) then [] else [rev cur]) ++ split_ws_aux [] s'
      else split_ws_aux (c :: cur) s'
  end.

Definition split (s : str) : list str := split_ws_aux [] s.

(** [s.startswith(p)] *)
Fixpoint startswith (s p : str) {struct p} : bool :=
  match p, s with
  | [], _ => true
  | _ :: _, [] => false
  | a :: p', b :: s' => Ascii.eqb a b && startswith s' p'
  end.

(** [s.find(sub)]: index of the first occurrence. *)
Fixpoint find (sub : str) (s : str) : option nat :=
  if startswith s sub then Some 0
  else match s with
       | [] => None
       | _ :: s' => S <$> find sub s'
       end.

(** [sub in s] *)
Definition contains (sub s : str) : bool :=
  match find sub s with Some _ => true | None => false end.

(** [s.split(sep, 1)]; an empty separator raises [ValueError]. *)
Definition split1 (sep s : str) : result (list str) :=
  match sep with
  | [] => Raise ValueError
  | _ => match find sep s with
         | Some i => Ok [take i s; drop (i + length sep) s]
         | None => Ok [s]
         end
  end.

(** [l[i]] *)
Definition index {A} (l : list A) (i : nat) : result A :=
  match l !! i with
  | Some x => Ok x
  | None => Raise IndexError
  end.

(** [x in l] for a list of strings. *)
Definition mem (x : str) (l : list str) : bool := bool_decide (x ∈ l).

(** [sys.int_info.default_max_str_digits]: the most digits [int] reads. *)
Definition max_str_digits : Z := 4300.

(** The value of a decimal digit. *)
Definition digit_val (c : ascii) : Z := Z.of_nat (code c) - 48.

(** [int(s)] on the strings the code passes to it, runs of decimal
    digits; anything else is reported as [ValueError] (CPython accepts a
    few more forms, signs and surrounding blanks, which only makes the
    model raise more often than the code).  A run of more than
    [max_str_digits] digits, leading zeros included, is a [ValueError]
    too: the interpreter's limit on integer string conversion. *)
Definition int (s : str) : result Z :=
  match s with
  | [] => Raise ValueError
  | _ => if forallb isdecimal s
         then if (Z.of_nat (length s) <=? max_str_digits)%Z
              then Ok (fold_left (fun acc c => 10 * acc + digit_val c)%Z s 0%Z)
              else Raise ValueError
         else Raise ValueError
  end.

(** [sep.join(l)] *)
Fixpoint join (sep : str) (l : list str) : str :=
  match l with
  | [] => []
  | [x] => x
  | x :: l' => x ++ sep ++ join sep l'
  end.

(** [l[start:]] for an integer [start]; a negative one counts from the
    end, and both are clipped to the list. *)
Definition slice_from {A} (start : Z) (l : list A) : list A :=
  let n := Z.of_nat (length l) in
  let start := if (start <? 0)%Z then Z.max 0 (start + n) else Z.min start n in
  drop (Z.to_nat start) l.

(** [c.upper()] for one character.  The sharp s becomes two letters; the
    upper-case forms of the micro sign and of y with diaeresis lie beyond
    U+00FF, outside the strings of the model, hence [None]. *)
Definition upper_char (c : ascii) : option str :=
  if between 97 122 c || between 224 246 c || between 248 254 c
  then Some [ascii_of_nat (code c - 32)]
  else if code c =? 223 then Some ("SS" : str)
  else if (code c =? 181) || (code c =? 255) then None
  else Some [c].

(** [s.upper()] *)
Definition upper (s : str) : option str := @concat ascii <$> mapM upper_char s.

End Py.

(** ** The [re] module: patterns, backtracking matcher, [search], [sub] *)
Module Re.

(** Character sets: what one pattern position accepts. *)
Inductive cset : Type :=
| CChar (c : ascii)              (* a literal character *)
| CAny                           (* [.]: anything but a newline *)
| CWord                          (* [\w] *)
| CSpace                         (* [\s] *)
| CDigit                         (* [\d] *)
| CRange (lo hi : ascii)         (* [lo-hi] inside brackets *)
| CUnion (a b : cset)            (* juxtaposition inside brackets *)
| CNot (a : cset).               (* [^...] *)

Fixpoint accepts (cs : cset) (c : ascii) : bool :=
  match cs with
  | CChar a => Ascii.eqb a c
  | CAny => negb (Py.code c =? 10)
  | CWord => Py.isword c
  | CSpace => Py.isspace c
  | CDigit => Py.isdecimal c
  | CRange lo hi => Py.between (Py.code lo) (Py.code hi) c
  | CUnion a b => accepts a c || accepts b c
  | CNot a => negb (accepts a c)
  end.

Inductive regex : Type :=
| Eps                                  (* the empty pattern *)
| Chr (cs : cset)                      (* one character *)
| Seq (r1 r2 : regex)                  (* r1r2 *)
| Alt (r1 r2 : regex)                  (* r1|r2 *)
| Star (greedy : bool) (r : regex)    (* r* and r*? *)
| Group (n : nat) (r : regex)          (* the n-th capturing (...) *)
| WordB                                (* \b *)
| Eos.                                 (* $ *)

(** A literal word. *)
Fixpoint lit (w : str) : regex :=
  match w with
  | [] => Eps
  | c :: w' => Seq (Chr (CChar c)) (lit w')
  end.

(** [r?], [r+], [r+?] and n-ary alternation. *)
Definition Opt (r : regex) : regex := Alt r Eps.
Definition Plus (r : regex) : regex := Seq r (Star true r).
Definition PlusLazy (r : regex) : regex := Seq r (Star false r).

Fixpoint alts (rs : list regex) : regex :=
  match rs with
  | [] => Eps
  | [r] => r
  | r :: rs' => Alt r (alts rs')
  end.

Fixpoint seqs (rs : list regex) : regex :=
  match rs with
  | [] => Eps
  | [r] => r
  | r :: rs' => Seq r (seqs rs')
  end.

(** Captures: group number to the span [(start, end)] it last matched. *)
Definition caps : Type := list (nat * (nat * nat)).

Definition cap_lookup (n : nat) (c : caps) : option (nat * nat) :=
  snd <$> List.find (fun p => fst p =? n) c.

Definition cont : Type := nat -> caps -> option (nat * caps).

Definition orelse {A} (x y : option A) : option A :=
  match x with Some _ => x | None => y end.

Section Matcher.
Variable s : str.

Definition word_at (i : nat) : bool :=
  match s !! i with Some c => Py.isword c | None => false end.

(** [\b]: exactly one side of position [i] is a word character. *)
Definition boundary (i : nat) : bool :=
  xorb (match i with 0 => false | S p => word_at p end) (word_at i).

(** [$]: the end of the string or just before a final newline. *)
Definition at_end (i : nat) : bool :=
  (i =? length s)
  || ((S i =? length s) && bool_decide (s !! i = Some "010"%char)).

(** [m r i c k]: match [r] at position [i] with captures [c], then
    continue with [k]; [None] when every way of matching fails.  The
    order of the attempts is the engine's: left alternative first, as
    many (greedy) or as few (lazy) repetitions as possible first.  An
    iteration of a repetition that consumes nothing is not repeated. *)
Fixpoint m (r : regex) (i : nat) (c : caps) (k : cont) {struct r}
  : option (nat * caps) :=
  match r with
  | Eps => k i c
  | Chr cs =>
      match s !! i with
      | Some a => if accepts cs a then k (S i) c else None
      | None => None
      end
  | Seq r1 r2 => m r1 i c (fun j c' => m r2 j c' k)
  | Alt r1 r2 => orelse (m r1 i c k) (m r2 i c k)
  | Star greedy r' =>
      (fix loop (fuel : nat) (i : nat) (c : caps) {struct fuel} :=
         match fuel with
         | 0 => k i c
         | S fuel' =>
             let more :=
               m r' i c (fun j c' => if i <? j then loop fuel' j c' else None) in
             if greedy then orelse more (k i c) else orelse (k i c) more
         end) (length s - i) i c
  | Group n r' => m r' i c (fun j c' => k j ((n, (i, j)) :: c'))
  | WordB => if boundary i then k i c else None
  | Eos => if at_end i then k i c else None
  end.

(** A match object: the span of the whole match and the captures. *)
Record match_obj : Type := MatchObj {
  m_start : nat;
  m_end : nat;
  m_caps : caps
}.

Definition accept : cont := fun j c => Some (j, c).

(** The scan of [search]: try the start positions [pos], [pos+1], ...
    up to the end of the string.  With [must_advance] an empty match
    at the first position is refused (used by [sub]). *)
Fixpoint scan (r : regex) (fuel pos : nat) (must_advance : bool)
  : option match_obj :=
  let k : cont :=
    fun j c => if must_advance && (j =? pos) then None else Some (j, c) in
  match m r pos [] k with
  | Some (j, c) => Some (MatchObj pos j c)
  | None =>
      match fuel with
      | 0 => None
      | S fuel' => scan r fuel' (S pos) false
      end
  end.

(** [re.search(r, s)] *)
Definition search (r : regex) : option match_obj := scan r (length s) 0 false.

Definition slice (i j : nat) : str := take (j - i) (drop i s).

(** [mo.group(n)]; [None] when the group took no part in the match. *)
Definition group (mo : match_obj) (n : nat) : option str :=
  match n with
  | 0 => Some (slice (m_start mo) (m_end mo))
  | _ => (fun p => slice (fst p) (snd p)) <$> cap_lookup n (m_caps mo)
  end.

(** [re.sub(r, repl, s)] for a replacement without back-references. *)
Fixpoint sub_loop (r : regex) (repl : str) (fuel pos : nat)
    (must_advance : bool) : str :=
  match fuel with
  | 0 => drop pos s
  | S fuel' =>
      match scan r (length s - pos) pos must_advance with
      | None => drop pos s
      | Some mo =>
          slice pos (m_start mo) ++ repl
          ++ sub_loop r repl fuel' (m_end mo) (m_end mo =? m_start mo)
      end
  end.

Definition sub (r : regex) (repl : str) : str :=
  sub_loop r repl (2 * length s + 3) 0 false.

End Matcher.

End Re.

(** ** Python floats *)
Module PyFloat.

(** Python floats are IEEE 754 binary64 numbers, here [spec_float] with
    the arithmetic of [SpecFloat] at precision 53. *)
Definition prec : Z := 53.
Definition emax : Z := 1024.
Definition fadd : spec_float -> spec_float -> spec_float := SFadd prec emax.
Definition fsub : spec_float -> spec_float -> spec_float := SFsub prec emax.
Definition fmul : spec_float -> spec_float -> spec_float := SFmul prec emax.

(** The doubles written [0.2], [0.9] and [1.0]. *)
Definition f0_2 : spec_float := S754_finite false 7205759403792794 (-55).
Definition f0_9 : spec_float := S754_finite false 8106479329266893 (-53).
Definition f1_0 : spec_float := S754_finite false 4503599627370496 (-52).

(** [min(a, b)] and [max(a, b)]: the second argument wins only when it
    is strictly smaller, respectively larger. *)
Definition py_min (a b : spec_float) : spec_float := if SFltb b a then b else a.
Definition py_max (a b : spec_float) : spec_float := if SFltb a b then b else a.

End PyFloat.

(** ** [config.py] *)
Module Config.
Import PyFloat.

Record VoiceStyle : Type := mkStyle {
  rate : Z;
  volume : spec_float
}.

Definition VOICE_STYLES : list (str * VoiceStyle) :=
  [ ("formal" : str, mkStyle 150 f0_9);
    ("casual" : str, mkStyle 175 f0_9);
    ("robotic" : str, mkStyle 120 f1_0) ].

Definition DEFAULT_VOICE_STYLE : str := "formal".
Definition MAX_RECOGNITION_RETRIES : nat := 3.
Definition MODE_VOICE : str := "voice".
Definition MODE_MANUAL : str := "manual".
Definition MEMORY_SIZE : nat := 3.
End Config.

(** Values stored in a command's [params] dictionary. *)
Inductive value : Type :=
| VStr (s : str)
| VInt (z : Z)
| VNone.

Global Instance value_eq_dec : EqDecision value.
Proof. solve_decision. Defined.

(** A command: [{'action': ..., 'params': {...}}]. *)
Record Command : Type := mkCommand {
  action : string;
  params : gmap string value
}.

Global Instance Command_eq_dec : EqDecision Command.
Proof. solve_decision. Defined.

(** ** [core/command_processor.py] *)
Module CommandProcessor.
Import Re.

Definition words (l : list string) : list str := map list_ascii_of_string l.

Definition any : regex := Chr CAny.
Definition ws : regex := Chr CSpace.
Definition word (w : string) : regex := lit w.
Definition one_of (l : list string) : regex := alts (map word l).

(** [_FILLERS = r'\b(please|could you|would you|hey|jarvis|ok|okay|so|um|uh|the|a|an)\b'] *)
Definition _FILLERS : regex :=
  seqs [WordB;
        Group 1 (one_of ["please"; "could you"; "would you"; "hey"; "jarvis";
                         "ok"; "okay"; "so"; "um"; "uh"; "the"; "a"; "an"]);
        WordB].

(** [[^\w\s]] *)
Definition PUNCT : regex := Chr (CNot (CUnion CWord CSpace)).

(** [\s+] *)
Definition SPACES : regex := Plus ws.

Definition _normalize (text : option str) : str :=
  match text with
  | None | Some [] => []                                  (* if not text *)
  | Some text =>
      let text := Py.lower text in
      let text := Re.sub text PUNCT " " in                (* remove punctuation *)
      let text := Re.sub text _FILLERS " " in             (* remove filler words *)
      let text := Py.strip (Re.sub text SPACES " ") in    (* collapse whitespace *)
      text
  end.

Definition _tokens (text : str) : list str := Py.split text.

(** Number of keyword tokens present divided by number of keywords.  The
    quotient of the two small integers is kept as an exact rational:
    CPython's float division is correctly rounded, hence monotone, and
    sends equal quotients to equal floats, and 0.25 is a float, so every
    comparison the code makes on these scores has the same outcome on
    the rationals. *)
Definition _overlap_score (tokens keywords : list str) : Q :=
  match keywords with
  | [] => 0
  | _ =>
      let tset : gset str := list_to_set tokens in
      let kset : gset str := list_to_set keywords in
      let overlap := size (tset ∩ kset) in
      Z.of_nat overlap # Pos.of_nat (size kset)
  end.

Record IntentSpec : Type := mkIntent {
  keywords : list str;
  patterns : list regex
}.

(** [self.intent_definitions]; a Python dict iterates in insertion order. *)
Definition intent_definitions : list (string * IntentSpec) :=
  [ ("time",
     mkIntent (words ["time"; "clock"])
       [ seqs [WordB; word "what"; Opt any; word "time"; WordB];      (* \bwhat.?time\b *)
         seqs [WordB; word "tell"; Star true any; word "time"; WordB]; (* \btell.*time\b *)
         seqs [WordB; word "time now"; WordB];                        (* \btime now\b *)
         seqs [WordB; word "current time"; WordB] ]);                 (* \bcurrent time\b *)
    ("date",
     mkIntent (words ["date"; "day"; "today"])
       [ seqs [WordB; word "what"; Opt any; word "date"; WordB];      (* \bwhat.?date\b *)
         seqs [WordB; word "tell"; Star true any; word "date"; WordB]; (* \btell.*date\b *)
         seqs [WordB; word "what's today"; WordB];                    (* \bwhat's today\b *)
         seqs [WordB; word "current date"; WordB] ]);                 (* \bcurrent date\b *)
    ("weather",
     mkIntent (words ["weather"; "temperature"; "forecast"; "rain"; "hot"; "cold"])
       [ seqs [WordB; word "weather"; WordB];                         (* \bweather\b *)
         seqs [WordB; word "how"; Star true any; word "temperature"; WordB];
                                                                      (* \bhow.*temperature\b *)
         seqs [WordB; word "forecast"; WordB] ]);                     (* \bforecast\b *)
    ("wikipedia",
     mkIntent (words ["who"; "what"; "wikipedia"; "wiki"; "tell"; "about"])
       [ seqs [WordB; Group 1 (one_of ["who"; "what"]); WordB; Star true any;
               WordB; Group 2 (one_of ["is"; "was"; "are"]); WordB];
                                                  (* \b(who|what)\b.*\b(is|was|are)\b *)
         seqs [WordB; word "tell me about"; WordB];                   (* \btell me about\b *)
         seqs [WordB; word "wikipedia"; WordB];                       (* \bwikipedia\b *)
         seqs [WordB; word "wiki"; WordB] ]);                         (* \bwiki\b *)
    ("search",
     mkIntent (words ["search"; "google"; "find"; "look"; "lookup"; "searching"])
       [ seqs [WordB; word "search"; WordB];                          (* \bsearch\b *)
         seqs [WordB; word "look up"; WordB];                         (* \blook up\b *)
         seqs [WordB; word "google"; WordB];                          (* \bgoogle\b *)
         seqs [WordB; word "find"; WordB] ]);                         (* \bfind\b *)
    ("open_app",
     mkIntent (words ["open"; "launch"; "start"; "run"])
       [ seqs [WordB; word "open"; WordB];                            (* \bopen\b *)
         seqs [WordB; word "launch"; WordB];                          (* \blaunch\b *)
         seqs [WordB; word "start"; WordB];                           (* \bstart\b *)
         seqs [WordB; word "run"; WordB] ]);                          (* \brun\b *)
    ("system_status",
     mkIntent (words ["cpu"; "battery"; "memory"; "ram"; "network"; "internet"; "status"])
       [ seqs [WordB; word "system"; WordB; Star true any; WordB;
               Group 1 (one_of ["status"; "info"]); WordB];  (* \bsystem\b.*\b(status|info)\b *)
         seqs [WordB;
               Group 1 (one_of ["cpu"; "battery"; "memory"; "ram"; "network"; "internet"]);
               WordB] ]);                   (* \b(cpu|battery|memory|ram|network|internet)\b *)
    ("reminder",
     mkIntent (words ["remind"; "reminder"; "remember"; "remind me"])
       [ seqs [WordB; Group 1 (one_of ["remind"; "reminder"]); WordB]; (* \b(remind|reminder)\b *)
         seqs [WordB; word "remember"; WordB] ]);                     (* \bremember\b *)
    ("volume",
     mkIntent (words ["volume"; "louder"; "softer"; "mute"; "unmute"; "quieter"])
       [ seqs [WordB;
               Group 1 (one_of ["louder"; "softer"; "mute"; "unmute"; "volume"; "quieter"]);
               WordB] ]);                   (* \b(louder|softer|mute|unmute|volume|quieter)\b *)
    ("voice_style",
     mkIntent (words ["voice"; "style"; "formal"; "casual"; "robotic"])
       [ seqs [WordB; Group 1 (one_of ["voice"; "style"]); WordB];    (* \b(voice|style)\b *)
         seqs [WordB; word "formal"; WordB];                          (* \bformal\b *)
         seqs [WordB; word "casual"; WordB];                          (* \bcasual\b *)
         seqs [WordB; word "robotic"; WordB] ]);                      (* \brobotic\b *)
    ("help",
     mkIntent (words ["help"; "commands"; "features"; "what can you do"])
       [ seqs [WordB; word "help"; WordB];                            (* \bhelp\b *)
         seqs [WordB; word "what can you do"; WordB];                 (* \bwhat can you do\b *)
         seqs [WordB; word "commands"; WordB] ]);                     (* \bcommands\b *)
    ("exit",
     mkIntent (words ["exit"; "quit"; "bye"; "goodbye"; "stop"])
       [ seqs [WordB; Group 1 (one_of ["exit"; "quit"; "bye"; "goodbye"; "stop"]); WordB] ]);
                                                     (* \b(exit|quit|bye|goodbye|stop)\b *)
    ("listening",
     mkIntent (words ["start"; "stop"; "listening"])
       [ seqs [WordB; word "start listening"; WordB];                 (* \bstart listening\b *)
         seqs [WordB; word "stop listening"; WordB] ])                (* \bstop listening\b *)
  ].

(** [in\s+([a-z\s]+)$] *)
Definition _regex_city : regex :=
  seqs [word "in"; Plus ws;
        Group 1 (Plus (Chr (CUnion (CRange "a" "z") CSpace))); Eos].

(** [(?:search\s+for|search|google|find)\s+(.+)$] *)
Definition _regex_search : regex :=
  seqs [alts [seqs [word "search"; Plus ws; word "for"];
              word "search"; word "google"; word "find"];
        Plus ws; Group 1 (Plus any); Eos].

(** [(?:open|launch|start|run)\s+(.+)$] *)
Definition _regex_open : regex :=
  seqs [one_of ["open"; "launch"; "start"; "run"];
        Plus ws; Group 1 (Plus any); Eos].

(** [remind me (?:to\s+)?(.+?) (?:in|at|on|after)\s+(.+)$] *)
Definition _regex_reminder : regex :=
  seqs [word "remind me "; Opt (seqs [word "to"; Plus ws]);
        Group 1 (PlusLazy any); word " "; one_of ["in"; "at"; "on"; "after"];
        Plus ws; Group 2 (Plus any); Eos].

(** [remind me to (.+)$] *)
Definition _regex_simple_remind : regex :=
  seqs [word "remind me to "; Group 1 (Plus any); Eos].

(** [(\d+)\s*(second|seconds|minute|minutes|hour|hours)] *)
Definition _regex_time_seconds : regex :=
  seqs [Group 1 (Plus (Chr CDigit)); Star true ws;
        Group 2 (one_of ["second"; "seconds"; "minute"; "minutes"; "hour"; "hours"])].

(** [m.group(n).strip()]; a group that is [None] has no [strip]. *)
Definition group_strip (s : str) (mo : match_obj) (n : nat) : result str :=
  match Re.group s mo n with
  | Some g => Ok (Py.strip g)
  | None => Raise AttributeError
  end.

(** [int(m.group(n))]; [int(None)] is a [TypeError]. *)
Definition group_int (s : str) (mo : match_obj) (n : nat) : result Z :=
  match Re.group s mo n with
  | Some g => Py.int g
  | None => Raise TypeError
  end.

(** [m.group(n)] as a value, [None] included. *)
Definition group_value (s : str) (mo : match_obj) (n : nat) : value :=
  match Re.group s mo n with
  | Some g => VStr g
  | None => VNone
  end.

(** The keyword loop of the wikipedia branch; [Some phrase] is the early
    [return params] with [params['query'] = phrase]. *)
Fixpoint wikipedia_loop (keywords : list str) (text : str) : result (option str) :=
  match keywords with
  | [] => Ok None
  | kw :: rest =>
      if Py.contains kw text then
        result_bind (Py.split1 kw text) (fun parts =>
        result_bind (Py.index parts 1) (fun part =>
        let phrase := Py.strip part in
        match phrase with
        | [] => wikipedia_loop rest text
        | _ => Ok (Some phrase)
        end))
      else wikipedia_loop rest text
  end.

Definition is_intent (intent name : string) : bool := String.eqb intent name.

Abbreviation dict := (gmap string value).

(** Outcome of a block of [_extract_params]: fall through to the next
    [if], or [return params]. *)
Inductive flow : Type :=
| Next (params : dict)
| Return (params : dict).

Definition _extract_params (intent : string) (text raw : str) : result dict :=
  let params : dict := ∅ in
  params ←
    (if is_intent intent "weather" then
       match Re.search text _regex_city with
       | Some city_m =>
           g ← group_strip text city_m 1; Ok (<["city" := VStr g]> params)
       | None => Ok (<["city" := VNone]> params)
       end
     else Ok params);
  params ←
    (if is_intent intent "search" then
       match Re.search text _regex_search with
       | Some m => g ← group_strip text m 1; Ok (<["query" := VStr g]> params)
       | None => Ok (<["query" := VStr text]> params)
       end
     else Ok params);
  fl ←
    (if is_intent intent "wikipedia" then
       let keywords := words ["who is"; "what is"; "tell me about"; "wikipedia"; "wiki"] in
       r ← wikipedia_loop keywords text;
       match r with
       | Some phrase => Ok (Return (<["query" := VStr phrase]> params))
       | None => Ok (Next (<["query" := VStr raw]> params))   (* otherwise, use entire raw *)
       end
     else Ok (Next params));
  match fl with
  | Return params => Ok params
  | Next params =>
  params ←
    (if is_intent intent "open_app" then
       match Re.search text _regex_open with
       | Some m => g ← group_strip text m 1; Ok (<["app" := VStr g]> params)
       | None => Ok (<["app" := VStr text]> params)
       end
     else Ok params);
  params ←
    (if is_intent intent "reminder" then
       let low := Py.lower raw in
       match Re.search low _regex_reminder with
       | Some m =>
           g1 ← group_strip low m 1;
           g2 ← group_strip low m 2;
           Ok (<["time" := VStr g2]> (<["message" := VStr g1]> params))
       | None =>
           match Re.search low _regex_time_seconds with
           | Some m2 =>
               n ← group_int low m2 1;
               Ok (<["unit" := group_value low m2 2]> (<["value" := VInt n]> params))
           | None =>
               (* simple fallback: entire raw text as message *)
               match Re.search low _regex_simple_remind with
               | Some m3 =>
                   g ← group_strip low m3 1; Ok (<["message" := VStr g]> params)
               | None => Ok (<["message" := VStr raw]> params)
               end
           end
       end
     else Ok params);
  let params :=
    if is_intent intent "volume" then
      if Py.contains "louder" text || Py.contains "increase" text || Py.contains "up" text
      then <["adjustment" := VStr "louder"]> params
      else if Py.contains "softer" text || Py.contains "down" text
              || Py.contains "quieter" text
      then <["adjustment" := VStr "softer"]> params
      else if Py.contains "mute" text || Py.contains "silence" text
              || Py.contains "quiet" text
      then <["adjustment" := VStr "mute"]> params
      else <["adjustment" := VNone]> params
    else params in
  let params :=
    if is_intent intent "voice_style" then
      if Py.contains "formal" text then <["style" := VStr "formal"]> params
      else if Py.contains "casual" text then <["style" := VStr "casual"]> params
      else if Py.contains "robotic" text || Py.contains "robot" text
      then <["style" := VStr "robotic"]> params
      else <["style" := VNone]> params
    else params in
  let params :=
    if is_intent intent "system_status" then
      if Py.contains "cpu" text then <["type" := VStr "cpu"]> params
      else if Py.contains "battery" text then <["type" := VStr "battery"]> params
      else if Py.contains "network" text || Py.contains "internet" text
              || Py.contains "connection" text
      then <["type" := VStr "network"]> params
      else <["type" := VStr "all"]> params
    else params in
  let params :=
    if is_intent intent "listening" then
      if Py.contains "start" text then <["mode" := VStr "start"]> params
      else if Py.contains "stop" text then <["mode" := VStr "stop"]> params
      else <["mode" := VNone]> params
    else params in
  Ok params
  end.

Definition command_for (intent : string) (text raw : str) : result Command :=
  params ← _extract_params intent text raw;
  Ok (mkCommand intent params).

(** The first loop of [process]: quick exact pattern checks.  [None]
    means that the loop ran to its end without returning. *)
Fixpoint pattern_loop (defs : list (string * IntentSpec)) (text raw : str)
  : option (result Command) :=
  match defs with
  | [] => None
  | (intent, spec) :: defs' =>
      (fix pats_loop (pats : list regex) : option (result Command) :=
         match pats with
         | [] => pattern_loop defs' text raw
         | pat :: pats' =>
             match Re.search text pat with
             | Some _ => Some (command_for intent text raw)
             | None => pats_loop pats'
             end
         end) (patterns spec)
  end.

(** [scores.sort(key=lambda x: x[1], reverse=True)]: list.sort is stable,
    also with [reverse=True], so entries of equal score keep their order;
    a stable sort is determined by that, here as an insertion sort. *)
Definition score_lt (x y : string * Q) : bool := negb (Qle_bool (snd y) (snd x)).

Fixpoint insert_desc (x : string * Q) (l : list (string * Q)) : list (string * Q) :=
  match l with
  | [] => [x]
  | y :: l' => if score_lt x y then y :: insert_desc x l' else x :: l
  end.

Fixpoint sort_desc (l : list (string * Q)) : list (string * Q) :=
  match l with
  | [] => []
  | x :: l' => insert_desc x (sort_desc l')
  end.

(** The last loop of [process]: keyword membership of the first two
    keywords. *)
Fixpoint fallback_loop (defs : list (string * IntentSpec)) (tokens : list str)
    (text raw : str) : option (result Command) :=
  match defs with
  | [] => None
  | (intent, spec) :: defs' =>
      let required := take 2 (keywords spec) in
      if negb (bool_decide (required = []))
         && forallb (fun k => Py.mem k tokens) required
      then Some (command_for intent text raw)
      else fallback_loop defs' tokens text raw
  end.

Definition text_value (text : option str) : value :=
  match text with
  | Some t => VStr t
  | None => VNone
  end.

Definition process_with (defs : list (string * IntentSpec)) (text : option str)
  : result Command :=
  match text with
  | None | Some [] =>                                         (* if not text *)
      Ok (mkCommand "unknown" {["text" := text_value text]})
  | Some raw =>
      let text := _normalize (Some raw) in
      let tokens := _tokens text in
      (* Quick exact pattern checks (fast wins) *)
      match pattern_loop defs text raw with
      | Some r => r
      | None =>
          (* If no pattern matched, use keyword overlap scoring *)
          let scores :=
            map (fun d => (fst d, _overlap_score tokens (keywords (snd d)))) defs in
          let scores := sort_desc scores in
          best ← Py.index scores 0;
          let '(best_intent, best_score) := best in
          if Qle_bool (1 # 4) best_score then command_for best_intent text raw
          else
            (* More robust fallback: try keyword membership *)
            match fallback_loop defs tokens text raw with
            | Some r => r
            | None => Ok (mkCommand "unknown" {["text" := VStr raw]})
            end
      end
  end.

(** [CommandProcessor.process] *)
Definition process (text : option str) : result Command :=
  process_with intent_definitions text.

End CommandProcessor.

(** ** [core/session_manager.py] *)
Module SessionManager.

(** [collections.deque(maxlen=n)]: the items, oldest first, and the bound. *)
Record deque (A : Type) : Type := mkDeque {
  items : list A;
  maxlen : nat
}.
Arguments mkDeque {A} items maxlen.
Arguments items {A} d.
Arguments maxlen {A} d.

(** [d.append(x)]: add on the right, then drop from the left when the
    bound is exceeded. *)
Definition deque_append {A} (d : deque A) (x : A) : deque A :=
  let l := items d ++ [x] in
  mkDeque (if maxlen d <? length l then drop 1 l else l) (maxlen d).

(** [d[-k]] for [k >= 1]. *)
Definition deque_from_end {A} (d : deque A) (k : nat) : result A :=
  match k with
  | 0 => Py.index (items d) 0
  | S _ => if k <=? length (items d)
           then Py.index (items d) (length (items d) - k)
           else Raise IndexError
  end.

Record HistoryEntry : Type := mkEntry {
  command : Command;
  timestamp : nat
}.

Record Pending : Type := mkPending {
  pending_action : string;
  pending_params : gmap string value;
  pending_message : str
}.

(** A started alarm thread: the delay and what its callback will say. *)
Record AlarmThread : Type := mkAlarm {
  alarm_seconds : value;
  alarm_says : str
}.

Record t : Type := mkSession {
  command_history : deque HistoryEntry;
  pending_confirmation : option Pending;
  alarm_threads : list AlarmThread
}.

Definition __init__ : t :=
  mkSession (mkDeque [] Config.MEMORY_SIZE) None [].

Definition with_history (h : deque HistoryEntry) (s : t) : t :=
  mkSession h (pending_confirmation s) (alarm_threads s).

Definition with_pending (p : option Pending) (s : t) : t :=
  mkSession (command_history s) p (alarm_threads s).

(** [now] is the reading of [datetime.now()]. *)
Definition add_to_history (now : nat) (command : Command) (s : t) : t :=
  with_history (deque_append (command_history s) (mkEntry command now)) s.

Definition get_last_command (s : t) : result (option Command) :=
  match items (command_history s) with
  | [] => Ok None
  | _ => e ← deque_from_end (command_history s) 1; Ok (Some (command e))
  end.

Definition get_previous_command (offset : nat) (s : t) : result (option Command) :=
  if offset <=? length (items (command_history s))
  then e ← deque_from_end (command_history s) offset; Ok (Some (command e))
  else Ok None.

Definition set_pending_confirmation (action : string) (params : gmap string value)
    (message : str) (s : t) : t :=
  with_pending (Some (mkPending action params message)) s.

Definition get_pending_confirmation (s : t) : option Pending :=
  pending_confirmation s.

Definition clear_pending_confirmation (s : t) : t := with_pending None s.

(** Returns the confirmed command, or [None], and the session afterwards. *)
Definition confirm_action (s : t) : option Command * t :=
  match pending_confirmation s with
  | Some p =>
      let confirmed := mkCommand (pending_action p) (pending_params p) in
      (Some confirmed, clear_pending_confirmation s)
  | None => (None, s)
  end.

(** [thread.start()] is recorded; the callback itself runs later, outside
    the dialogue thread. *)
Definition set_alarm (seconds : value) (says : str) (s : t) : t :=
  mkSession (command_history s) (pending_confirmation s)
            (alarm_threads s ++ [mkAlarm seconds says]).

(** [value * n] of Python: integer product, or sequence repetition. *)
Definition times (v : value) (n : nat) : result value :=
  match v with
  | VInt z => Ok (VInt (z * Z.of_nat n))
  | VStr s => Ok (VStr (concat (replicate n s)))
  | VNone => Raise TypeError
  end.

Definition calculate_seconds (v unit : value) : result value :=
  match unit with
  | VStr u =>
      let unit := Py.lower u in
      if Py.startswith unit "second" then Ok v
      else if Py.startswith unit "minute" then times v 60
      else if Py.startswith unit "hour" then times v 3600
      else Ok v
  | _ => Raise AttributeError
  end.

Definition needs_confirmation (action : string) : bool :=
  let sensitive_actions := ["open_app"; "alarm"; "reminder"] in
  bool_decide (action ∈ sensitive_actions).

(** [get_history_summary]; [strftime] renders a timestamp as
    ["%H:%M:%S"]. *)
Definition get_history_summary (strftime : nat -> str) (s : t) : list (string * str) :=
  map (fun item => (action (command item), strftime (timestamp item)))
      (items (command_history s)).

End SessionManager.

(** ** [core/speech_engine.py] *)
Module SpeechEngine.
Import PyFloat.
Import Config.

(** [VOICE_STYLES[style]] when [style in VOICE_STYLES]. *)
Definition style_settings (style : value) : option VoiceStyle :=
  match style with
  | VStr name => snd <$> List.find (fun kv => bool_decide (fst kv = name)) VOICE_STYLES
  | _ => None
  end.

Record t : Type := mkSpeech {
  is_muted : bool;
  base_volume : spec_float;
  current_voice_style : value;
  tts_rate : option Z;                 (* tts_engine property 'rate' *)
  tts_volume : option spec_float;      (* tts_engine property 'volume' *)
  spoken : list str                    (* what [speak] has said so far *)
}.

Definition _apply_voice_style (style : value) (e : t) : t :=
  match style_settings style with
  | Some settings =>
      mkSpeech (is_muted e) (base_volume e) style
               (Some (rate settings))
               (Some (fmul (volume settings) (base_volume e)))
               (spoken e)
  | None => e
  end.

Definition __init__ : t :=
  let e := mkSpeech false f0_9 (VStr Config.DEFAULT_VOICE_STYLE) None None [] in
  _apply_voice_style (current_voice_style e) e.

(** [speak]: nothing is said when muted or when the text is empty. *)
Definition speak (text : str) (e : t) : t :=
  if negb (is_muted e) && negb (bool_decide (text = []))
  then mkSpeech (is_muted e) (base_volume e) (current_voice_style e)
                (tts_rate e) (tts_volume e) (spoken e ++ [text])
  else e.

(** What one attempt of the recogniser yields. *)
Inductive heard : Type :=
| Recognized (text : str)
| WaitTimeoutError
| UnknownValueError
| RequestError (e : str)
| OtherException (e : str).

Definition listen_result : Type := bool * option str * option str.

(** The [while retries < MAX_RECOGNITION_RETRIES] loop of [listen];
    [mic k] is what the [k]-th attempt of this call yields.  The loop runs
    at most [MAX_RECOGNITION_RETRIES] times, which [fuel] counts. *)
Fixpoint listen_loop (fuel : nat) (mic : nat -> heard) (retries : nat)
  : listen_result :=
  if retries <? Config.MAX_RECOGNITION_RETRIES then
    match fuel with
    | 0 => (false, None, Some ("max_retries" : str))
    | S fuel' =>
        match mic retries with
        | Recognized text => (true, Some (Py.lower text), None)
        | WaitTimeoutError =>
            let retries := S retries in
            if retries <? Config.MAX_RECOGNITION_RETRIES
            then listen_loop fuel' mic retries
            else (false, None, Some ("timeout" : str))
        | UnknownValueError =>
            let retries := S retries in
            if retries <? Config.MAX_RECOGNITION_RETRIES
            then listen_loop fuel' mic retries
            else (false, None, Some ("unknown" : str))
        | RequestError e => (false, None, Some ("network_error: " ++ e))
        | OtherException e => (false, None, Some ("error: " ++ e))
        end
    end
  else (false, None, Some ("max_retries" : str)).

Definition listen (mic : nat -> heard) : listen_result :=
  listen_loop Config.MAX_RECOGNITION_RETRIES mic 0.

Definition change_voice_style (style : value) (e : t) : bool * t :=
  match style_settings style with
  | Some _ => (true, _apply_voice_style style e)
  | None => (false, e)
  end.

Definition with_base_volume (v : spec_float) (e : t) : t :=
  mkSpeech (is_muted e) v (current_voice_style e) (tts_rate e) (tts_volume e)
           (spoken e).

Definition adjust_volume (adjustment : value) (e : t) : t :=
  if bool_decide (adjustment = VStr "louder") then
    let e := with_base_volume (py_min f1_0 (fadd (base_volume e) f0_2)) e in
    _apply_voice_style (current_voice_style e) e
  else if bool_decide (adjustment = VStr "softer") then
    let e := with_base_volume (py_max f0_2 (fsub (base_volume e) f0_2)) e in
    _apply_voice_style (current_voice_style e) e
  else if bool_decide (adjustment = VStr "mute") then
    mkSpeech (negb (is_muted e)) (base_volume e) (current_voice_style e)
             (tts_rate e) (tts_volume e) (spoken e)
  else e.

(** [get_manual_input]: [line] is what [input] returned, or the exception
    it raised. *)
Definition get_manual_input (line : result str) : option str :=
  match line with
  | Ok l =>
      let text := Py.strip l in
      match text with
      | [] => None
      | _ => Some (Py.lower text)
      end
  | Raise _ => None
  end.

End SpeechEngine.

(** ** [jarvis.py]: the dialogue controller *)
Module Jarvis.

(** The calls the controller makes on [self.functions].  The handlers
    catch their own exceptions and always return a message. *)
Inductive Call : Type :=
| get_time
| get_date
| get_weather (city : value)
| google_search (query : value)
| get_wikipedia_summary (query : value)
| get_system_status (status_type : value)
| open_application (app_name : value).

Record t : Type := mkJarvis {
  speech : SpeechEngine.t;
  session : SessionManager.t;
  functions : Call -> str;        (* the message each handler call returns *)
  handled : list Call;            (* the handler calls made so far *)
  logged : list (str * str);      (* [logger.log_command] entries *)
  current_mode : str;
  is_running : bool;
  continuous_listening : bool;
  clock : nat                     (* the next reading of [datetime.now()] *)
}.

Definition __init__ (functions : Call -> str) (clock : nat) : t :=
  mkJarvis SpeechEngine.__init__ SessionManager.__init__ functions [] []
           Config.MODE_VOICE false false clock.

(** Controller code: a state transformer on the [Jarvis] object that
    returns a value or raises; the state survives an exception. *)
Definition M (A : Type) : Type := t -> result A * t.

Definition ret {A} (a : A) : M A := fun j => (Ok a, j).

Definition bind {A B} (x : M A) (f : A -> M B) : M B :=
  fun j =>
    match x j with
    | (Ok a, j') => f a j'
    | (Raise e, j') => (Raise e, j')
    end.

Definition raise {A} (e : exn) : M A := fun j => (Raise e, j).
Definition gets {A} (f : t -> A) : M A := fun j => (Ok (f j), j).
Definition modify (f : t -> t) : M unit := fun j => (Ok tt, f j).
Definition lift {A} (r : result A) : M A := fun j => (r, j).

(** [try: body except Exception: handler] *)
Definition try_except (body : M unit) (handler : exn -> M unit) : M unit :=
  fun j =>
    match body j with
    | (Ok tt, j') => (Ok tt, j')
    | (Raise e, j') => handler e j'
    end.

#[global] Instance M_bind : MBind M := fun A B f x => bind x f.
#[global] Instance M_ret : MRet M := fun A a => ret a.

Definition set_speech (f : SpeechEngine.t -> SpeechEngine.t) : M unit :=
  modify (fun j => mkJarvis (f (speech j)) (session j) (functions j) (handled j)
                            (logged j) (current_mode j) (is_running j)
                            (continuous_listening j) (clock j)).

Definition set_session (f : SessionManager.t -> SessionManager.t) : M unit :=
  modify (fun j => mkJarvis (speech j) (f (session j)) (functions j) (handled j)
                            (logged j) (current_mode j) (is_running j)
                            (continuous_listening j) (clock j)).

Definition set_mode (mode : str) : M unit :=
  modify (fun j => mkJarvis (speech j) (session j) (functions j) (handled j)
                            (logged j) mode (is_running j)
                            (continuous_listening j) (clock j)).

Definition set_running (b : bool) : M unit :=
  modify (fun j => mkJarvis (speech j) (session j) (functions j) (handled j)
                            (logged j) (current_mode j) b
                            (continuous_listening j) (clock j)).

Definition set_continuous (b : bool) : M unit :=
  modify (fun j => mkJarvis (speech j) (session j) (functions j) (handled j)
                            (logged j) (current_mode j) (is_running j) b (clock j)).

(** [datetime.now()]: read the clock, which then moves on. *)
Definition now : M nat :=
  fun j => (Ok (clock j),
            mkJarvis (speech j) (session j) (functions j) (handled j) (logged j)
                     (current_mode j) (is_running j) (continuous_listening j)
                     (S (clock j))).

(** A call on [self.functions]: recorded, and answered with a message. *)
Definition call (c : Call) : M str :=
  fun j => (Ok (functions j c),
            mkJarvis (speech j) (session j) (functions j) (handled j ++ [c])
                     (logged j) (current_mode j) (is_running j)
                     (continuous_listening j) (clock j)).

Definition log_command (text mode : str) : M unit :=
  modify (fun j => mkJarvis (speech j) (session j) (functions j) (handled j)
                            (logged j ++ [(text, mode)]) (current_mode j)
                            (is_running j) (continuous_listening j) (clock j)).

Definition speak (text : str) : M unit := set_speech (SpeechEngine.speak text).

(** [params[key]] and [params.get(key)] *)
Definition getitem (params : gmap string value) (key : string) : M value :=
  match params !! key with
  | Some v => ret v
  | None => raise (KeyError key)
  end.

Definition get (params : gmap string value) (key : string) : value :=
  default VNone (params !! key).

(** [str(v)], as an f-string formats it. *)
Definition fmt (v : value) : str :=
  match v with
  | VStr s => s
  | VInt z => list_ascii_of_string (NilZero.string_of_int (Z.to_int z))
  | VNone => "None"
  end.

Definition is_action (action name : string) : bool := String.eqb action name.

Definition _switch_mode (mode : value) : M unit :=
  if bool_decide (mode = VStr Config.MODE_VOICE) then
    set_mode Config.MODE_VOICE;;
    speak "Switched to voice mode"
  else if bool_decide (mode = VStr Config.MODE_MANUAL) then
    set_mode Config.MODE_MANUAL;;
    speak "Switched to manual mode"
  else ret tt.

(** The triple-quoted help text, line by line; each line ends in a newline
    and the last one holds only the indentation. *)
Definition help_text : str :=
  let nl : str := ["010"%char] in
  concat (map (fun line : string => line ++ nl)
    [ "";
      "        Here's what I can do:";
      "        - Tell time and date";
      "        - Get weather information";
      "        - Search Google";
      "        - Get Wikipedia summaries";
      "        - Check system status";
      "        - Open applications";
      "        - Set alarms and reminders";
      "        - Change voice style: formal, casual, or robotic";
      "        - Adjust volume: louder, softer, or mute";
      "        - Switch modes: voice mode or manual mode";
      "        - Remember recent commands: say 'repeat that' or 'undo'";
      "        - Say 'exit' to quit" ])
  ++ "        ".

Definition _show_help : M unit := speak help_text.

Definition _set_alarm (params : gmap string value) : M unit :=
  v ← getitem params "value";
  unit ← getitem params "unit";
  seconds ← lift (SessionManager.calculate_seconds v unit);
  set_session (SessionManager.set_alarm seconds
                 ("Alarm! " ++ fmt v ++ " " ++ fmt unit ++ " has passed!"));;
  speak ("Alarm set for " ++ fmt v ++ " " ++ fmt unit).

Definition _set_reminder (params : gmap string value) : M unit :=
  v ← getitem params "value";
  unit ← getitem params "unit";
  message ← getitem params "message";
  seconds ← lift (SessionManager.calculate_seconds v unit);
  set_session (SessionManager.set_alarm seconds ("Reminder: " ++ fmt message));;
  speak ("Reminder set for " ++ fmt v ++ " " ++ fmt unit).

Definition _request_confirmation (command : Command) : M unit :=
  let action := action command in
  let params := params command in
  message ←
    (if is_action action "open_app" then
       app ← getitem params "app";
       ret ("Do you want me to open " ++ fmt app ++ "? Say yes or no.")
     else if is_action action "alarm" then
       v ← getitem params "value";
       unit ← getitem params "unit";
       ret ("Do you want me to set an alarm for " ++ fmt v ++ " " ++ fmt unit
            ++ "? Say yes or no.")
     else if is_action action "reminder" then
       message ← getitem params "message";
       ret ("Do you want me to set a reminder for " ++ fmt message
            ++ "? Say yes or no.")
     else ret ("Do you want me to continue? Say yes or no." : str));
  set_session (SessionManager.set_pending_confirmation action params message);;
  speak message.

Definition _handle_listening_mode (mode : value) : M unit :=
  if bool_decide (mode = VStr "start") then
    set_continuous true;;
    speak "Starting continuous listening mode"
  else if bool_decide (mode = VStr "stop") then
    set_continuous false;;
    speak "Stopping continuous listening mode"
  else ret tt.

(** [_handle_repeat], with the call back into [_execute_command] as
    [execute]. *)
Definition _handle_repeat_with (execute : Command -> M unit)
    (params : gmap string value) : M unit :=
  repeat_type ← getitem params "type";
  if bool_decide (repeat_type = VStr "repeat") then
    last_command ← (s ← gets session; lift (SessionManager.get_last_command s));
    match last_command with
    | Some last_command =>
        speak "Repeating last command";;
        execute last_command
    | None => speak "No previous command to repeat"
    end
  else if bool_decide (repeat_type = VStr "undo") then
    prev_command ← (s ← gets session; lift (SessionManager.get_previous_command 2 s));
    match prev_command with
    | Some prev_command =>
        speak "Executing previous command";;
        execute prev_command
    | None => speak "No previous command found"
    end
  else ret tt.

(** [_execute_command]; [depth] is the number of nested calls the
    interpreter still allows, a [RecursionError] being raised beyond. *)
Fixpoint _execute_command (depth : nat) (command : Command) : M unit :=
  match depth with
  | 0 => raise RecursionError
  | S depth' =>
      let action := action command in
      let params := params command in
      (* Add to history *)
      (t ← now; set_session (SessionManager.add_to_history t command));;
      (* Check if needs confirmation *)
      pending ← gets (fun j => SessionManager.get_pending_confirmation (session j));
      if SessionManager.needs_confirmation action && negb (bool_decide (is_Some pending))
      then _request_confirmation command
      (* Execute action *)
      else if is_action action "time" then
        response ← call get_time; speak response
      else if is_action action "date" then
        response ← call get_date; speak response
      else if is_action action "weather" then
        message ← call (get_weather (get params "city")); speak message
      else if is_action action "search" then
        query ← getitem params "query";
        message ← call (google_search query); speak message
      else if is_action action "wikipedia" then
        query ← getitem params "query";
        message ← call (get_wikipedia_summary query); speak message
      else if is_action action "system_status" then
        message ← call (get_system_status (get params "type")); speak message
      else if is_action action "open_app" then
        app ← getitem params "app";
        message ← call (open_application app); speak message
      else if is_action action "alarm" then _set_alarm params
      else if is_action action "reminder" then _set_reminder params
      else if is_action action "voice_style" then
        style ← getitem params "style";
        ok ← (fun j => let '(ok, e) := SpeechEngine.change_voice_style style (speech j) in
                       (Ok ok, snd (set_speech (fun _ => e) j)));
        if (ok : bool) then speak ("Voice changed to " ++ fmt style ++ " style")
        else speak ("Voice style " ++ fmt style ++ " not available")
      else if is_action action "volume" then
        adjustment ← getitem params "adjustment";
        set_speech (SpeechEngine.adjust_volume adjustment);;
        if bool_decide (adjustment = VStr "mute") then
          muted ← gets (fun j => SpeechEngine.is_muted (speech j));
          speak ("Voice " ++ (if (muted : bool) then "muted" else "unmuted" : string))
        else speak "Volume adjusted"
      else if is_action action "mode_switch" then
        mode ← getitem params "mode"; _switch_mode mode
      else if is_action action "help" then _show_help
      else if is_action action "repeat" then
        _handle_repeat_with (_execute_command depth') params
      else if is_action action "exit" then
        speak "Goodbye! Shutting down.";;
        set_running false
      else if is_action action "listening" then
        mode ← getitem params "mode"; _handle_listening_mode mode
      else
        speak "I didn't understand that command. Say 'help' for available commands."
  end.

Definition _handle_repeat (depth : nat) (params : gmap string value) : M unit :=
  _handle_repeat_with (_execute_command depth) params.

(** [error] is the third component of what [listen] returned; the test
    ['network_error' in error] needs a string. *)
Definition _handle_speech_error (error : option str) : M unit :=
  if bool_decide (error = Some ("timeout" : str)) then
    speak "I didn't hear anything. Switching to manual mode.";;
    set_mode Config.MODE_MANUAL
  else if bool_decide (error = Some ("unknown" : str)) then
    speak "I couldn't understand that. Switching to manual mode.";;
    set_mode Config.MODE_MANUAL
  else
    match error with
    | None => raise TypeError
    | Some error =>
        if Py.contains "network_error" error then
          speak "Network error detected. Switching to manual mode.";;
          set_mode Config.MODE_MANUAL
        else if bool_decide (error = "max_retries") then
          speak "Maximum retries reached. Switching to manual mode.";;
          set_mode Config.MODE_MANUAL
        else speak ("Error: " ++ error)
    end.

(** What the outside world supplies to one blocking input call: the
    recogniser's attempts, and the line typed on the keyboard. *)
Record Input : Type := mkInput {
  mic : nat -> SpeechEngine.heard;
  keyboard : result str
}.

(** Truth value of [text and ('yes' in text or 'yeah' in text or 'sure' in text)]. *)
Definition affirmative (text : option str) : bool :=
  match text with
  | None | Some [] => false
  | Some text =>
      Py.contains "yes" text || Py.contains "yeah" text || Py.contains "sure" text
  end.

Definition _handle_pending_confirmation (depth : nat) (input : Input) : M unit :=
  pending ← gets (fun j => SessionManager.get_pending_confirmation (session j));
  match pending with
  | None => ret tt
  | Some _ =>
      (* Get response *)
      mode ← gets current_mode;
      response ←
        (if bool_decide (mode = Config.MODE_VOICE) then
           let '(success, text, error) := SpeechEngine.listen (mic input) in
           if (success : bool) then ret (Some text)
           else speak "I didn't hear you. Please say yes or no.";; ret None
         else
           speak "Type yes or no:";;
           ret (Some (SpeechEngine.get_manual_input (keyboard input))));
      match response with
      | None => ret tt                                    (* the early return *)
      | Some text =>
          (* Process response *)
          if affirmative text then
            confirmed_command ←
              (fun j => let '(c, s) := SessionManager.confirm_action (session j) in
                        (Ok c, snd (set_session (fun _ => s) j)));
            match confirmed_command with
            | Some confirmed_command =>
                speak "Confirmed";;
                _execute_command depth confirmed_command
            | None => ret tt
            end
          else
            set_session SessionManager.clear_pending_confirmation;;
            speak "Cancelled"
      end
  end.

(** One pass through the body of the [while self.is_running] loop of
    [run].  [KeyboardInterrupt], an asynchronous signal, is not part of
    the model. *)
Definition run_iteration (depth : nat) (input : Input) : M unit :=
  try_except
    (pending ← gets (fun j => SessionManager.get_pending_confirmation (session j));
     match pending with
     | Some _ => _handle_pending_confirmation depth input
     | None =>
         mode ← gets current_mode;
         acquired ←
           (if bool_decide (mode = Config.MODE_VOICE) then
              let '(success, text, error) := SpeechEngine.listen (mic input) in
              if (success : bool) then ret (Some text)
              else _handle_speech_error error;; ret None
            else
              speak "Type your command:";;
              let text := SpeechEngine.get_manual_input (keyboard input) in
              match text with
              | None | Some [] => ret None                (* if not text *)
              | Some _ => ret (Some text)
              end);
         match acquired with
         | None => ret tt                                 (* continue *)
         | Some text =>
             command ← lift (CommandProcessor.process text);
             mode ← gets current_mode;
             log_command (default ("None" : str) text) mode;;
             _execute_command depth command
         end
     end)
    (fun _ => speak "I encountered an error. Please try again.").

(** [run]: the [while self.is_running] loop.  Each pass makes one
    blocking input call; [inputs] lists what these calls receive, pass by
    pass, and the loop is followed for as long as the list lasts. *)
Fixpoint run (depth : nat) (inputs : list Input) : M unit :=
  match inputs with
  | [] => ret tt
  | input :: inputs' =>
      running ← gets is_running;
      if (running : bool) then run_iteration depth input;; run depth inputs'
      else ret tt
  end.

(** [start]: the greeting, then the main loop. *)
Definition start (depth : nat) (inputs : list Input) : M unit :=
  set_running true;;
  speak "Hello! I am Jarvis, your AI assistant. I'm currently in voice mode.";;
  speak "Say 'help' to know what I can do.";;
  run depth inputs.

End Jarvis.

(** ** [utils/logger.py] *)
Module Logger.

(** The history file as the file system holds it: its text, or [None]
    while the file does not exist. *)
Definition file : Type := option str.

Definition is_lf (c : ascii) : bool := Py.code c =? 10.
Definition is_cr (c : ascii) : bool := Py.code c =? 13.

(** Writing in text mode: every line feed becomes [os.linesep]. *)
Definition written (linesep s : str) : str :=
  flat_map (fun c => if is_lf c then linesep else [c]) s.

(** Reading in text mode, with universal newlines: a carriage return,
    with the line feed that may follow it, is read as one line feed;
    [after_cr] says that the previous character was a carriage return. *)
Fixpoint read_from (after_cr : bool) (s : str) : str :=
  match s with
  | [] => []
  | c :: s' =>
      if is_cr c then "010"%char :: read_from true s'
      else if is_lf c then
        (if after_cr then read_from false s' else c :: read_from false s')
      else c :: read_from false s'
  end.

Definition read (s : str) : str := read_from false s.

(** [f.readlines()] on the text read: the lines, each with its line feed;
    only the last one can lack it. *)
Fixpoint readlines (s : str) : list str :=
  match s with
  | [] => []
  | c :: s' =>
      if is_lf c then [c] :: readlines s'
      else match readlines s' with
           | [] => [[c]]
           | l :: ls => (c :: l) :: ls
           end
  end.

(** The entry [f"[{timestamp}] [{mode.upper()}] {command}\n"]. *)
Definition log_entry (timestamp command mode : str) : option str :=
  m ← Py.upper mode;
  Some ("[" ++ timestamp ++ "] [" ++ m ++ "] " ++ command ++ ["010"%char]).

(** [log_command]: [timestamp] is the clock reading as [strftime] renders
    it, [linesep] is [os.linesep], and [open_fails] says that [open]
    raises, in which case the error is printed and nothing is written.
    The result is [None] only where [mode.upper()] leaves the model. *)
Definition log_command (linesep timestamp command mode : str) (open_fails : bool)
    (f : file) : option file :=
  log_entry ← log_entry timestamp command mode;
  Some (if open_fails then f
        else Some (default [] f ++ written linesep log_entry)).

(** [get_recent_logs(count)]; an exception while opening or reading
    ([read_fails]) gives the empty list. *)
Definition get_recent_logs (count : Z) (read_fails : bool) (f : file) : list str :=
  match f with
  | Some content =>
      if read_fails then []
      else
        let lines := readlines (read content) in
        Py.slice_from (- count) lines
  | None => []
  end.

End Logger.

(** ** [functions/system_functions.py]: opening applications *)
Module SystemFunctions.

(** What a handler does to the machine. *)
Inductive effect : Type :=
| os_system (command : str)
| webbrowser_open (url : str).

Global Instance effect_eq_dec : EqDecision effect.
Proof. solve_decision. Defined.

(** The machine: the platform name, and for each external call the text
    of the exception it raises, if it raises one. *)
Record World : Type := mkWorld {
  platform_system : str;
  raises : effect -> option str
}.

(** An entry of [safe_apps]: a command line, or a method to call. *)
Inductive app_command : Type :=
| Command_line (command : str)
| Callable (method : list effect).

(** [_get_default_browser] *)
Definition _get_default_browser : list effect :=
  [webbrowser_open "https://www.google.com"].

(** [self.safe_apps], as [__init__] builds it. *)
Definition safe_apps (w : World) : list (str * app_command) :=
  [ ("notepad" : str, Command_line "notepad.exe");
    ("calculator" : str, Command_line "calc.exe");
    ("browser" : str, Callable _get_default_browser);
    ("chrome" : str,
     Command_line (if bool_decide (platform_system w <> ("Windows" : str))
                   then "chrome" else "chrome.exe"));
    ("firefox" : str, Command_line "firefox") ].

Definition lookup_app (w : World) (app_name : str) : option app_command :=
  snd <$> List.find (fun kv => bool_decide (fst kv = app_name)) (safe_apps w).

(** The external calls made in order, up to the first one that raises. *)
Fixpoint perform (w : World) (calls : list effect) : list effect * option str :=
  match calls with
  | [] => ([], None)
  | c :: calls' =>
      match raises w c with
      | Some msg => ([c], Some msg)
      | None => let '(done, r) := perform w calls' in (c :: done, r)
      end
  end.

(** [open_application]: the pair it returns, and the external calls it
    made.  An argument that is no string has no [lower]. *)
Definition open_application (w : World) (app_name : value)
  : (bool * str) * list effect :=
  match app_name with
  | VStr app_name =>
      let app_name := Py.strip (Py.lower app_name) in
      match lookup_app w app_name with
      | Some app_command =>
          let calls :=
            match app_command with
            | Callable method => method
            | Command_line command => [os_system command]
            end in
          match perform w calls with
          | (done, None) => ((true, "Opening " ++ app_name), done)
          | (done, Some msg) => ((false, "Error opening application: " ++ msg), done)
          end
      | None =>
          ((false, "I cannot open " ++ app_name
                   ++ ". It's not in my safe applications list."), [])
      end
  | VInt _ =>
      ((false, "Error opening application: 'int' object has no attribute 'lower'" : str), [])
  | VNone =>
      ((false, "Error opening application: 'NoneType' object has no attribute 'lower'" : str),
       [])
  end.

End SystemFunctions.

(** ** What a match is: a declarative reading of patterns *)
Module ReSem.
Import Re.

(** Zero or more rounds of [R], each of which moves forward. *)
Inductive iter (R : nat -> caps -> nat -> caps -> Prop)
  : nat -> caps -> nat -> caps -> Prop :=
| iter_stop i c : iter R i c i c
| iter_step i c l c1 j c' :
    R i c l c1 -> i < l -> iter R l c1 j c' -> iter R i c j c'.

(** [matches s r i c j c']: the pattern [r] matches the characters of [s]
    from position [i] up to position [j], turning the captures [c] into
    [c'].  No order of preference is expressed here. *)
Fixpoint matches (s : str) (r : regex) (i : nat) (c : caps) (j : nat) (c' : caps)
  : Prop :=
  match r with
  | Eps => j = i /\ c' = c
  | Chr cs => exists a, s !! i = Some a /\ accepts cs a = true /\ j = S i /\ c' = c
  | Seq r1 r2 => exists l c1, matches s r1 i c l c1 /\ matches s r2 l c1 j c'
  | Alt r1 r2 => matches s r1 i c j c' \/ matches s r2 i c j c'
  | Star _ r' => iter (matches s r') i c j c'
  | Group n r' => exists c1, matches s r' i c j c1 /\ c' = (n, (i, j)) :: c1
  | WordB => boundary s i = true /\ j = i /\ c' = c
  | Eos => at_end s i = true /\ j = i /\ c' = c
  end.

(** The groups every match of the pattern sets. *)
Fixpoint must (r : regex) : list nat :=
  match r with
  | Seq r1 r2 => must r1 ++ must r2
  | Alt r1 r2 => List.filter (fun n => bool_decide (n ∈ must r2)) (must r1)
  | Group n r' => n :: must r'
  | _ => []
  end.

(** The pattern contains no group. *)
Fixpoint groupless (r : regex) : bool :=
  match r with
  | Seq r1 r2 | Alt r1 r2 => groupless r1 && groupless r2
  | Star _ r' => groupless r'
  | Group _ _ => false
  | _ => true
  end.

(** Replacing hits, left to right: [hit pos = Some e] says that the
    characters from position [pos] up to [e] are replaced by [repl];
    [rest] is the text from [pos] on and [skip] the number of characters
    still to drop. *)
Fixpoint walk (hit : nat -> option nat) (repl : str) (skip pos : nat) (rest : str)
  : str :=
  match rest with
  | [] => []
  | a :: rest' =>
      match skip with
      | S skip' => walk hit repl skip' (S pos) rest'
      | 0 =>
          match hit pos with
          | Some e => repl ++ walk hit repl (e - pos - 1) (S pos) rest'
          | None => a :: walk hit repl 0 (S pos) rest'
          end
      end
  end.

(** The hits of a one-character pattern, of a run of such characters, and
    of the fillers. *)
Definition hit_chr (s : str) (cs : cset) (pos : nat) : option nat :=
  match s !! pos with
  | Some a => if accepts cs a then Some (S pos) else None
  | None => None
  end.

Fixpoint run (cs : cset) (s : str) : nat :=
  match s with
  | [] => 0
  | a :: s' => if accepts cs a then S (run cs s') else 0
  end.

Definition hit_run (s : str) (cs : cset) (pos : nat) : option nat :=
  match s !! pos with
  | Some a => if accepts cs a then Some (S pos + run cs (drop (S pos) s)) else None
  | None => None
  end.

(** The first [Some] of [f] along a list. *)
Fixpoint first_some {A B} (f : A -> option B) (l : list A) : option B :=
  match l with
  | [] => None
  | x :: l' => orelse (f x) (first_some f l')
  end.

(** The candidates of a repetition: the longest first when it is greedy. *)
Definition cand (greedy : bool) (lo len : nat) : list nat :=
  if greedy then rev (seq lo len) else seq lo len.

(** The captures as texts: each group with the characters of its span. *)
Definition texts (s : str) (c : caps) : list (nat * str) :=
  map (fun p => (fst p, slice s (fst (snd p)) (snd (snd p)))) c.

(** What a result of the matcher captured. *)
Definition captured (s : str) (res : nat * caps) : list (nat * str) := texts s (snd res).

(** Whether the pattern can match in a text whose characters all satisfy
    [ok]: a literal character must be one of them.  (Sets of characters
    other than a literal are taken to be matchable.) *)
Fixpoint feasible (ok : ascii -> bool) (r : regex) : bool :=
  match r with
  | Chr (CChar c) => ok c
  | Seq r1 r2 => feasible ok r1 && feasible ok r2
  | Alt r1 r2 => feasible ok r1 || feasible ok r2
  | Group _ r' => feasible ok r'
  | _ => true
  end.

End ReSem.

(** ** Definitions used to state the properties *)
Module Spec.
Import CommandProcessor.

(** *** The resolver as the specification words it *)

(** Some pattern of the intent matches the normalised text. *)
Definition pattern_matches (text : str) (d : string * IntentSpec) : bool :=
  existsb (fun pat => bool_decide (is_Some (Re.search text pat))) (patterns (snd d)).

Definition overlap (tokens : list str) (d : string * IntentSpec) : Q :=
  _overlap_score tokens (keywords (snd d)).

(** The first entry, in list order, whose score is maximal. *)
Fixpoint first_max {X} (f : X -> Q) (l : list X) : option X :=
  match l with
  | [] => None
  | x :: l' =>
      match first_max f l' with
      | Some y => if Qle_bool (f y) (f x) then Some x else Some y
      | None => Some x
      end
  end.

(** The first two keywords are all among the tokens. *)
Definition required_present (tokens : list str) (d : string * IntentSpec) : bool :=
  match take 2 (keywords (snd d)) with
  | [] => false
  | required => forallb (fun k => bool_decide (k ∈ tokens)) required
  end.

Definition unknown (text : value) : Command :=
  mkCommand "unknown" {["text" := text]}.

Definition resolve (catalog : list (string * IntentSpec)) (rawText : option str)
  : result Command :=
  match rawText with
  | None | Some [] => Ok (unknown (text_value rawText))          (* 1 *)
  | Some raw =>
      let text := _normalize rawText in
      let tokens := _tokens text in
      match List.find (pattern_matches text) catalog with
      | Some d => command_for (fst d) text raw                    (* 2 *)
      | None =>
          match first_max (overlap tokens) catalog with
          | None => Raise IndexError                    (* an empty catalog *)
          | Some d =>
              if Qle_bool (1 # 4) (overlap tokens d)
              then command_for (fst d) text raw                   (* 3 *)
              else
                match List.find (required_present tokens) catalog with
                | Some d => command_for (fst d) text raw          (* 4 *)
                | None => Ok (unknown (VStr raw))                 (* 5 *)
                end
          end
      end
  end.

(** *** The normaliser as the specification words it *)

(** (c) a character outside word characters and whitespace becomes a space *)
Definition blank_punctuation (a : ascii) : ascii :=
  if Py.isword a || Py.isspace a then a else " "%char.

(** (d) the filler set *)
Definition fillers : list str :=
  words ["please"; "could you"; "would you"; "hey"; "jarvis"; "ok"; "okay";
         "so"; "um"; "uh"; "the"; "a"; "an"].

Definition not_word (a : option ascii) : bool :=
  match a with
  | Some a => negb (Py.isword a)
  | None => true
  end.

(** The filler [w] stands at the head of [rest] as a whole word: no word
    character before it ([prev] is the character before [rest]) and none
    after it. *)
Definition whole_word (prev : option ascii) (rest w : str) : bool :=
  not_word prev && Py.startswith rest w && not_word (rest !! length w).

(** Each filler standing as a whole word is replaced by a space, from left
    to right; [skip] counts the characters of the filler still to drop. *)
Fixpoint remove_fillers (skip : nat) (prev : option ascii) (rest : str) : str :=
  match rest with
  | [] => []
  | a :: rest' =>
      match skip with
      | S skip' => remove_fillers skip' (Some a) rest'
      | 0 =>
          match List.find (whole_word prev rest) fillers with
          | Some w => " "%char :: remove_fillers (length w - 1) (Some a) rest'
          | None => a :: remove_fillers 0 (Some a) rest'
          end
      end
  end.

(** Whitespace occurs only as single spaces; with [after_space] the text
    follows a space, so it must not begin with one. *)
Fixpoint single_spaced (after_space : bool) (s : str) : bool :=
  match s with
  | [] => true
  | a :: s' =>
      if Py.isspace a
      then negb after_space && Ascii.eqb a " " && single_spaced true s'
      else single_spaced false s'
  end.

(** (e) every run of whitespace becomes one space; [in_run] says that the
    previous character was whitespace. *)
Fixpoint collapse (in_run : bool) (s : str) : str :=
  match s with
  | [] => []
  | a :: s' =>
      if Py.isspace a
      then (if in_run then collapse true s' else " "%char :: collapse true s')
      else a :: collapse false s'
  end.

Definition normalize (text : option str) : str :=
  match text with
  | None | Some [] => []                                           (* a *)
  | Some text =>
      let text := Py.lower text in                                 (* b *)
      let text := map blank_punctuation text in                    (* c *)
      let text := remove_fillers 0 None text in                    (* d *)
      Py.strip (collapse false text)                               (* e *)
  end.

(** The character before position [pos]. *)
Definition before (s : str) (pos : nat) : option ascii :=
  match pos with
  | 0 => None
  | S p => s !! p
  end.

(** The hits of the filler pattern. *)
Definition hit_filler (s : str) (pos : nat) : option nat :=
  (fun w => pos + length w)
    <$> List.find (whole_word (before s pos) (drop pos s)) fillers.

(** A word that begins and ends with a word character. *)
Definition wordy (w : str) : bool :=
  negb (not_word (head w)) && negb (not_word (last w)).

(** *** Parameters *)

(** The fourteen actions: the thirteen catalog entries and the sentinel. *)
Definition action_names : list string := map fst intent_definitions ++ ["unknown"].

(** The parameters each intent carries (the table of the specification). *)
Inductive extracted : string -> gmap string value -> Prop :=
| ex_weather_city city : extracted "weather" {["city" := VStr city]}
| ex_weather_none : extracted "weather" {["city" := VNone]}
| ex_search query : extracted "search" {["query" := VStr query]}
| ex_wikipedia query : extracted "wikipedia" {["query" := VStr query]}
| ex_open_app app : extracted "open_app" {["app" := VStr app]}
| ex_reminder_time message time :
    extracted "reminder" (<["time" := VStr time]> {["message" := VStr message]})
| ex_reminder_duration n unit :
    extracted "reminder" (<["unit" := VStr unit]> {["value" := VInt n]})
| ex_reminder_message message : extracted "reminder" {["message" := VStr message]}
| ex_volume a :
    a ∈ [VStr "louder"; VStr "softer"; VStr "mute"; VNone] ->
    extracted "volume" {["adjustment" := a]}
| ex_voice_style st :
    st ∈ [VStr "formal"; VStr "casual"; VStr "robotic"; VNone] ->
    extracted "voice_style" {["style" := st]}
| ex_system_status ty :
    ty ∈ [VStr "cpu"; VStr "battery"; VStr "network"; VStr "all"] ->
    extracted "system_status" {["type" := ty]}
| ex_listening mode :
    mode ∈ [VStr "start"; VStr "stop"; VNone] ->
    extracted "listening" {["mode" := mode]}
| ex_no_params intent :
    intent ∈ ["time"; "date"; "help"; "exit"] -> extracted intent ∅.

(** The unit words of a duration, and those a match can capture: the
    alternatives are tried in order, and each plural comes after its
    singular. *)
Definition unit_words : list str :=
  words ["second"; "seconds"; "minute"; "minutes"; "hour"; "hours"].

Definition captured_units : list str := words ["second"; "minute"; "hour"].

(** *** Histories *)

(** Successive [add_to_history] calls, with the clock reading of each. *)
Definition add_all (cmds : list (Command * nat)) (s : SessionManager.t)
  : SessionManager.t :=
  fold_left (fun s cn => SessionManager.add_to_history (snd cn) (fst cn) s) cmds s.

Definition entries (cmds : list (Command * nat)) : list SessionManager.HistoryEntry :=
  map (fun cn => SessionManager.mkEntry (fst cn) (snd cn)) cmds.

(** The entry [k] places from the end ([k = 1] is the last one). *)
Definition from_end {A} (l : list A) (k : nat) : option A :=
  if (1 <=? k) && (k <=? length l) then l !! (length l - k) else None.

(** *** Volumes *)

Definition fle (a b : spec_float) : bool := SFleb a b.

Definition in_volume_range (v : spec_float) : bool :=
  fle PyFloat.f0_2 v && fle v PyFloat.f1_0.

(** The states of the speech engine the controller can produce. *)
Inductive reachable : SpeechEngine.t -> Prop :=
| reach_init : reachable SpeechEngine.__init__
| reach_adjust a e : reachable e -> reachable (SpeechEngine.adjust_volume a e)
| reach_style st e : reachable e -> reachable (snd (SpeechEngine.change_voice_style st e))
| reach_speak text e : reachable e -> reachable (SpeechEngine.speak text e).

(** The twelve doubles [base_volume] takes: the closure of 0.9 under the
    two steps of [adjust_volume]. *)
Definition volumes : list spec_float :=
  [ S754_finite false 8106479329266893 (-53);
    S754_finite false 4503599627370496 (-52);
    S754_finite false 6305039478318694 (-53);
    S754_finite false 7205759403792794 (-53);
    S754_finite false 8106479329266892 (-53);
    S754_finite false 9007199254740991 (-54);
    S754_finite false 5404319552844596 (-53);
    S754_finite false 5404319552844594 (-54);
    S754_finite false 7205759403792795 (-54);
    S754_finite false 7205759403792794 (-55);
    S754_finite false 7205759403792796 (-55);
    S754_finite false 7205759403792794 (-54) ].

Definition sf_eqb (a b : spec_float) : bool :=
  match a, b with
  | S754_zero s, S754_zero s' => Bool.eqb s s'
  | S754_infinity s, S754_infinity s' => Bool.eqb s s'
  | S754_nan, S754_nan => true
  | S754_finite s m e, S754_finite s' m' e' =>
      Bool.eqb s s' && Pos.eqb m m' && Z.eqb e e'
  | _, _ => false
  end.

Definition is_volume (v : spec_float) : bool := existsb (sf_eqb v) volumes.

(** The invariant of the engine: the volume is one of the twelve, and
    the TTS properties are those of the current style at that volume. *)
Definition engine_inv (e : SpeechEngine.t) : Prop :=
  is_volume (SpeechEngine.base_volume e) = true
  /\ exists st,
       SpeechEngine.style_settings (SpeechEngine.current_voice_style e) = Some st
       /\ SpeechEngine.tts_rate e = Some (Config.rate st)
       /\ SpeechEngine.tts_volume e
          = Some (PyFloat.fmul (Config.volume st) (SpeechEngine.base_volume e)).

(** *** Speech errors *)

(** The errors after which [_handle_speech_error] switches to manual mode. *)
Definition switches_to_manual (error : str) : bool :=
  bool_decide (error = "timeout") || bool_decide (error = "unknown")
  || Py.contains "network_error" error || bool_decide (error = "max_retries").

(** The error kinds of the speech input. *)
Inductive error_kind : str -> Prop :=
| kind_timeout : error_kind "timeout"
| kind_unknown : error_kind "unknown"
| kind_network detail : error_kind ("network_error: " ++ detail)
| kind_max_retries : error_kind "max_retries"
| kind_error detail : error_kind ("error: " ++ detail).

(** *** Reminders: the three tiers as the specification words them *)

(** The length of the longest prefix of [s] whose characters satisfy [p]. *)
Fixpoint span (p : ascii -> bool) (s : str) : nat :=
  match s with
  | a :: s' => if p a then S (span p s') else 0
  | [] => 0
  end.

Definition newline : ascii := "010"%char.

(** A character within a line: any but the newline. *)
Definition in_line (a : ascii) : bool := negb (Py.code a =? 10).

(** The first [Some] of [f] on the suffixes of [s], the longest first. *)
Fixpoint first_at {B} (f : str -> option B) (s : str) : option B :=
  match f s with
  | Some b => Some b
  | None =>
      match s with
      | [] => None
      | _ :: s' => first_at f s'
      end
  end.

(** What follows [prefix] at the head of [rest]. *)
Definition after (prefix rest : str) : option str :=
  if Py.startswith rest prefix then Some (drop (length prefix) rest) else None.

(** The candidates [n], [n-1], ..., [1] and [1], [2], ..., [n]. *)
Definition longest_first (n : nat) : list nat := rev (seq 1 n).
Definition shortest_first (n : nat) : list nat := seq 1 n.

(** The text [y] when it is one line, not empty, and the last: a single
    newline may end it, and is left out. *)
Definition last_line (y : str) : option str :=
  let n := span in_line y in
  if (0 <? n) && (bool_decide (drop n y = []) || bool_decide (drop n y = [newline]))
  then Some (take n y) else None.

(** "remind me to X": X is the rest of the text, one line. *)
Definition remind_to_at (rest : str) : option str :=
  after "remind me to " rest ≫= last_line.

Definition remind_to (low : str) : option str := first_at remind_to_at low.

(** "<N> <unit>" at the head of [rest]: all the digits there, any
    whitespace, and a unit word; a plural is read as its singular. *)
Definition duration_at (rest : str) : option (str * str) :=
  let digits := take (span Py.isdecimal rest) rest in
  let rest := drop (span Py.isdecimal rest) rest in
  let rest := drop (span Py.isspace rest) rest in
  match digits with
  | [] => None
  | _ => (fun unit => (digits, unit)) <$> List.find (Py.startswith rest) captured_units
  end.

Definition duration (low : str) : option (str * str) := first_at duration_at low.

(** After the separator: whitespace, then Y, the rest of the text, one
    line.  As much whitespace is skipped as leaves a Y. *)
Definition time_at (rest : str) : option str :=
  ReSem.first_some (fun n => last_line (drop n rest))
    (longest_first (span Py.isspace rest)).

Definition separators : list str := words ["in"; "at"; "on"; "after"].

(** After X: one space, a separator, and the time. *)
Definition when_at (rest : str) : option str :=
  rest ← after " " rest;
  ReSem.first_some (fun sep => after sep rest ≫= time_at) separators.

(** "X (in|at|on|after) Y" at the head of [rest]: X is the shortest text,
    not empty and within the line, that such a clause follows. *)
Definition clause_at (rest : str) : option (str * str) :=
  ReSem.first_some (fun n => (fun y => (take n rest, y)) <$> when_at (drop n rest))
    (shortest_first (span in_line rest)).

(** "remind me [to] X (in|at|on|after) Y" at the head of [rest].  The
    word "to" with the whitespace after it is skipped when a clause
    follows it, and belongs to X otherwise. *)
Definition remind_when_at (rest : str) : option (str * str) :=
  rest ← after "remind me " rest;
  Re.orelse
    (rest' ← after "to" rest;
     ReSem.first_some (fun n => clause_at (drop n rest'))
       (longest_first (span Py.isspace rest')))
    (clause_at rest).

Definition remind_when (low : str) : option (str * str) := first_at remind_when_at low.

(** The number a run of decimal digits writes. *)
Fixpoint number (digits : str) : Z :=
  match digits with
  | [] => 0
  | d :: rest => (Py.digit_val d * 10 ^ Z.of_nat (length rest) + number rest)%Z
  end.

(** The reminder row of the table: the three tiers, tried in order on the
    lower-cased raw text, and the raw text itself as the last resort. *)
Definition reminder (raw : str) : result (gmap string value) :=
  let low := Py.lower raw in
  match remind_when low with
  | Some (x, y) =>
      Ok (<["time" := VStr (Py.strip y)]> {["message" := VStr (Py.strip x)]})
  | None =>
      match duration low with
      | Some (digits, unit) =>
          if (Z.of_nat (length digits) <=? Py.max_str_digits)%Z
          then Ok (<["unit" := VStr unit]> {["value" := VInt (number digits)]})
          else Raise ValueError
      | None =>
          match remind_to low with
          | Some x => Ok {["message" := VStr (Py.strip x)]}
          | None => Ok {["message" := VStr raw]}
          end
      end
  end.

(** The raw text holds a duration of more digits than [int] reads. *)
Definition overlong (raw : str) : bool :=
  match duration (Py.lower raw) with
  | Some (digits, _) => (Py.max_str_digits <? Z.of_nat (length digits))%Z
  | None => false
  end.



(** "remind <4301 ones> seconds": a reminder whose duration has one digit
    more than [int] reads. *)
Definition overlong_reminder : str :=
  ("remind " : str) ++ repeat "1"%char (Z.to_nat (Py.max_str_digits + 1)) ++ (" seconds" : str).




(** What [_extract_params] yields for an intent: the parameters of the
    table, or the [ValueError] of an overlong duration. *)
Definition outcome (intent : string) (raw : str) (r : result (gmap string value)) : Prop :=
  match r with
  | Ok p => extracted intent p
  | Raise e => e = ValueError /\ intent = "reminder" /\ overlong raw = true
  end.

End Spec.

(** ** Definitions used to state further properties of the code *)
Module Props.
Import Jarvis.

(** *** Controller steps *)

(** A controller step keeps [P] when [P] holds of the state it leaves
    whenever it held of the state it found, whether it returns or raises. *)
Definition keeps {A} (P : t -> Prop) (x : M A) : Prop :=
  forall j, P j -> P (snd (x j)).

(** The handler calls other than [open_application]. *)
Definition harmless (c : Call) : bool :=
  match c with
  | open_application _ => false
  | _ => true
  end.

(** The pending confirmation, if any, is for a sensitive action. *)
Definition pending_sensitive (j : t) : Prop :=
  match SessionManager.pending_confirmation (session j) with
  | Some p => SessionManager.needs_confirmation (SessionManager.pending_action p) = true
  | None => True
  end.

(** From [j] to [j']: the mode is kept or has become manual, no alarm
    thread was started, the handler calls added are harmless, and a
    pending confirmation is the old one or one for a sensitive action. *)
Record steady (j j' : t) : Prop := mkSteady {
  steady_mode :
    current_mode j' = current_mode j \/ current_mode j' = Config.MODE_MANUAL;
  steady_alarms :
    SessionManager.alarm_threads (session j') = SessionManager.alarm_threads (session j);
  steady_handled :
    exists l, handled j' = handled j ++ l /\ forallb harmless l = true;
  steady_pending :
    forall p, SessionManager.pending_confirmation (session j') = Some p ->
      SessionManager.pending_confirmation (session j) = Some p
      \/ SessionManager.needs_confirmation (SessionManager.pending_action p) = true
}.

(** From [j] to [j']: if the engine was muted it still is, and nothing was
    said. *)
Definition hushed (j j' : t) : Prop :=
  SpeechEngine.is_muted (speech j) = true ->
  SpeechEngine.is_muted (speech j') = true
  /\ SpeechEngine.spoken (speech j') = SpeechEngine.spoken (speech j).

(** What is said when the answer to a confirmation was not heard. *)
Definition unheard : str := "I didn't hear you. Please say yes or no.".

(** *** Speech *)

(** A failure of the recogniser after which [listen] tries again. *)
Definition soft (h : SpeechEngine.heard) : bool :=
  match h with
  | SpeechEngine.WaitTimeoutError | SpeechEngine.UnknownValueError => true
  | _ => false
  end.

(** [n] times the same adjustment. *)
Definition adjust_times (n : nat) (a : value) (e : SpeechEngine.t) : SpeechEngine.t :=
  Nat.iter n (SpeechEngine.adjust_volume a) e.

(** *** The history file *)

(** No line break: neither a line feed nor a carriage return. *)
Definition line_free (s : str) : bool :=
  forallb (fun c => negb (Logger.is_lf c || Logger.is_cr c)) s.

(** The lines of the history file, as [readlines] gives them. *)
Definition lines (f : Logger.file) : list str :=
  match f with
  | Some content => Logger.readlines (Logger.read content)
  | None => []
  end.

(** The file is missing, empty, or ends with a line break. *)
Definition complete (f : Logger.file) : Prop :=
  match f with
  | Some content =>
      Logger.read content = [] \/ last (Logger.read content) = Some "010"%char
  | None => True
  end.

(** One [log_command] call: the timestamp, the command and the mode. *)
Definition log_call : Type := str * str * str.

Definition entry_of (c : log_call) : option str :=
  let '(timestamp, command, mode) := c in Logger.log_entry timestamp command mode.

(** The three texts hold no line break and the mode has an upper-case
    form within the model. *)
Definition loggable (c : log_call) : bool :=
  let '(timestamp, command, mode) := c in
  line_free timestamp && line_free command && line_free mode
  && bool_decide (is_Some (Py.upper mode)).

(** Successive [log_command] calls, none of which fails to open the file. *)
Fixpoint log_all (linesep : str) (calls : list log_call) (f : Logger.file)
  : option Logger.file :=
  match calls with
  | [] => Some f
  | (timestamp, command, mode) :: calls' =>
      f' ← Logger.log_command linesep timestamp command mode false f;
      log_all linesep calls' f'
  end.

(** The two values of [os.linesep]. *)
Definition lineseps : list str :=
  [ ["010"%char]; ["013"%char; "010"%char] ].

(** *** Applications *)

(** The external calls [open_application] can make. *)
Definition safe_calls : list SystemFunctions.effect :=
  [ SystemFunctions.os_system "notepad.exe"; SystemFunctions.os_system "calc.exe";
    SystemFunctions.os_system "chrome"; SystemFunctions.os_system "chrome.exe";
    SystemFunctions.os_system "firefox";
    SystemFunctions.webbrowser_open "https://www.google.com" ].

(** The keys of [safe_apps]. *)
Definition safe_names : list str :=
  ["notepad" : str; "calculator" : str; "browser" : str; "chrome" : str;
   "firefox" : str].

(** *** Patterns *)

(** The pattern [\bw\b] of a literal [w]. *)
Definition whole (w : string) : Re.regex :=
  Re.seqs [Re.WordB; CommandProcessor.word w; Re.WordB].

(** [w] stands at position [i] of [s] between two word boundaries. *)
Definition stands (s : str) (w : str) (i : nat) : bool :=
  Re.boundary s i && Py.startswith (drop i s) w && Re.boundary s (i + length w).

(** *** Utterances *)

(** An utterance the recogniser understands at the first attempt. *)
Definition said (text : str) : Input :=
  mkInput (fun _ => SpeechEngine.Recognized text) (Ok []).

(** What the controller answers to a command it does not know. *)
Definition not_understood : str :=
  "I didn't understand that command. Say 'help' for available commands.".

End Props.
(** * Properties *)

(** ** Session state: bounded history and the pending slot *)
Section SessionFacts.
Import SessionManager.

Lemma deque_append_maxlen {A} (d : deque A) (x : A) :
  maxlen (deque_append d x) = maxlen d.
Proof. reflexivity. Qed.

Lemma deque_append_items {A} (d : deque A) (x : A) :
  length (items d) <= maxlen d ->
  items (deque_append d x)
  = drop (length (items d ++ [x]) - maxlen d) (items d ++ [x]).
Proof.
  intros Hle. unfold deque_append. cbn [items maxlen].
  rewrite length_app. cbn [length].
  destruct (Nat.ltb_spec (maxlen d) (length (items d) + 1)) as [Hlt | Hge].
  - replace (length (items d) + 1 - maxlen d) with 1 by lia. reflexivity.
  - replace (length (items d) + 1 - maxlen d) with 0 by lia. reflexivity.
Qed.

Lemma deque_append_bounded {A} (d : deque A) (x : A) :
  length (items d) <= maxlen d ->
  length (items (deque_append d x)) <= maxlen d.
Proof.
  intros Hle. rewrite deque_append_items by assumption.
  rewrite length_drop, length_app. cbn [length]. lia.
Qed.

(** Appending a whole list keeps the last [maxlen] items, in order. *)
Lemma deque_append_all {A} (xs : list A) : forall d : deque A,
  length (items d) <= maxlen d ->
  let d' := fold_left deque_append xs d in
  maxlen d' = maxlen d
  /\ items d' = drop (length (items d ++ xs) - maxlen d) (items d ++ xs).
Proof.
  induction xs as [| x xs IH]; intros d Hle; cbn [fold_left].
  - split; [reflexivity |].
    rewrite app_nil_r. replace (length (items d) - maxlen d) with 0 by lia.
    reflexivity.
  - destruct (IH (deque_append d x)) as [Hm Hi].
    { rewrite deque_append_maxlen. by apply deque_append_bounded. }
    cbn zeta in *. rewrite Hm, Hi, deque_append_maxlen. split; [reflexivity |].
    rewrite deque_append_items by assumption.
    replace (items d ++ x :: xs) with ((items d ++ [x]) ++ xs)
      by (rewrite <- app_assoc; reflexivity).
    assert (Hl : length (items d ++ [x]) = length (items d) + 1)
      by (rewrite length_app; reflexivity).
    set (l := items d ++ [x]) in *.
    destruct (Nat.le_gt_cases (length l) (maxlen d)) as [Hs | Hg].
    + replace (length l - maxlen d) with 0 by lia. reflexivity.
    + replace (length l - maxlen d) with 1 by lia.
      rewrite <- drop_app_le by lia. rewrite drop_drop. f_equal.
      repeat (rewrite length_drop || rewrite length_app). lia.
Qed.

Lemma add_all_history (cmds : list (Command * nat)) (s : t) :
  command_history (Spec.add_all cmds s)
  = fold_left deque_append (Spec.entries cmds) (command_history s).
Proof.
  revert s. induction cmds as [| [c n] cmds IH]; intros s; [reflexivity |].
  cbn [Spec.add_all Spec.entries fold_left map fst snd].
  apply (IH (add_to_history n c s)).
Qed.

(** C6.  The command history is a FIFO buffer bounded by [MEMORY_SIZE]
    (which is 3): after any sequence of [add_to_history] calls on a fresh
    session the history holds at most [MEMORY_SIZE] entries, namely the
    last [MEMORY_SIZE] commands added, oldest first; in particular after
    [MEMORY_SIZE + 2] insertions the two oldest commands are gone and the
    last three remain in insertion order. *)
Theorem history_bounded_fifo :
  Config.MEMORY_SIZE = 3
  /\ (forall cmds : list (Command * nat),
        let h := command_history (Spec.add_all cmds __init__) in
        length (items h) <= Config.MEMORY_SIZE
        /\ items h = drop (length cmds - Config.MEMORY_SIZE) (Spec.entries cmds))
  /\ (forall e1 e2 e3 e4 e5 : Command * nat,
        items (command_history (Spec.add_all [e1; e2; e3; e4; e5] __init__))
        = Spec.entries [e3; e4; e5]).
Proof.
  split; [reflexivity |]. split.
  - intros cmds h. subst h. rewrite add_all_history.
    destruct (deque_append_all (Spec.entries cmds) (command_history __init__))
      as [Hm Hi]; [cbn; lia |].
    cbn zeta in Hi. rewrite Hi. cbn [__init__ command_history items maxlen app].
    assert (Hlen : length (Spec.entries cmds) = length cmds)
      by (unfold Spec.entries; apply length_map).
    rewrite length_drop, Hlen. split; [lia | reflexivity].
  - intros. reflexivity.
Qed.

(** C7.  [confirm_action] reads and clears the pending slot in one step:
    with a confirmation pending it returns the command made of the pending
    action and params and leaves a session whose slot is empty and whose
    other fields are untouched; with none pending it returns [None] and the
    session unchanged. *)
Theorem confirm_action_reads_and_clears (s : t) :
  match pending_confirmation s with
  | Some p =>
      fst (confirm_action s) = Some (mkCommand (pending_action p) (pending_params p))
      /\ pending_confirmation (snd (confirm_action s)) = None
      /\ command_history (snd (confirm_action s)) = command_history s
      /\ alarm_threads (snd (confirm_action s)) = alarm_threads s
  | None => confirm_action s = (None, s)
  end.
Proof.
  unfold confirm_action. destruct (pending_confirmation s) as [p |]; cbn; auto.
Qed.

End SessionFacts.

(** ** Speech engine: volume control *)
Section VolumeFacts.
Import PyFloat Config SpeechEngine.

Lemma sf_eqb_eq (a b : spec_float) : Spec.sf_eqb a b = true -> a = b.
Proof.
  destruct a as [s | s | | s m e], b as [s' | s' | | s' m' e']; cbn; try discriminate.
  - intros H. apply Bool.eqb_prop in H. congruence.
  - intros H. apply Bool.eqb_prop in H. congruence.
  - reflexivity.
  - intros H. apply andb_prop in H as [H He]. apply andb_prop in H as [Hs Hm].
    apply Bool.eqb_prop in Hs. apply Pos.eqb_eq in Hm. apply Z.eqb_eq in He.
    congruence.
Qed.

(** Case analysis over the twelve volumes. *)
Lemma is_volume_cases (P : spec_float -> Prop) (v : spec_float) :
  Forall P Spec.volumes -> Spec.is_volume v = true -> P v.
Proof.
  intros HP Hv. unfold Spec.is_volume in Hv.
  apply existsb_exists in Hv as (w & Hin & Heq).
  apply sf_eqb_eq in Heq. subst w.
  rewrite Forall_forall in HP. apply HP. by apply list_elem_of_In.
Qed.

Lemma volumes_in_range (v : spec_float) :
  Spec.is_volume v = true -> Spec.in_volume_range v = true.
Proof.
  apply (is_volume_cases (fun v => Spec.in_volume_range v = true)).
  repeat constructor.
Qed.

Lemma volumes_closed_louder (v : spec_float) :
  Spec.is_volume v = true -> Spec.is_volume (py_min f1_0 (fadd v f0_2)) = true.
Proof.
  apply (is_volume_cases (fun v => Spec.is_volume (py_min f1_0 (fadd v f0_2)) = true)).
  repeat constructor.
Qed.

Lemma volumes_closed_softer (v : spec_float) :
  Spec.is_volume v = true -> Spec.is_volume (py_max f0_2 (fsub v f0_2)) = true.
Proof.
  apply (is_volume_cases (fun v => Spec.is_volume (py_max f0_2 (fsub v f0_2)) = true)).
  repeat constructor.
Qed.

Lemma apply_current_style_inv (e : t) (v : spec_float) :
  Spec.engine_inv e -> Spec.is_volume v = true ->
  Spec.engine_inv (_apply_voice_style (current_voice_style e) (with_base_volume v e)).
Proof.
  intros (_ & st & Hst & _ & _) Hv. unfold _apply_voice_style.
  cbn [with_base_volume current_voice_style]. rewrite Hst.
  split; [exact Hv | exists st]; cbn; auto.
Qed.

Lemma adjust_volume_inv (a : value) (e : t) :
  Spec.engine_inv e -> Spec.engine_inv (adjust_volume a e).
Proof.
  intros Hinv. unfold adjust_volume. destruct Hinv as (Hv & Hst).
  repeat case_bool_decide.
  - apply (apply_current_style_inv e); [by split |].
    by apply volumes_closed_louder.
  - apply (apply_current_style_inv e); [by split |].
    by apply volumes_closed_softer.
  - split; [exact Hv | exact Hst].
  - by split.
Qed.

Lemma reachable_inv (e : t) : Spec.reachable e -> Spec.engine_inv e.
Proof.
  induction 1 as [| a e _ IH | st e _ IH | text e _ IH].
  - split; [reflexivity |]. eexists. cbn. repeat split; reflexivity.
  - by apply adjust_volume_inv.
  - unfold change_voice_style, _apply_voice_style.
    destruct (style_settings st) as [s |] eqn:Hs; [| exact IH].
    destruct IH as (Hv & _). split; [exact Hv |]. exists s. cbn. auto.
  - unfold speak. destruct (_ && _); exact IH.
Qed.

(** C10.  [base_volume] starts at 0.9 and, in every state the engine can
    reach, lies within [0.2, 1.0], before and after any [adjust_volume]
    call.  ['louder'] sets it to [min(1.0, base_volume + 0.2)] and
    ['softer'] to [max(0.2, base_volume - 0.2)], and both reapply the
    current voice style (rate and volume of the TTS engine recomputed from
    the new base volume).  ['mute'] flips [is_muted] and leaves everything
    else, [base_volume] included, as it was.  Any other adjustment,
    [None] included, changes nothing. *)
Theorem volume_control (e : t) :
  Spec.reachable e ->
  base_volume __init__ = f0_9
  /\ Spec.in_volume_range (base_volume e) = true
  /\ (forall a, Spec.in_volume_range (base_volume (adjust_volume a e)) = true)
  /\ (let e' := adjust_volume (VStr "louder") e in
      base_volume e' = py_min f1_0 (fadd (base_volume e) f0_2)
      /\ is_muted e' = is_muted e
      /\ current_voice_style e' = current_voice_style e
      /\ exists st, style_settings (current_voice_style e) = Some st
                    /\ tts_rate e' = Some (rate st)
                    /\ tts_volume e' = Some (fmul (volume st) (base_volume e')))
  /\ (let e' := adjust_volume (VStr "softer") e in
      base_volume e' = py_max f0_2 (fsub (base_volume e) f0_2)
      /\ is_muted e' = is_muted e
      /\ current_voice_style e' = current_voice_style e
      /\ exists st, style_settings (current_voice_style e) = Some st
                    /\ tts_rate e' = Some (rate st)
                    /\ tts_volume e' = Some (fmul (volume st) (base_volume e')))
  /\ adjust_volume (VStr "mute") e
     = mkSpeech (negb (is_muted e)) (base_volume e) (current_voice_style e)
                (tts_rate e) (tts_volume e) (spoken e)
  /\ (forall a, a <> VStr "louder" -> a <> VStr "softer" -> a <> VStr "mute" ->
                adjust_volume a e = e)
  /\ adjust_volume VNone e = e.
Proof.
  intros Hr. pose proof (reachable_inv e Hr) as Hinv.
  destruct Hinv as (Hv & st & Hst & Hrate & Hvol).
  split; [reflexivity |]. split; [by apply volumes_in_range |]. split.
  { intros a. apply volumes_in_range.
    apply (adjust_volume_inv a e). split; [exact Hv | by exists st]. }
  split; [| split; [| split; [| split]]].
  - unfold adjust_volume. rewrite bool_decide_eq_true_2 by reflexivity.
    unfold _apply_voice_style. cbn [with_base_volume current_voice_style].
    rewrite Hst. cbn. repeat split; try reflexivity. by exists st.
  - unfold adjust_volume. rewrite bool_decide_eq_false_2 by discriminate.
    rewrite bool_decide_eq_true_2 by reflexivity.
    unfold _apply_voice_style. cbn [with_base_volume current_voice_style].
    rewrite Hst. cbn. repeat split; try reflexivity. by exists st.
  - reflexivity.
  - intros a H1 H2 H3. unfold adjust_volume.
    by rewrite !bool_decide_eq_false_2.
  - reflexivity.
Qed.

Lemma volume_control_witness :
  Spec.reachable __init__
  /\ Spec.in_volume_range
       (base_volume (adjust_volume (VStr "softer") __init__)) = true.
Proof.
  split; [constructor |].
  apply (volume_control __init__ Spec.reach_init).
Defined.

End VolumeFacts.

(** ** Dialogue controller *)
Section ControllerFacts.
Import Jarvis.

(** *** Speech errors *)

Lemma listen_failure_kinds (mic : nat -> SpeechEngine.heard) :
  fst (fst (SpeechEngine.listen mic)) = false ->
  exists err, snd (SpeechEngine.listen mic) = Some err /\ Spec.error_kind err.
Proof.
  assert (Hn : forall e : str, Spec.error_kind ("network_error: " ++ e))
    by constructor.
  assert (He : forall e : str, Spec.error_kind ("error: " ++ e)) by constructor.
  assert (Ht : Spec.error_kind "timeout") by constructor.
  assert (Hu : Spec.error_kind "unknown") by constructor.
  unfold SpeechEngine.listen. cbn -[app list_ascii_of_string].
  destruct (mic 0); cbn -[app list_ascii_of_string]; try discriminate; eauto;
    destruct (mic 1); cbn -[app list_ascii_of_string]; try discriminate; eauto;
    destruct (mic 2); cbn -[app list_ascii_of_string]; try discriminate; eauto.
Qed.

Lemma handle_speech_error_spec (err : str) (j : t) :
  exists j',
    _handle_speech_error (Some err) j = (Ok tt, j')
    /\ is_running j' = is_running j
    /\ session j' = session j
    /\ handled j' = handled j
    /\ current_mode j'
       = if Spec.switches_to_manual err then Config.MODE_MANUAL else current_mode j.
Proof.
  unfold _handle_speech_error, Spec.switches_to_manual.
  destruct (decide (err = "timeout")) as [-> | Ht].
  { eexists. split; [reflexivity |]. cbn. auto. }
  destruct (decide (err = "unknown")) as [-> | Hu].
  { eexists. split; [reflexivity |]. cbn. auto. }
  rewrite (bool_decide_eq_false_2 (Some err = Some _)) by congruence.
  rewrite (bool_decide_eq_false_2 (Some err = Some _)) by congruence.
  rewrite (bool_decide_eq_false_2 (err = "timeout")) by assumption.
  rewrite (bool_decide_eq_false_2 (err = "unknown")) by assumption.
  cbn [orb].
  destruct (Py.contains "network_error" err).
  { eexists. split; [reflexivity |]. cbn. auto. }
  case_bool_decide.
  - eexists. split; [reflexivity |]. cbn. auto.
  - eexists. split; [reflexivity |]. cbn. auto.
Qed.

Lemma generic_error_contains (detail : str) :
  Spec.switches_to_manual ("error: " ++ detail) = Py.contains "network_error" detail.
Proof.
  unfold Spec.switches_to_manual.
  rewrite !bool_decide_eq_false_2 by discriminate.
  unfold Py.contains. cbn. destruct (Py.find _ detail); reflexivity.
Qed.

(** C9, counterexample.  When the recogniser fails with an exception
    other than a timeout, an unknown value or a request error, [listen]
    reports ["error: <detail>"] and [_handle_speech_error] leaves the
    session in voice mode. *)
Lemma generic_speech_error_keeps_voice_mode :
  let mic := fun _ : nat => SpeechEngine.OtherException "device unavailable" in
  let j := __init__ (fun _ => []) 0 in
  SpeechEngine.listen mic = (false, None, Some ("error: device unavailable" : str))
  /\ current_mode j = Config.MODE_VOICE
  /\ current_mode (snd (_handle_speech_error (snd (SpeechEngine.listen mic)) j))
     = Config.MODE_VOICE
  /\ Config.MODE_VOICE <> Config.MODE_MANUAL.
Proof. repeat split; discriminate. Qed.

(** C9, amended.  Whatever the recogniser does, a failed [listen]
    reports one of the error kinds timeout, unknown, network_error:
    <detail>, max_retries, error: <detail>.  The handler then returns
    normally, without raising and without touching the run flag, the
    session or the handlers; it switches to manual mode exactly for
    timeout, unknown, max_retries and errors whose text contains
    network_error (every network_error: <detail>), and leaves the mode as
    it is for every other error: <detail>. *)
Theorem speech_error_fallback (mic : nat -> SpeechEngine.heard) (j : t) :
  fst (fst (SpeechEngine.listen mic)) = false ->
  exists err j',
    snd (SpeechEngine.listen mic) = Some err
    /\ Spec.error_kind err
    /\ _handle_speech_error (Some err) j = (Ok tt, j')
    /\ is_running j' = is_running j
    /\ session j' = session j
    /\ current_mode j'
       = (if Spec.switches_to_manual err then Config.MODE_MANUAL else current_mode j)
    /\ Spec.switches_to_manual "timeout" = true
    /\ Spec.switches_to_manual "unknown" = true
    /\ Spec.switches_to_manual "max_retries" = true
    /\ (forall detail, Spec.switches_to_manual ("network_error: " ++ detail) = true)
    /\ (forall detail, Spec.switches_to_manual ("error: " ++ detail)
                       = Py.contains "network_error" detail).
Proof.
  intros Hfail.
  destruct (listen_failure_kinds mic Hfail) as (err & Herr & Hkind).
  destruct (handle_speech_error_spec err j) as (j' & Hrun & Hr & Hs & _ & Hm).
  exists err, j'. do 6 (split; [assumption |]).
  do 3 (split; [reflexivity |]). split; [reflexivity |].
  apply generic_error_contains.
Qed.

Lemma speech_error_fallback_witness :
  let mic := fun _ : nat => SpeechEngine.WaitTimeoutError in
  fst (fst (SpeechEngine.listen mic)) = false
  /\ exists err j',
       snd (SpeechEngine.listen mic) = Some err
       /\ _handle_speech_error (Some err) (__init__ (fun _ => []) 0) = (Ok tt, j')
       /\ current_mode j'
          = (if Spec.switches_to_manual err then Config.MODE_MANUAL
             else Config.MODE_VOICE).
Proof.
  split; [reflexivity |].
  destruct (speech_error_fallback (fun _ => SpeechEngine.WaitTimeoutError)
              (__init__ (fun _ => []) 0) eq_refl)
    as (err & j' & H1 & _ & H2 & _ & _ & H3 & _).
  exists err, j'. auto.
Defined.

(** *** Confirmation gating, repeat and undo *)

Lemma get_last_command_spec (s : SessionManager.t) :
  SessionManager.get_last_command s
  = Ok (SessionManager.command
          <$> Spec.from_end (SessionManager.items (SessionManager.command_history s)) 1).
Proof.
  unfold SessionManager.get_last_command, SessionManager.deque_from_end, Spec.from_end.
  destruct (SessionManager.items (SessionManager.command_history s)) as [| e l] eqn:Hl;
    [reflexivity |].
  cbn [length Nat.leb andb]. unfold Py.index.
  destruct (lookup_lt_is_Some_2 (e :: l) (length (e :: l) - 1)) as [x Hx];
    [cbn; lia |].
  cbn [length] in Hx |- *. rewrite Hx. reflexivity.
Qed.

Lemma get_previous_command_spec (s : SessionManager.t) :
  SessionManager.get_previous_command 2 s
  = Ok (SessionManager.command
          <$> Spec.from_end (SessionManager.items (SessionManager.command_history s)) 2).
Proof.
  unfold SessionManager.get_previous_command, SessionManager.deque_from_end, Spec.from_end.
  change (1 <=? 2) with true. cbn [andb].
  destruct (Nat.leb_spec 2 (length (SessionManager.items (SessionManager.command_history s))))
    as [Hle | Hgt]; [| reflexivity].
  unfold Py.index.
  destruct (lookup_lt_is_Some_2
              (SessionManager.items (SessionManager.command_history s))
              (length (SessionManager.items (SessionManager.command_history s)) - 2))
    as [x Hx]; [lia |].
  rewrite Hx. reflexivity.
Qed.

Lemma handle_repeat_repeat (d : nat) (j : t) :
  _handle_repeat d {["type" := VStr "repeat"]} j
  = match Spec.from_end (SessionManager.items
                           (SessionManager.command_history (session j))) 1 with
    | Some e => (speak "Repeating last command";;
                 _execute_command d (SessionManager.command e)) j
    | None => speak "No previous command to repeat" j
    end.
Proof.
  unfold _handle_repeat, _handle_repeat_with.
  change (getitem {["type" := VStr "repeat"]} "type") with (ret (VStr "repeat")).
  cbv [mbind M_bind bind ret gets lift].
  rewrite bool_decide_eq_true_2 by reflexivity.
  rewrite get_last_command_spec.
  destruct (Spec.from_end _ 1); reflexivity.
Qed.

Lemma handle_repeat_undo (d : nat) (j : t) :
  _handle_repeat d {["type" := VStr "undo"]} j
  = match Spec.from_end (SessionManager.items
                           (SessionManager.command_history (session j))) 2 with
    | Some e => (speak "Executing previous command";;
                 _execute_command d (SessionManager.command e)) j
    | None => speak "No previous command found" j
    end.
Proof.
  unfold _handle_repeat, _handle_repeat_with.
  change (getitem {["type" := VStr "undo"]} "type") with (ret (VStr "undo")).
  cbv [mbind M_bind bind ret gets lift].
  rewrite bool_decide_eq_false_2 by discriminate.
  rewrite bool_decide_eq_true_2 by reflexivity.
  rewrite get_previous_command_spec.
  destruct (Spec.from_end _ 2); reflexivity.
Qed.

(** A dispatched [open_app] command meets the gate: with no confirmation
    pending it is stored as pending and no handler is called. *)
Lemma execute_open_app_gated (d : nat) (j : t) (p : gmap string value) (app : value) :
  SessionManager.pending_confirmation (session j) = None ->
  p !! "app" = Some app ->
  exists j',
    _execute_command (S d) (mkCommand "open_app" p) j = (Ok tt, j')
    /\ handled j' = handled j
    /\ SessionManager.pending_confirmation (session j')
       = Some (SessionManager.mkPending "open_app" p
                 ("Do you want me to open " ++ fmt app ++ "? Say yes or no.")).
Proof.
  intros Hp Happ. cbn [_execute_command action params].
  change (SessionManager.needs_confirmation "open_app") with true.
  unfold _request_confirmation. cbn [action params].
  change (is_action "open_app" "open_app") with true. cbv iota.
  unfold getitem. rewrite Happ.
  cbv [mbind M_bind bind ret gets now set_session modify speak
       SessionManager.get_pending_confirmation].
  cbn [session SessionManager.add_to_history SessionManager.with_history
       SessionManager.pending_confirmation].
  rewrite Hp.
  rewrite (bool_decide_eq_false_2 (is_Some None)) by (intros [? ?]; discriminate).
  cbn [andb negb].
  eexists. split; [reflexivity |]. cbn. split; reflexivity.
Qed.

(** C1, the defect.  Dispatching the command resolved from "open notepad"
    stores one pending confirmation and calls no handler, and a negative
    answer clears the slot and calls no handler.  But after the affirmative
    answer "yes" the handler is still not called: [confirm_action] has
    emptied the slot, so [_execute_command] finds the action sensitive and
    nothing pending, and asks for the confirmation again. *)
Theorem confirmed_open_app_is_gated_again (functions : Call -> str) (clock d : nat) :
  let j0 := __init__ functions clock in
  let yes := mkInput (fun _ => SpeechEngine.Recognized "Yes") (Ok []) in
  let no := mkInput (fun _ => SpeechEngine.Recognized "No") (Ok []) in
  let cmd := mkCommand "open_app" {["app" := VStr "notepad"]} in
  let prompt : str := "Do you want me to open notepad? Say yes or no." in
  let pending := Some (SessionManager.mkPending "open_app" (params cmd) prompt) in
  exists j1 j2 j3,
    CommandProcessor.process (Some ("open notepad" : str)) = Ok cmd
    /\ _execute_command (S d) cmd j0 = (Ok tt, j1)
    /\ SessionManager.pending_confirmation (session j1) = pending
    /\ handled j1 = []
    /\ _handle_pending_confirmation (S d) no j1 = (Ok tt, j2)
    /\ SessionManager.pending_confirmation (session j2) = None
    /\ handled j2 = []
    /\ _handle_pending_confirmation (S d) yes j1 = (Ok tt, j3)
    /\ SessionManager.pending_confirmation (session j3) = pending
    /\ handled j3 = []
    /\ SpeechEngine.spoken (speech j3) = [prompt; "Confirmed" : str; prompt].
Proof.
  intros. do 3 eexists.
  split; [vm_compute; reflexivity |].
  split; [vm_compute; reflexivity |].
  split; [vm_compute; reflexivity |].
  split; [reflexivity |].
  split; [vm_compute; reflexivity |].
  split; [reflexivity |].
  split; [reflexivity |].
  split; [vm_compute; reflexivity |].
  split; [vm_compute; reflexivity |].
  split; reflexivity.
Qed.

(** A sensitive command can also fail at the gate: the reminder resolved
    from a bare duration has no [message], which [_request_confirmation]
    reads, so the dispatch raises [KeyError] and stores nothing. *)
Lemma duration_reminder_gate_raises (functions : Call -> str) (clock d : nat) :
  let j0 := __init__ functions clock in
  let cmd := mkCommand "reminder" (<["unit" := VStr "minute"]> {["value" := VInt 10]}) in
  CommandProcessor.process (Some ("remind me 10 minutes" : str)) = Ok cmd
  /\ fst (_execute_command (S d) cmd j0) = Raise (KeyError "message")
  /\ SessionManager.pending_confirmation (session (snd (_execute_command (S d) cmd j0)))
     = None
  /\ handled (snd (_execute_command (S d) cmd j0)) = [].
Proof. intros. repeat split; vm_compute; reflexivity. Qed.

Lemma from_end_snoc {A} (l : list A) (x : A) : Spec.from_end (l ++ [x]) 1 = Some x.
Proof.
  unfold Spec.from_end. rewrite length_app. cbn [length].
  replace (1 <=? length l + 1) with true by (symmetry; apply Nat.leb_le; lia).
  cbn [Nat.leb andb]. replace (length l + 1 - 1) with (length l + 0) by lia.
  rewrite lookup_app_r by lia. replace (length l + 0 - length l) with 0 by lia.
  reflexivity.
Qed.

Lemma deque_append_last {A} (dq : SessionManager.deque A) (x : A) :
  0 < SessionManager.maxlen dq ->
  Spec.from_end (SessionManager.items (SessionManager.deque_append dq x)) 1 = Some x.
Proof.
  intros Hmax. unfold SessionManager.deque_append. cbn [SessionManager.items].
  rewrite length_app. cbn [length].
  destruct (Nat.ltb_spec (SessionManager.maxlen dq)
              (length (SessionManager.items dq) + 1)) as [Hlt | Hge].
  - destruct (SessionManager.items dq) as [| y l]; [cbn in Hlt; lia |].
    cbn [app drop]. rewrite drop_0. apply from_end_snoc.
  - apply from_end_snoc.
Qed.

(** The repeat dispatch finds itself: [_execute_command] appends the
    command to the history before dispatching, so the most recent entry is
    the repeat command, and the recursion only ends in a [RecursionError]. *)
Lemma repeat_dispatch_recursion (d : nat) : forall j : t,
  0 < SessionManager.maxlen (SessionManager.command_history (session j)) ->
  fst (_execute_command d (mkCommand "repeat" {["type" := VStr "repeat"]}) j)
  = Raise RecursionError.
Proof.
  induction d as [| d IH]; intros j Hmax; [reflexivity |].
  cbn [_execute_command action params].
  change (SessionManager.needs_confirmation "repeat") with false.
  cbn [andb]. cbv [is_action]. cbn [String.eqb Ascii.eqb Bool.eqb].
  change (_handle_repeat_with (_execute_command d)) with (_handle_repeat d).
  cbv [mbind M_bind bind gets now set_session modify].
  rewrite handle_repeat_repeat.
  cbn [session SessionManager.add_to_history SessionManager.with_history
       SessionManager.command_history].
  rewrite deque_append_last by assumption.
  cbv [mbind M_bind bind speak set_speech modify]. cbn [SessionManager.command].
  apply IH. exact Hmax.
Qed.

End ControllerFacts.

(** ** The resolver: priority order *)
Section ResolverFacts.
Import CommandProcessor.

(** The pattern loop returns at the first intent, in catalog order, one
    of whose patterns matches. *)
Lemma pattern_loop_find (defs : list (string * IntentSpec)) (text raw : str) :
  pattern_loop defs text raw
  = (fun d => command_for (fst d) text raw) <$> List.find (Spec.pattern_matches text) defs.
Proof.
  induction defs as [| [intent spec] defs IH]; [reflexivity |].
  cbn [pattern_loop List.find]. unfold Spec.pattern_matches at 1. cbn [snd fst].
  rewrite IH. clear IH.
  induction (patterns spec) as [| pat pats IHp]; [reflexivity |].
  cbn [existsb]. destruct (Re.search text pat) as [mo |]; [reflexivity |].
  rewrite (bool_decide_eq_false_2 (is_Some None)) by (intros [? ?]; discriminate).
  exact IHp.
Qed.

(** The head of the sorted scores is the first entry of maximal score. *)
Lemma head_insert_desc (x : string * Q) (l : list (string * Q)) :
  head (insert_desc x l)
  = match head l with
    | Some y => if score_lt x y then Some y else Some x
    | None => Some x
    end.
Proof. destruct l as [| y l]; [reflexivity |]. cbn. by destruct (score_lt x y). Qed.

Lemma head_sort_desc (l : list (string * Q)) :
  head (sort_desc l) = Spec.first_max snd l.
Proof.
  induction l as [| x l IH]; [reflexivity |].
  cbn [sort_desc Spec.first_max]. rewrite head_insert_desc, IH.
  destruct (Spec.first_max snd l) as [y |]; [| reflexivity].
  unfold score_lt. by destruct (Qle_bool (snd y) (snd x)).
Qed.

(** [sort_desc] is the stable sort by decreasing score: its result is a
    permutation of the input, in decreasing order of score, and entries of
    equal score keep the order they had. *)
Lemma insert_desc_perm (x : string * Q) (l : list (string * Q)) :
  Permutation (insert_desc x l) (x :: l).
Proof.
  induction l as [| y l IH]; cbn [insert_desc]; [reflexivity |].
  destruct (score_lt x y); [| reflexivity].
  rewrite IH. apply perm_swap.
Qed.

Lemma sort_desc_perm (l : list (string * Q)) : Permutation (sort_desc l) l.
Proof.
  induction l as [| x l IH]; cbn [sort_desc]; [reflexivity |].
  rewrite insert_desc_perm. by constructor.
Qed.

Lemma score_lt_false (x y : string * Q) : score_lt x y = false -> (snd y <= snd x)%Q.
Proof.
  unfold score_lt. intros H. apply negb_false_iff in H. by apply Qle_bool_iff.
Qed.

Lemma score_lt_true (x y : string * Q) : score_lt x y = true -> (snd x < snd y)%Q.
Proof.
  unfold score_lt. intros H. apply negb_true_iff in H.
  apply Qnot_le_lt. intros Hle. apply Qle_bool_iff in Hle. congruence.
Qed.

Lemma insert_desc_sorted (x : string * Q) (l : list (string * Q)) :
  Sorted (fun a b => (snd b <= snd a)%Q) l ->
  Sorted (fun a b => (snd b <= snd a)%Q) (insert_desc x l).
Proof.
  induction 1 as [| y l Hs IH Hhd]; cbn [insert_desc].
  - repeat constructor.
  - destruct (score_lt x y) eqn:Hxy.
    + constructor; [exact IH |].
      destruct l as [| z l]; cbn [insert_desc].
      * constructor. apply Qlt_le_weak. by apply score_lt_true.
      * destruct (score_lt x z); constructor.
        -- by inversion Hhd.
        -- apply Qlt_le_weak. by apply score_lt_true.
    + constructor; [by constructor |]. constructor. by apply score_lt_false.
Qed.

Lemma sort_desc_sorted (l : list (string * Q)) :
  Sorted (fun a b => (snd b <= snd a)%Q) (sort_desc l).
Proof.
  induction l as [| x l IH]; cbn [sort_desc]; [constructor |].
  by apply insert_desc_sorted.
Qed.

Lemma insert_desc_stable (q : Q) (x : string * Q) (l : list (string * Q)) :
  List.filter (fun y => Qeq_bool (snd y) q) (insert_desc x l)
  = List.filter (fun y => Qeq_bool (snd y) q) (x :: l).
Proof.
  induction l as [| y l IH]; cbn [insert_desc]; [reflexivity |].
  destruct (score_lt x y) eqn:Hxy; [| reflexivity].
  cbn [List.filter] in *. rewrite IH.
  destruct (Qeq_bool (snd x) q) eqn:Hx; [| reflexivity].
  destruct (Qeq_bool (snd y) q) eqn:Hy; [| reflexivity].
  apply score_lt_true in Hxy. apply Qeq_bool_iff in Hx, Hy.
  rewrite Hx, Hy in Hxy. by apply Qlt_irrefl in Hxy.
Qed.

Lemma sort_desc_stable (q : Q) (l : list (string * Q)) :
  List.filter (fun y => Qeq_bool (snd y) q) (sort_desc l)
  = List.filter (fun y => Qeq_bool (snd y) q) l.
Proof.
  induction l as [| x l IH]; cbn [sort_desc]; [reflexivity |].
  rewrite insert_desc_stable. cbn [List.filter]. by rewrite IH.
Qed.

Lemma first_max_map {X Y} (g : X -> Y) (f : Y -> Q) (l : list X) :
  Spec.first_max f (map g l) = g <$> Spec.first_max (fun x => f (g x)) l.
Proof.
  induction l as [| x l IH]; [reflexivity |].
  cbn [map Spec.first_max]. rewrite IH.
  destruct (Spec.first_max _ l) as [y |]; [| reflexivity].
  cbn. by destruct (Qle_bool _ _).
Qed.

Lemma index_0_head {A} (l : list A) :
  Py.index l 0 = match head l with Some x => Ok x | None => Raise IndexError end.
Proof. by destruct l. Qed.

(** The fallback loop returns at the first intent whose first two keywords
    are all among the tokens. *)
Lemma fallback_loop_find (defs : list (string * IntentSpec)) (tokens : list str)
    (text raw : str) :
  fallback_loop defs tokens text raw
  = (fun d => command_for (fst d) text raw)
      <$> List.find (Spec.required_present tokens) defs.
Proof.
  induction defs as [| [intent spec] defs IH]; [reflexivity |].
  cbn [fallback_loop List.find]. unfold Spec.required_present at 1. cbn [snd fst].
  rewrite IH. destruct (take 2 (keywords spec)) as [| k ks]; [reflexivity |].
  rewrite bool_decide_eq_false_2 by discriminate. cbn [negb andb].
  unfold Py.mem. by destruct (forallb _ (k :: ks)).
Qed.

Lemma process_with_resolve (defs : list (string * IntentSpec)) (text : option str) :
  process_with defs text = Spec.resolve defs text.
Proof.
  unfold process_with, Spec.resolve.
  destruct text as [[| c raw] |]; [reflexivity | | reflexivity].
  rewrite pattern_loop_find.
  destruct (List.find (Spec.pattern_matches _) defs) as [d |]; [reflexivity |].
  cbn [fmap option_fmap option_map].
  rewrite index_0_head, head_sort_desc.
  rewrite (first_max_map
             (fun d => (fst d, _overlap_score (_tokens (_normalize (Some (c :: raw))))
                                  (keywords (snd d)))) snd).
  cbn [snd]. fold (Spec.overlap (_tokens (_normalize (Some (c :: raw))))).
  destruct (Spec.first_max _ defs) as [d |]; [| reflexivity].
  cbn [fmap option_fmap option_map mbind result_mbind result_bind fst snd].
  fold (Spec.overlap (_tokens (_normalize (Some (c :: raw)))) d).
  destruct (Qle_bool _ _); [reflexivity |].
  rewrite fallback_loop_find.
  by destruct (List.find (Spec.required_present _) defs).
Qed.

(** C2.  [process] resolves every input in this order, the first success
    winning: (1) a null or empty input is [unknown] with the raw input as
    [text]; (2) the first intent in catalog order with a pattern matching the
    normalised text; (3) otherwise the first intent in catalog order whose
    overlap score is maximal, provided that score is at least 1/4; (4)
    otherwise the first intent in catalog order whose first two keywords are
    all among the tokens; (5) otherwise [unknown] with the raw input.  The
    three inputs at the end go through steps 2, 3 and 5. *)
Theorem process_priority_order :
  (forall text : option str, process text = Spec.resolve intent_definitions text)
  /\ process None = Ok (Spec.unknown VNone)
  /\ process (Some []) = Ok (Spec.unknown (VStr []))
  /\ process (Some ("what time is it" : str)) = Ok (mkCommand "time" ∅)
  /\ List.find (Spec.pattern_matches "clock") intent_definitions = None
  /\ process (Some ("clock" : str)) = Ok (mkCommand "time" ∅)
  /\ process (Some ("blah blah" : str)) = Ok (Spec.unknown (VStr "blah blah")).
Proof.
  split; [intros text; apply process_with_resolve |].
  repeat split; vm_compute; reflexivity.
Qed.

End ResolverFacts.

(** ** The matcher finds matches *)
Section MatcherFacts.
Import Re ReSem.
Variable s : str.

Lemma orelse_Some {A} (x y : option A) (a : A) :
  orelse x y = Some a -> x = Some a \/ y = Some a.
Proof. destruct x; cbn; auto. Qed.

(** Soundness of the backtracking matcher: a result of [m] comes from a
    match of the pattern followed by a success of the continuation. *)
Lemma m_sound (r : regex) : forall i c (k : cont) res,
  m s r i c k = Some res ->
  exists j c', matches s r i c j c' /\ k j c' = Some res.
Proof.
  induction r as [| cs | r1 IH1 r2 IH2 | r1 IH1 r2 IH2 | g r IH | n r IH | |];
    intros i c k res Hm; cbn [m] in Hm; cbn [matches].
  - eauto.
  - destruct (s !! i) as [a |] eqn:Ha; [| discriminate].
    destruct (accepts cs a) eqn:Hacc; [| discriminate].
    exists (S i), c. split; [| exact Hm]. exists a. auto.
  - apply IH1 in Hm as (l & c1 & H1 & Hm). apply IH2 in Hm as (j & c' & H2 & Hk).
    exists j, c'. split; [| exact Hk]. exists l, c1. auto.
  - apply orelse_Some in Hm as [Hm | Hm].
    + apply IH1 in Hm as (j & c' & H & Hk). eauto.
    + apply IH2 in Hm as (j & c' & H & Hk). eauto.
  - remember (length s - i) as fuel eqn:E in Hm. clear E. revert i c Hm.
    induction fuel as [| fuel IHf]; intros i c Hm.
    + exists i, c. split; [constructor | exact Hm].
    + assert (Hcases :
        m s r i c (fun j c' =>
                     if i <? j
                     then (fix loop (fuel : nat) (i : nat) (c : caps) {struct fuel} :=
                             match fuel with
                             | 0 => k i c
                             | S fuel' =>
                                 let more :=
                                   m s r i c
                                     (fun j c' => if i <? j then loop fuel' j c' else None) in
                                 if g then orelse more (k i c) else orelse (k i c) more
                             end) fuel j c'
                     else None) = Some res
        \/ k i c = Some res).
      { destruct g; apply orelse_Some in Hm; tauto. }
      clear Hm. destruct Hcases as [Hm | Hk].
      * apply IH in Hm as (l & c1 & H1 & Hm).
        destruct (Nat.ltb_spec i l) as [Hlt |]; [| discriminate].
        apply IHf in Hm as (j & c' & Hit & Hk).
        exists j, c'. split; [| exact Hk]. econstructor; eauto.
      * exists i, c. split; [constructor | exact Hk].
  - apply IH in Hm as (j & c1 & H & Hk). exists j, ((n, (i, j)) :: c1).
    split; [| exact Hk]. eauto.
  - destruct (boundary s i) eqn:Hb; [| discriminate]. exists i, c. auto.
  - destruct (at_end s i) eqn:He; [| discriminate]. exists i, c. auto.
Qed.

Lemma scan_sound (r : regex) (fuel : nat) : forall pos must_advance mo,
  scan s r fuel pos must_advance = Some mo ->
  matches s r (m_start mo) [] (m_end mo) (m_caps mo).
Proof.
  induction fuel as [| fuel IH]; intros pos ma mo Hs; cbn [scan] in Hs.
  - destruct (m s r pos [] _) as [[j c] |] eqn:Hm; [| discriminate].
    inversion Hs; subst; clear Hs. cbn.
    apply m_sound in Hm as (j' & c' & H & Hk).
    destruct (ma && (j' =? pos)); [discriminate |]. by inversion Hk; subst.
  - destruct (m s r pos [] _) as [[j c] |] eqn:Hm.
    + inversion Hs; subst; clear Hs. cbn.
      apply m_sound in Hm as (j' & c' & H & Hk).
      destruct (ma && (j' =? pos)); [discriminate |]. by inversion Hk; subst.
    + by apply IH in Hs.
Qed.

(** What [re.search] returns is a match of the pattern. *)
Lemma search_sound (r : regex) (mo : match_obj) :
  search s r = Some mo -> matches s r (m_start mo) [] (m_end mo) (m_caps mo).
Proof. apply scan_sound. Qed.

End MatcherFacts.

(** ** What matches say about spans and captures *)
Section MatchFacts.
Import Re ReSem.
Variable s : str.

Lemma cap_lookup_cons (n n' : nat) (sp : nat * nat) (c : caps) :
  cap_lookup n ((n', sp) :: c) = if n' =? n then Some sp else cap_lookup n c.
Proof. unfold cap_lookup. cbn. by destruct (n' =? n). Qed.

(** Captures are never lost, and the groups in [must r] are set. *)
Lemma matches_must (r : regex) : forall i c j c',
  matches s r i c j c' ->
  forall n, n ∈ must r \/ is_Some (cap_lookup n c) -> is_Some (cap_lookup n c').
Proof.
  induction r as [| cs | r1 IH1 r2 IH2 | r1 IH1 r2 IH2 | g r IH | g r IH | |];
    intros i c j c' Hm n Hn; cbn [matches must] in *.
  - destruct Hm as [_ ->]. destruct Hn as [Hn | Hn]; [by inversion Hn | exact Hn].
  - destruct Hm as (a & _ & _ & _ & ->).
    destruct Hn as [Hn | Hn]; [by inversion Hn | exact Hn].
  - destruct Hm as (l & c1 & H1 & H2).
    destruct Hn as [Hn | Hn].
    + apply elem_of_app in Hn as [Hn | Hn].
      * eapply IH2; [exact H2 |]. right. eapply IH1; [exact H1 |]. by left.
      * eapply IH2; [exact H2 |]. by left.
    + eapply IH2; [exact H2 |]. right. eapply IH1; [exact H1 |]. by right.
  - destruct Hn as [Hn | Hn].
    + apply list_elem_of_In, filter_In in Hn as [Hn1 Hn2].
      apply list_elem_of_In in Hn1. apply bool_decide_eq_true in Hn2.
      destruct Hm as [Hm | Hm]; [eapply IH1 | eapply IH2]; eauto.
    + destruct Hm as [Hm | Hm]; [eapply IH1 | eapply IH2]; eauto.
  - destruct Hn as [Hn | Hn]; [by inversion Hn |].
    induction Hm as [| i c l c1 j c' H1 Hlt _ IHit]; [exact Hn |].
    apply IHit. eapply IH; [exact H1 |]. by right.
  - destruct Hm as (c1 & Hm & ->). rewrite cap_lookup_cons.
    destruct (Nat.eqb_spec g n) as [-> | Hne]; [eauto |].
    eapply IH; [exact Hm |]. destruct Hn as [Hn | Hn]; [| by right].
    left. apply elem_of_cons in Hn as [Hn | Hn]; [congruence | exact Hn].
  - destruct Hm as (_ & _ & ->).
    destruct Hn as [Hn | Hn]; [by inversion Hn | exact Hn].
  - destruct Hm as (_ & _ & ->).
    destruct Hn as [Hn | Hn]; [by inversion Hn | exact Hn].
Qed.

(** A pattern without groups leaves the captures alone. *)
Lemma matches_groupless (r : regex) : forall i c j c',
  groupless r = true -> matches s r i c j c' -> c' = c.
Proof.
  induction r as [| cs | r1 IH1 r2 IH2 | r1 IH1 r2 IH2 | g r IH | g r IH | |];
    intros i c j c' Hg Hm; cbn [matches groupless] in *.
  - by destruct Hm.
  - by destruct Hm as (a & _ & _ & _ & ->).
  - apply andb_prop in Hg as [Hg1 Hg2]. destruct Hm as (l & c1 & H1 & H2).
    apply IH1 in H1; [| exact Hg1]. apply IH2 in H2; [| exact Hg2]. congruence.
  - apply andb_prop in Hg as [Hg1 Hg2]. destruct Hm as [Hm | Hm]; eauto.
  - induction Hm as [| i c l c1 j c' H1 Hlt _ IHit]; [reflexivity |].
    apply IH in H1; [| exact Hg]. congruence.
  - discriminate.
  - by destruct Hm as (_ & _ & ->).
  - by destruct Hm as (_ & _ & ->).
Qed.

Lemma slice_cons (i j : nat) (a : ascii) :
  s !! i = Some a -> i < j -> slice s i j = a :: slice s (S i) j.
Proof.
  intros Ha Hlt. unfold slice. rewrite (drop_S s a i Ha).
  replace (j - i) with (S (j - S i)) by lia. reflexivity.
Qed.

Lemma slice_nil (i : nat) : slice s i i = [].
Proof. unfold slice. by rewrite Nat.sub_diag. Qed.

(** A literal matches exactly its own characters. *)
Lemma matches_lit (w : str) : forall i c j c',
  matches s (lit w) i c j c' -> c' = c /\ j = i + length w /\ slice s i j = w.
Proof.
  induction w as [| a w IH]; intros i c j c' Hm; cbn [lit matches] in Hm.
  - destruct Hm as [-> ->]. rewrite slice_nil. cbn. auto with lia.
  - destruct Hm as (l & c1 & (a' & Ha & Hacc & -> & ->) & Hm).
    apply IH in Hm as (-> & -> & Hs). cbn in Hacc.
    apply Ascii.eqb_eq in Hacc. subst a'.
    split; [reflexivity |]. split; [cbn; lia |].
    rewrite (slice_cons i _ a Ha) by lia. by rewrite Hs.
Qed.

Lemma matches_alts (rs : list regex) : forall i c j c',
  rs <> [] -> matches s (alts rs) i c j c' ->
  exists r, r ∈ rs /\ matches s r i c j c'.
Proof.
  induction rs as [| r rs IH]; intros i c j c' Hne Hm; [done |].
  destruct rs as [| r' rs].
  - exists r. split; [by left | exact Hm].
  - cbn [alts matches] in Hm. destruct Hm as [Hm | Hm].
    + exists r. split; [by left | exact Hm].
    + apply IH in Hm as (r0 & Hin & Hm); [| done].
      exists r0. split; [by right | exact Hm].
Qed.

(** Repeating a one-character pattern spans characters of its set. *)
Lemma iter_chr (cs : cset) (i : nat) (c : caps) (j : nat) (c' : caps) :
  iter (matches s (Chr cs)) i c j c' ->
  c' = c /\ i <= j /\ Forall (fun a => accepts cs a = true) (slice s i j).
Proof.
  induction 1 as [i c | i c l c1 j c' H1 Hlt _ IH].
  - rewrite slice_nil. auto.
  - cbn [matches] in H1. destruct H1 as (a & Ha & Hacc & -> & ->).
    destruct IH as (-> & Hle & Hall). split; [reflexivity |]. split; [lia |].
    rewrite (slice_cons i j a Ha) by lia. by constructor.
Qed.

Lemma matches_plus_chr (cs : cset) (i : nat) (c : caps) (j : nat) (c' : caps) :
  matches s (Plus (Chr cs)) i c j c' ->
  c' = c /\ slice s i j <> []
  /\ Forall (fun a => accepts cs a = true) (slice s i j).
Proof.
  unfold Plus. cbn [matches].
  intros (l & c1 & (a & Ha & Hacc & -> & ->) & Hit).
  apply iter_chr in Hit as (-> & Hle & Hall). split; [reflexivity |].
  rewrite (slice_cons i j a Ha) by lia. split; [discriminate | by constructor].
Qed.

(** Every group in [must r] has a value after a successful [search]. *)
Lemma search_group (r : regex) (mo : match_obj) (n : nat) :
  search s r = Some mo -> n ∈ must r -> is_Some (group s mo n).
Proof.
  intros Hs Hn. apply search_sound in Hs.
  destruct n as [| n]; [by eexists |]. cbn [group].
  destruct (matches_must r _ _ _ _ Hs (S n) (or_introl Hn)) as [sp Hsp].
  rewrite Hsp. by eexists.
Qed.

End MatchFacts.

(** ** Parameter extraction *)
Import Re ReSem CommandProcessor.

Lemma wikipedia_loop_total (kws : list str) (text : str) :
  Forall (fun kw => kw <> []) kws -> exists r, wikipedia_loop kws text = Ok r.
Proof.
  induction 1 as [| kw kws Hne _ IH]; cbn [wikipedia_loop]; [by eexists |].
  unfold Py.contains, Py.split1.
  destruct kw as [| a kw]; [done |].
  destruct (Py.find (a :: kw) text) as [i |]; [| exact IH].
  cbn. destruct (Py.strip _); [exact IH | by eexists].
Qed.

Ltac eval_intents :=
  repeat match goal with
         | |- context [is_intent ?a ?b] =>
             let v := eval vm_compute in (is_intent a b) in
             change (is_intent a b) with v
         end.

Ltac must_group := vm_compute; repeat constructor.

Lemma group_strip_ok (s : str) (r : regex) (mo : match_obj) (n : nat) :
  search s r = Some mo -> n ∈ must r ->
  exists g, group s mo n = Some g /\ group_strip s mo n = Ok (Py.strip g).
Proof.
  intros Hs Hn. destruct (search_group s r mo n Hs Hn) as [g Hg].
  exists g. unfold group_strip. by rewrite Hg.
Qed.

Ltac use_group H n g :=
  let Hg := fresh "Hg" in
  let Hgs := fresh "Hgs" in
  destruct (group_strip_ok _ _ _ n H) as (g & Hg & Hgs); [must_group |];
  rewrite Hgs.

Ltac done_extracted :=
  eexists; split; [reflexivity | constructor; repeat constructor].

Ltac start_extract :=
  unfold _extract_params; eval_intents; cbv [mbind result_mbind result_bind].

Lemma extract_weather (text raw : str) :
  exists p, _extract_params "weather" text raw = Ok p /\ Spec.extracted "weather" p.
Proof.
  start_extract. destruct (search text _regex_city) as [mo |] eqn:Hs.
  - use_group Hs 1 g. done_extracted.
  - done_extracted.
Qed.

Lemma extract_search (text raw : str) :
  exists p, _extract_params "search" text raw = Ok p /\ Spec.extracted "search" p.
Proof.
  start_extract. destruct (search text _regex_search) as [mo |] eqn:Hs.
  - use_group Hs 1 g. done_extracted.
  - done_extracted.
Qed.

Lemma extract_wikipedia (text raw : str) :
  exists p, _extract_params "wikipedia" text raw = Ok p /\ Spec.extracted "wikipedia" p.
Proof.
  start_extract.
  destruct (wikipedia_loop_total
              (words ["who is"; "what is"; "tell me about"; "wikipedia"; "wiki"]) text)
    as [r Hr]; [repeat constructor; discriminate |].
  rewrite Hr. destruct r; done_extracted.
Qed.

Lemma extract_open_app (text raw : str) :
  exists p, _extract_params "open_app" text raw = Ok p /\ Spec.extracted "open_app" p.
Proof.
  start_extract. destruct (search text _regex_open) as [mo |] eqn:Hs.
  - use_group Hs 1 g. done_extracted.
  - done_extracted.
Qed.

Lemma extract_volume (text raw : str) :
  exists p, _extract_params "volume" text raw = Ok p /\ Spec.extracted "volume" p.
Proof.
  start_extract.
  destruct (_ || _); [done_extracted |].
  destruct (_ || _); [done_extracted |].
  destruct (_ || _); done_extracted.
Qed.

Lemma extract_voice_style (text raw : str) :
  exists p, _extract_params "voice_style" text raw = Ok p
            /\ Spec.extracted "voice_style" p.
Proof.
  start_extract.
  destruct (Py.contains "formal" text); [done_extracted |].
  destruct (Py.contains "casual" text); [done_extracted |].
  destruct (_ || _); done_extracted.
Qed.

Lemma extract_system_status (text raw : str) :
  exists p, _extract_params "system_status" text raw = Ok p
            /\ Spec.extracted "system_status" p.
Proof.
  start_extract.
  destruct (Py.contains "cpu" text); [done_extracted |].
  destruct (Py.contains "battery" text); [done_extracted |].
  destruct (_ || _); done_extracted.
Qed.

Lemma extract_listening (text raw : str) :
  exists p, _extract_params "listening" text raw = Ok p /\ Spec.extracted "listening" p.
Proof.
  start_extract.
  destruct (Py.contains "start" text); [done_extracted |].
  destruct (Py.contains "stop" text); done_extracted.
Qed.

Lemma first_max_In {X} (f : X -> Q) (l : list X) (x : X) :
  Spec.first_max f l = Some x -> In x l.
Proof.
  revert x. induction l as [| y l IH]; intros x Hx; [discriminate |].
  cbn [Spec.first_max] in Hx. destruct (Spec.first_max f l) as [z |].
  - destruct (Qle_bool (f z) (f y)); inversion Hx; subst; [by left |].
    right. by apply IH.
  - inversion Hx. by left.
Qed.

Lemma first_max_nonempty {X} (f : X -> Q) (l : list X) :
  l <> [] -> is_Some (Spec.first_max f l).
Proof.
  destruct l as [| y l]; [done |]. intros _. cbn [Spec.first_max].
  destruct (Spec.first_max f l) as [z |]; [| by eexists].
  destruct (Qle_bool (f z) (f y)); by eexists.
Qed.

(** ** [re.sub] as a left-to-right replacement of hits *)
Section SubFacts.
Import Re ReSem.
Variable s : str.
Variable r : regex.
Variable repl : str.
Variable hit : nat -> option nat.
Variable caps_of : nat -> nat -> caps.

Hypothesis hit_range : forall pos e, hit pos = Some e -> pos < e <= length s.
Hypothesis m_hit : forall pos,
  pos <= length s ->
  m s r pos [] accept = (fun e => (e, caps_of pos e)) <$> hit pos.

Lemma scan_step (fuel pos : nat) :
  pos <= length s ->
  scan s r fuel pos false
  = match hit pos with
    | Some e => Some (MatchObj pos e (caps_of pos e))
    | None => match fuel with
              | 0 => None
              | S fuel' => scan s r fuel' (S pos) false
              end
    end.
Proof.
  intros Hle. destruct fuel as [| fuel]; cbn [scan andb];
    change (fun (j : nat) (c : caps) => Some (j, c)) with accept;
    rewrite (m_hit pos Hle); by destruct (hit pos).
Qed.

Lemma drop_lookup_cons (pos : nat) (a : ascii) :
  s !! pos = Some a -> drop pos s = a :: drop (S pos) s.
Proof. apply drop_S. Qed.

(** Dropping the characters of a hit. *)
Lemma walk_skip (k : nat) : forall pos,
  pos + k <= length s ->
  walk hit repl k pos (drop pos s) = walk hit repl 0 (pos + k) (drop (pos + k) s).
Proof.
  induction k as [| k IH]; intros pos Hle.
  - by rewrite Nat.add_0_r.
  - destruct (lookup_lt_is_Some_2 s pos) as [a Ha]; [lia |].
    rewrite (drop_lookup_cons pos a Ha). cbn [walk].
    rewrite IH by lia. by replace (S pos + k) with (pos + S k) by lia.
Qed.

(** What [scan] finds, in terms of [walk]. *)
Lemma scan_walk (fuel : nat) : forall pos,
  pos + fuel = length s ->
  match scan s r fuel pos false with
  | Some mo =>
      pos <= m_start mo /\ m_start mo < m_end mo <= length s
      /\ walk hit repl 0 pos (drop pos s)
         = slice s pos (m_start mo) ++ repl
           ++ walk hit repl 0 (m_end mo) (drop (m_end mo) s)
  | None => walk hit repl 0 pos (drop pos s) = drop pos s
  end.
Proof.
  induction fuel as [| fuel IH]; intros pos Hlen; rewrite scan_step by lia.
  - destruct (hit pos) as [e |] eqn:Hhit.
    + apply hit_range in Hhit. lia.
    + rewrite drop_ge by lia. reflexivity.
  - destruct (hit pos) as [e |] eqn:Hhit.
    + pose proof (hit_range pos e Hhit) as Hr. cbn [m_start m_end].
      split; [lia |]. split; [lia |]. rewrite slice_nil. cbn [app].
      destruct (lookup_lt_is_Some_2 s pos) as [a Ha]; [lia |].
      rewrite (drop_lookup_cons pos a Ha). cbn [walk]. rewrite Hhit.
      f_equal. rewrite walk_skip by lia. by replace (S pos + (e - pos - 1)) with e by lia.
    + destruct (lookup_lt_is_Some_2 s pos) as [a Ha]; [lia |].
      specialize (IH (S pos) ltac:(lia)).
      rewrite (drop_lookup_cons pos a Ha). cbn [walk]. rewrite Hhit.
      destruct (scan s r fuel (S pos) false) as [mo |].
      * destruct IH as (H1 & H2 & ->). split; [lia |]. split; [lia |].
        rewrite (slice_cons s pos (m_start mo) a Ha) by lia. reflexivity.
      * by rewrite IH.
Qed.

Lemma sub_loop_walk (fuel : nat) : forall pos,
  pos <= length s -> length s - pos < fuel ->
  sub_loop s r repl fuel pos false = walk hit repl 0 pos (drop pos s).
Proof.
  induction fuel as [| fuel IH]; intros pos Hle Hfuel; [lia |].
  cbn [sub_loop].
  pose proof (scan_walk (length s - pos) pos ltac:(lia)) as Hscan.
  destruct (scan s r (length s - pos) pos false) as [mo |].
  - destruct Hscan as (H1 & H2 & ->).
    replace (m_end mo =? m_start mo) with false by (symmetry; apply Nat.eqb_neq; lia).
    rewrite IH by lia. reflexivity.
  - by rewrite Hscan.
Qed.

(** [re.sub] replaces the hits from left to right. *)
Lemma sub_walk : sub s r repl = walk hit repl 0 0 s.
Proof. unfold sub. rewrite sub_loop_walk by lia. reflexivity. Qed.

End SubFacts.

(** ** The normaliser *)
Section NormalizeFacts.
Import Re ReSem CommandProcessor.

Lemma orelse_None_r {A} (x : option A) : orelse x None = x.
Proof. by destruct x. Qed.

(** One round of a repetition of a one-character pattern. *)
Lemma star_chr_unfold (s : str) (g : bool) (cs : cset) (i : nat) (c : caps) (k : cont) :
  m s (Star g (Chr cs)) i c k
  = let more := match s !! i with
                | Some a => if accepts cs a then m s (Star g (Chr cs)) (S i) c k else None
                | None => None
                end in
    if g then orelse more (k i c) else orelse (k i c) more.
Proof.
  cbn [m]. destruct (length s - i) as [| n] eqn:E.
  - rewrite (lookup_ge_None_2 s i) by lia. cbn zeta.
    destruct g; cbn [orelse]; [reflexivity | by rewrite orelse_None_r].
  - cbn zeta. replace (length s - S i) with n by lia.
    destruct (s !! i) as [a |]; [| reflexivity].
    destruct (accepts cs a); [| reflexivity].
    replace (i <? S i) with true by (symmetry; apply Nat.ltb_lt; lia).
    reflexivity.
Qed.

(** A greedy repetition followed by nothing takes the whole run. *)
Lemma star_greedy_run (s : str) (cs : cset) (c : caps) (n : nat) : forall i,
  length s - i <= n ->
  m s (Star true (Chr cs)) i c accept = Some (i + run cs (drop i s), c).
Proof.
  induction n as [| n IH]; intros i Hn; rewrite star_chr_unfold; cbn zeta.
  - rewrite (lookup_ge_None_2 s i) by lia. rewrite drop_ge by lia.
    cbn. by rewrite Nat.add_0_r.
  - destruct (s !! i) as [a |] eqn:Ha.
    + rewrite (drop_S s a i Ha). cbn [run].
      destruct (accepts cs a).
      * rewrite IH by lia. cbn. f_equal. f_equal. lia.
      * cbn. by rewrite Nat.add_0_r.
    + rewrite drop_ge by (apply lookup_ge_None; exact Ha). cbn.
      by rewrite Nat.add_0_r.
Qed.

Lemma drop_cons_inv (s : str) (pos : nat) (a : ascii) (rest : str) :
  drop pos s = a :: rest -> s !! pos = Some a /\ drop (S pos) s = rest.
Proof.
  intros Hd. split.
  - rewrite <- (Nat.add_0_r pos), <- lookup_drop, Hd. reflexivity.
  - replace (S pos) with (pos + 1) by lia. rewrite <- drop_drop, Hd. reflexivity.
Qed.

(** Substituting one character for the characters of a set. *)
Lemma walk_chr (s : str) (cs : cset) (b : ascii) (rest : str) : forall pos,
  drop pos s = rest ->
  walk (hit_chr s cs) [b] 0 pos rest = map (fun a => if accepts cs a then b else a) rest.
Proof.
  induction rest as [| a rest IH]; intros pos Hd; [reflexivity |].
  apply drop_cons_inv in Hd as [Ha Hd].
  assert (Hhit : hit_chr s cs pos = if accepts cs a then Some (S pos) else None)
    by (unfold hit_chr; rewrite Ha; reflexivity).
  cbn [walk map]. rewrite Hhit. destruct (accepts cs a).
  - replace (S pos - pos - 1) with 0 by lia. cbn [app]. f_equal. by apply IH.
  - f_equal. by apply IH.
Qed.

Lemma sub_chr (s : str) (cs : cset) (b : ascii) :
  sub s (Chr cs) [b] = map (fun a => if accepts cs a then b else a) s.
Proof.
  rewrite (sub_walk s (Chr cs) [b] (hit_chr s cs) (fun _ _ => [])).
  - by apply walk_chr.
  - intros pos e. unfold hit_chr. destruct (s !! pos) as [a |] eqn:Ha; [| discriminate].
    destruct (accepts cs a); [| discriminate]. intros [= <-].
    apply lookup_lt_Some in Ha. lia.
  - intros pos _. cbn [m]. unfold hit_chr. destruct (s !! pos) as [a |]; [| reflexivity].
    by destruct (accepts cs a).
Qed.

(** Substituting a space for the runs of whitespace. *)
Lemma walk_run (s : str) (rest : str) : forall pos,
  drop pos s = rest ->
  walk (hit_run s CSpace) " " 0 pos rest = Spec.collapse false rest
  /\ walk (hit_run s CSpace) " " (run CSpace rest) pos rest = Spec.collapse true rest.
Proof.
  induction rest as [| a rest IH]; intros pos Hd; [by split |].
  apply drop_cons_inv in Hd as [Ha Hd]. destruct (IH (S pos) Hd) as [IH1 IH2].
  assert (Hhit : hit_run s CSpace pos
                 = if Py.isspace a then Some (S pos + run CSpace rest) else None)
    by (unfold hit_run; rewrite Ha, Hd; reflexivity).
  cbn [walk run Spec.collapse]. rewrite Hhit.
  change (accepts CSpace a) with (Py.isspace a).
  destruct (Py.isspace a).
  - replace (S pos + run CSpace rest - pos - 1) with (run CSpace rest) by lia.
    rewrite IH2. split; reflexivity.
  - rewrite IH1. split; reflexivity.
Qed.

Lemma sub_spaces (s : str) : sub s SPACES " " = Spec.collapse false s.
Proof.
  unfold SPACES, ws.
  rewrite (sub_walk s (Plus (Chr CSpace)) " " (hit_run s CSpace) (fun _ _ => [])).
  - by apply walk_run.
  - intros pos e. unfold hit_run. destruct (s !! pos) as [a |] eqn:Ha; [| discriminate].
    destruct (accepts CSpace a); [| discriminate]. intros [= <-].
    apply lookup_lt_Some in Ha. split; [lia |].
    assert (Hrun : forall l : str, run CSpace l <= length l).
    { induction l as [| x l IHl]; cbn [run length]; [lia |].
      destruct (accepts CSpace x); lia. }
    specialize (Hrun (drop (S pos) s)). rewrite length_drop in Hrun. lia.
  - intros pos _. unfold Plus. cbn [m]. unfold hit_run.
    destruct (s !! pos) as [a |]; [| reflexivity].
    destruct (accepts CSpace a); [| reflexivity].
    change (m s (Star true (Chr CSpace)) (S pos) [] accept
            = Some (S pos + run CSpace (drop (S pos) s), [])).
    by apply (star_greedy_run s CSpace [] (length s)); lia.
Qed.

(** A literal is matched by comparing characters. *)
Lemma m_lit (s : str) (w : str) : forall i c (k : cont),
  m s (lit w) i c k = if Py.startswith (drop i s) w then k (i + length w) c else None.
Proof.
  induction w as [| a w IH]; intros i c k; cbn [lit m Py.startswith length].
  - by rewrite Nat.add_0_r.
  - destruct (s !! i) as [b |] eqn:Hb.
    + rewrite (drop_S s b i Hb). cbn [accepts].
      destruct (Ascii.eqb a b); cbn [andb]; [| reflexivity].
      rewrite IH. by replace (S i + length w) with (i + S (length w)) by lia.
    + rewrite drop_ge by (apply lookup_ge_None; exact Hb). reflexivity.
Qed.

(** An alternation of literals tries them in order. *)
Lemma m_alts_lit (s : str) (ws : list str) : forall i c (k : cont),
  ws <> [] ->
  m s (alts (map lit ws)) i c k
  = first_some (fun w => if Py.startswith (drop i s) w then k (i + length w) c else None)
      ws.
Proof.
  induction ws as [| w ws IH]; intros i c k Hne; [done |].
  destruct ws as [| w' ws].
  - cbn [map alts first_some]. by rewrite m_lit, orelse_None_r.
  - change (alts (map lit (w :: w' :: ws)))
      with (Alt (lit w) (alts (map lit (w' :: ws)))).
    cbn [m first_some]. rewrite m_lit. by rewrite IH.
Qed.

Lemma first_some_find {A B} (P : A -> bool) (g : A -> B) (l : list A) :
  first_some (fun x => if P x then Some (g x) else None) l = g <$> List.find P l.
Proof.
  induction l as [| x l IH]; [reflexivity |]. cbn [first_some List.find].
  destruct (P x); [reflexivity | exact IH].
Qed.

Lemma first_some_ext {A B} (f g : A -> option B) (l : list A) :
  Forall (fun x => f x = g x) l -> first_some f l = first_some g l.
Proof. induction 1 as [| x l Hx _ IH]; cbn [first_some]; congruence. Qed.

Lemma first_some_none {A B} (f : A -> option B) (l : list A) :
  Forall (fun x => f x = None) l -> first_some f l = None.
Proof. induction 1 as [| x l Hx _ IH]; cbn [first_some]; [| rewrite Hx]; done. Qed.

Lemma find_ext {A} (P Q : A -> bool) (l : list A) :
  Forall (fun x => P x = Q x) l -> List.find P l = List.find Q l.
Proof.
  induction 1 as [| x l Hx _ IH]; cbn [List.find]; [reflexivity |].
  rewrite Hx, IH. reflexivity.
Qed.

Lemma startswith_lookup (rest w : str) :
  Py.startswith rest w = true -> forall i a, w !! i = Some a -> rest !! i = Some a.
Proof.
  revert rest. induction w as [| b w IH]; intros rest Hsw i a Hi; [done |].
  destruct rest as [| c rest]; [discriminate |]. cbn [Py.startswith] in Hsw.
  apply andb_prop in Hsw as [Hbc Hsw]. apply Ascii.eqb_eq in Hbc. subst c.
  destruct i as [| i]; [exact Hi |]. cbn in Hi |- *. by eapply IH.
Qed.

(** Around a wordy literal that is present, [\b] holds exactly when the
    neighbouring character is not a word character. *)
Lemma boundary_around (s : str) (pos : nat) (w : str) :
  Spec.wordy w = true -> Py.startswith (drop pos s) w = true ->
  boundary s pos = Spec.not_word (Spec.before s pos)
  /\ boundary s (pos + length w) = Spec.not_word (drop pos s !! length w).
Proof.
  intros Hw Hsw. unfold Spec.wordy in Hw.
  apply andb_prop in Hw as [Hh Hl]. apply negb_true_iff in Hh, Hl.
  destruct w as [| a w]; [discriminate |].
  assert (Hfirst : s !! pos = Some a).
  { rewrite <- (Nat.add_0_r pos), <- lookup_drop.
    by apply (startswith_lookup _ _ Hsw 0 a). }
  destruct (last (a :: w)) as [b |] eqn:Hlast; [| discriminate].
  assert (Hend : s !! (pos + length w) = Some b).
  { rewrite <- lookup_drop. apply (startswith_lookup _ _ Hsw).
    rewrite last_lookup in Hlast. exact Hlast. }
  cbn [head Spec.not_word] in Hh, Hl.
  apply negb_false_iff in Hh, Hl. split.
  - unfold boundary, word_at. rewrite Hfirst, Hh. unfold Spec.before, Spec.not_word.
    destruct pos as [| p]; [reflexivity |]. destruct (s !! p); [| reflexivity].
    by destruct (Py.isword _).
  - cbn [length]. replace (pos + S (length w)) with (S (pos + length w)) by lia.
    unfold boundary, word_at. rewrite Hend, Hl. rewrite lookup_drop.
    replace (pos + S (length w)) with (S (pos + length w)) by lia.
    unfold Spec.not_word. destruct (s !! S (pos + length w)); [| reflexivity].
    by destruct (Py.isword _).
Qed.

Lemma fillers_wordy : Forall (fun w => Spec.wordy w = true) Spec.fillers.
Proof. repeat constructor. Qed.

(** The filler pattern matches at a position exactly when a filler stands
    there as a whole word, and then matches the first such filler. *)
Lemma m_fillers (s : str) (pos : nat) :
  m s _FILLERS pos [] accept
  = (fun e => (e, [(1, (pos, e))])) <$> Spec.hit_filler s pos.
Proof.
  unfold _FILLERS. cbn [seqs m].
  change (one_of _) with (alts (map lit Spec.fillers)).
  unfold Spec.hit_filler. rewrite <- option_fmap_compose.
  rewrite <- (first_some_find (Spec.whole_word (Spec.before s pos) (drop pos s))).
  destruct (boundary s pos) eqn:Hb.
  - rewrite m_alts_lit by discriminate. apply first_some_ext.
    eapply Forall_impl; [exact fillers_wordy |]. intros w Hw. cbn beta.
    unfold Spec.whole_word.
    destruct (Py.startswith (drop pos s) w) eqn:Hsw;
      [| by rewrite andb_false_r].
    destruct (boundary_around s pos w Hw Hsw) as [H1 H2].
    rewrite <- H1, <- H2, Hb. cbn [andb]. by destruct (boundary s (pos + length w)).
  - symmetry. apply first_some_none.
    eapply Forall_impl; [exact fillers_wordy |].
    intros w Hw. cbn beta. unfold Spec.whole_word.
    destruct (Py.startswith (drop pos s) w) eqn:Hsw;
      [| by rewrite andb_false_r].
    destruct (boundary_around s pos w Hw Hsw) as [H1 _].
    by rewrite <- H1, Hb.
Qed.

Lemma startswith_length (rest w : str) :
  Py.startswith rest w = true -> length w <= length rest.
Proof.
  revert rest. induction w as [| b w IH]; intros rest Hsw; [cbn; lia |].
  destruct rest as [| c rest]; [discriminate |]. cbn [Py.startswith] in Hsw.
  apply andb_prop in Hsw as [_ Hsw]. apply IH in Hsw. cbn [length]. lia.
Qed.

Lemma hit_filler_range (s : str) (pos e : nat) :
  Spec.hit_filler s pos = Some e -> pos < e <= length s.
Proof.
  unfold Spec.hit_filler.
  destruct (List.find _ Spec.fillers) as [w |] eqn:Hfind; [| discriminate].
  intros [= <-]. apply find_some in Hfind as [Hin Hww].
  unfold Spec.whole_word in Hww. apply andb_prop in Hww as [Hww _].
  apply andb_prop in Hww as [_ Hsw]. apply startswith_length in Hsw.
  rewrite length_drop in Hsw.
  assert (Hpos : 0 < length w).
  { pose proof fillers_wordy as Hall. rewrite Forall_forall in Hall.
    specialize (Hall w (proj2 (list_elem_of_In _ _) Hin)).
    destruct w; [discriminate | cbn; lia]. }
  lia.
Qed.

Lemma walk_fillers (s : str) (rest : str) : forall pos k,
  drop pos s = rest ->
  walk (Spec.hit_filler s) " " k pos rest
  = Spec.remove_fillers k (Spec.before s pos) rest.
Proof.
  induction rest as [| a rest IH]; intros pos k Hd; [reflexivity |].
  pose proof Hd as Hd0. apply drop_cons_inv in Hd as [Ha Hd].
  assert (Hbefore : Spec.before s (S pos) = Some a) by exact Ha.
  cbn [walk Spec.remove_fillers]. destruct k as [| k].
  - unfold Spec.hit_filler at 1. rewrite Hd0.
    destruct (List.find _ Spec.fillers) as [w |]; cbn [fmap option_fmap option_map].
    + rewrite (IH (S pos) _ Hd), Hbefore.
      replace (pos + length w - pos - 1) with (length w - 1) by lia. reflexivity.
    + rewrite (IH (S pos) _ Hd), Hbefore. reflexivity.
  - rewrite (IH (S pos) _ Hd), Hbefore. reflexivity.
Qed.

(** Substituting a space for the fillers. *)
Lemma sub_fillers (s : str) : sub s _FILLERS " " = Spec.remove_fillers 0 None s.
Proof.
  rewrite (sub_walk s _FILLERS " " (Spec.hit_filler s) (fun pos e => [(1, (pos, e))])).
  - by apply walk_fillers.
  - apply hit_filler_range.
  - intros pos _. apply m_fillers.
Qed.

Lemma blank_punctuation_accepts (a : ascii) :
  (if accepts (CNot (CUnion CWord CSpace)) a then " "%char else a)
  = Spec.blank_punctuation a.
Proof.
  unfold Spec.blank_punctuation. cbn [accepts].
  by destruct (Py.isword a || Py.isspace a).
Qed.

(** The normaliser does what the specification says, step by step. *)
Lemma normalize_refines (text : option str) : _normalize text = Spec.normalize text.
Proof.
  unfold _normalize, Spec.normalize. destruct text as [[| a text] |]; try reflexivity.
  unfold PUNCT. change (" " : str) with [" "%char].
  rewrite sub_chr. change [" "%char] with (" " : str).
  rewrite sub_fillers, sub_spaces.
  do 3 f_equal. apply map_ext. intros x. apply blank_punctuation_accepts.
Qed.

(** Where the characters of the result come from. *)
Lemma lstrip_elem (s : str) (a : ascii) : a ∈ Py.lstrip s -> a ∈ s.
Proof.
  induction s as [| b s IH]; cbn [Py.lstrip]; [done |].
  destruct (Py.isspace b); [| done]. intros H. right. by apply IH.
Qed.

Lemma rstrip_elem (s : str) (a : ascii) : a ∈ Py.rstrip s -> a ∈ s.
Proof.
  induction s as [| b s IH]; cbn [Py.rstrip]; [done |].
  destruct (Py.rstrip s) as [| c r].
  - destruct (Py.isspace b); [by inversion 1 |].
    intros H. apply elem_of_cons in H as [-> | H]; [by left | by inversion H].
  - intros H. apply elem_of_cons in H as [-> | H]; [by left |]. right. by apply IH.
Qed.

Lemma strip_elem (s : str) (a : ascii) : a ∈ Py.strip s -> a ∈ s.
Proof. unfold Py.strip. intros H. by apply lstrip_elem, rstrip_elem. Qed.

Lemma collapse_elem (s : str) (a : ascii) : forall b,
  a ∈ Spec.collapse b s -> (a ∈ s /\ Py.isspace a = false) \/ a = " "%char.
Proof.
  induction s as [| x s IH]; intros b H; cbn [Spec.collapse] in H; [by inversion H |].
  destruct (Py.isspace x) eqn:Hx.
  - destruct b.
    + apply IH in H as [[H1 H2] | H]; [left; split; [by right | done] | by right].
    + apply elem_of_cons in H as [-> | H]; [by right |].
      apply IH in H as [[H1 H2] | H]; [left; split; [by right | done] | by right].
  - apply elem_of_cons in H as [-> | H]; [left; split; [by left | done] |].
    apply IH in H as [[H1 H2] | H]; [left; split; [by right | done] | by right].
Qed.

Lemma remove_fillers_elem (rest : str) (a : ascii) : forall k prev,
  a ∈ Spec.remove_fillers k prev rest -> a ∈ rest \/ a = " "%char.
Proof.
  induction rest as [| x rest IH]; intros k prev H;
    cbn [Spec.remove_fillers] in H; [by inversion H |].
  destruct k as [| k].
  - destruct (List.find _ Spec.fillers).
    + apply elem_of_cons in H as [-> | H]; [by right |].
      apply IH in H as [H | H]; [left; by right | by right].
    + apply elem_of_cons in H as [-> | H]; [left; by left |].
      apply IH in H as [H | H]; [left; by right | by right].
  - apply IH in H as [H | H]; [left; by right | by right].
Qed.

Lemma lower_char_fixed (a : ascii) : Py.lower_char (Py.lower_char a) = Py.lower_char a.
Proof. destruct a as [[] [] [] [] [] [] [] []]; reflexivity. Qed.

(** Every character of the normalised text is a lower-case word character
    or the space. *)
Lemma normalize_alphabet (text : option str) (a : ascii) :
  a ∈ _normalize text ->
  Py.lower_char a = a /\ (Py.isword a = true \/ a = " "%char).
Proof.
  rewrite normalize_refines. unfold Spec.normalize.
  assert (Hspace : Py.lower_char " " = " "%char
                   /\ (Py.isword " " = true \/ " "%char = " "%char))
    by (split; [reflexivity | by right]).
  destruct text as [[| x text] |];
    [intros H; by apply elem_of_nil in H | | intros H; by apply elem_of_nil in H].
  intros H. apply strip_elem in H. apply collapse_elem in H as [[H Hsp] | ->];
    [| exact Hspace].
  apply remove_fillers_elem in H as [H | ->]; [| exact Hspace].
  apply list_elem_of_In, in_map_iff in H as (b & <- & H).
  apply in_map_iff in H as (c & <- & _).
  unfold Spec.blank_punctuation in *.
  destruct (Py.isword (Py.lower_char c)) eqn:Hw; cbn [orb] in *.
  - split; [apply lower_char_fixed | by left].
  - destruct (Py.isspace (Py.lower_char c)) eqn:Hs; [congruence | exact Hspace].
Qed.

(** The result is trimmed and single-spaced. *)
Lemma collapse_single_spaced (s : str) : forall b,
  Spec.single_spaced b (Spec.collapse b s) = true.
Proof.
  induction s as [| a s IH]; intros b; cbn [Spec.collapse]; [reflexivity |].
  destruct (Py.isspace a) eqn:Ha.
  - destruct b; [apply IH |]. cbn. apply IH.
  - cbn [Spec.single_spaced]. rewrite Ha. apply IH.
Qed.

Lemma single_spaced_weaken (s : str) :
  Spec.single_spaced true s = true -> Spec.single_spaced false s = true.
Proof.
  destruct s as [| a s]; [done |]. cbn [Spec.single_spaced].
  destruct (Py.isspace a); [discriminate | done].
Qed.

Lemma single_spaced_fixed (s : str) : forall b,
  Spec.single_spaced b s = true -> Spec.collapse b s = s.
Proof.
  induction s as [| a s IH]; intros b H; [reflexivity |].
  cbn [Spec.single_spaced Spec.collapse] in *. destruct (Py.isspace a).
  - apply andb_prop in H as [H Hs]. apply andb_prop in H as [Hb Ha].
    apply negb_true_iff in Hb. apply Ascii.eqb_eq in Ha. subst a b.
    f_equal. by apply IH.
  - f_equal. by apply IH.
Qed.

Lemma lstrip_single_spaced (s : str) :
  Spec.single_spaced false s = true -> Spec.single_spaced false (Py.lstrip s) = true.
Proof.
  induction s as [| a s IH]; intros H; [reflexivity |].
  cbn [Py.lstrip]. destruct (Py.isspace a) eqn:Ha; [| exact H].
  cbn [Spec.single_spaced] in H. rewrite Ha in H.
  apply andb_prop in H as [_ H]. by apply IH, single_spaced_weaken.
Qed.

Lemma rstrip_single_spaced (s : str) : forall b,
  Spec.single_spaced b s = true -> Spec.single_spaced b (Py.rstrip s) = true.
Proof.
  induction s as [| a s IH]; intros b H; [reflexivity |].
  cbn [Py.rstrip]. cbn [Spec.single_spaced] in H.
  destruct (Py.rstrip s) as [| c r] eqn:Hr.
  - destruct (Py.isspace a) eqn:Ha; [reflexivity |].
    cbn [Spec.single_spaced]. by rewrite Ha.
  - cbn [Spec.single_spaced]. fold (Spec.single_spaced true (c :: r)).
    fold (Spec.single_spaced false (c :: r)).
    destruct (Py.isspace a).
    + apply andb_prop in H as [H Hs]. rewrite H. cbn [andb]. by apply IH.
    + by apply IH.
Qed.

Lemma lstrip_head (s : str) :
  match Py.lstrip s with
  | [] => True
  | a :: _ => Py.isspace a = false
  end.
Proof.
  induction s as [| a s IH]; cbn [Py.lstrip]; [done |].
  by destruct (Py.isspace a) eqn:Ha.
Qed.

Lemma rstrip_fixed (s : str) : Py.rstrip (Py.rstrip s) = Py.rstrip s.
Proof.
  induction s as [| a s IH]; [reflexivity |]. cbn [Py.rstrip].
  destruct (Py.rstrip s) as [| c r] eqn:Hr.
  - destruct (Py.isspace a) eqn:Ha; [reflexivity |]. cbn [Py.rstrip]. by rewrite Ha.
  - change (Py.rstrip (a :: c :: r))
      with (match Py.rstrip (c :: r) with
            | [] => if Py.isspace a then [] else [a]
            | r' => a :: r'
            end).
    by rewrite IH.
Qed.

Lemma strip_fixed (s : str) : Py.strip (Py.strip s) = Py.strip s.
Proof.
  unfold Py.strip. pose proof (lstrip_head s) as Hh.
  destruct (Py.lstrip s) as [| a z] eqn:Hz; [reflexivity |].
  assert (Hl : Py.lstrip (Py.rstrip (a :: z)) = Py.rstrip (a :: z)).
  { cbn [Py.rstrip].
    destruct (Py.rstrip z); rewrite ?Hh; cbn [Py.lstrip]; rewrite ?Hh; reflexivity. }
  rewrite Hl. apply rstrip_fixed.
Qed.

Lemma normalize_tidy (text : option str) :
  Py.strip (_normalize text) = _normalize text
  /\ Spec.collapse false (_normalize text) = _normalize text.
Proof.
  rewrite normalize_refines. unfold Spec.normalize.
  destruct text as [[| x text] |]; [by split | | by split].
  split; [apply strip_fixed |]. apply single_spaced_fixed.
  unfold Py.strip. apply rstrip_single_spaced, lstrip_single_spaced.
  apply collapse_single_spaced.
Qed.

(** C5.  [_normalize] is a function of its input alone, and it computes
    what the contract says, step by step: an empty or null input gives the
    empty string; otherwise the text is lower-cased, every character outside
    word characters and whitespace becomes a space, each of the fillers
    please, could you, would you, hey, jarvis, ok, okay, so, um, uh, the, a,
    an that stands as a whole word is removed, every run of whitespace
    becomes one space and the ends are trimmed.  The result consists of
    lower-case word characters and spaces, and trimming it or collapsing its
    whitespace again changes nothing.  In particular
    [normalize("") == ""] and
    [normalize("Please OPEN the Browser!") == "open browser"]. *)
Theorem normalize_contract :
  (forall text : option str, _normalize text = Spec.normalize text)
  /\ _normalize None = []
  /\ _normalize (Some []) = []
  /\ (forall (text : option str) (a : ascii),
        a ∈ _normalize text ->
        Py.lower_char a = a /\ (Py.isword a = true \/ a = " "%char))
  /\ (forall text : option str, Py.lower (_normalize text) = _normalize text)
  /\ (forall text : option str,
        Py.strip (_normalize text) = _normalize text
        /\ Spec.collapse false (_normalize text) = _normalize text)
  /\ _normalize (Some ("Please OPEN the Browser!" : str)) = "open browser".
Proof.
  split; [exact normalize_refines |]. split; [reflexivity |]. split; [reflexivity |].
  split; [exact normalize_alphabet |].
  split; [| split; [exact normalize_tidy | vm_compute; reflexivity]].
  intros text. unfold Py.lower.
  assert (H : forall l : str,
            (forall a, a ∈ l -> Py.lower_char a = a) -> map Py.lower_char l = l).
  { induction l as [| x l IH]; intros Hl; [reflexivity |]. cbn [map].
    rewrite (Hl x) by (by left). f_equal. apply IH. intros a Ha. apply Hl. by right. }
  apply H. intros a Ha. by apply normalize_alphabet in Ha as [Ha _].
Qed.

End NormalizeFacts.

(** ** Durations and the reminder tiers *)
Section ReminderFacts.
Import Re ReSem CommandProcessor.

(** *** Candidates *)

Lemma first_some_app {A B} (f : A -> option B) (l1 l2 : list A) :
  first_some f (l1 ++ l2) = orelse (first_some f l1) (first_some f l2).
Proof.
  induction l1 as [| x l1 IH]; [reflexivity |]. cbn [app first_some].
  rewrite IH. by destruct (f x).
Qed.

Lemma first_some_map {A A' B} (f : A' -> option B) (h : A -> A') (l : list A) :
  first_some f (map h l) = first_some (fun x => f (h x)) l.
Proof. induction l as [| x l IH]; [reflexivity |]. cbn [map first_some]. by rewrite IH. Qed.

Lemma fmap_orelse {A B} (g : A -> B) (x y : option A) :
  g <$> orelse x y = orelse (g <$> x) (g <$> y).
Proof. by destruct x. Qed.

Lemma fmap_first_some {A B C} (g : B -> C) (f : A -> option B) (l : list A) :
  g <$> first_some f l = first_some (fun x => g <$> f x) l.
Proof.
  induction l as [| x l IH]; [reflexivity |]. cbn [first_some].
  rewrite fmap_orelse, IH. reflexivity.
Qed.

Lemma first_some_ext_in {A B} (f g : A -> option B) (l : list A) :
  (forall x, x ∈ l -> f x = g x) -> first_some f l = first_some g l.
Proof. intros H. apply first_some_ext. by apply Forall_forall. Qed.

Lemma cand_shift (g : bool) (lo len : nat) : cand g (S lo) len = map S (cand g lo len).
Proof. unfold cand. rewrite <- seq_shift. destruct g; [by rewrite map_rev | reflexivity]. Qed.

Lemma first_some_cand_0 {B} (f : nat -> option B) (g : bool) (len : nat) :
  first_some f (cand g 0 (S len))
  = if g then orelse (first_some f (cand g 1 len)) (f 0)
    else orelse (f 0) (first_some f (cand g 1 len)).
Proof.
  unfold cand. destruct g; cbn [seq first_some]; [| reflexivity].
  cbn [rev]. rewrite first_some_app. cbn [first_some]. by rewrite orelse_None_r.
Qed.

Lemma elem_of_cand (g : bool) (lo len n : nat) :
  n ∈ cand g lo len <-> lo <= n < lo + len.
Proof.
  unfold cand. rewrite list_elem_of_In. destruct g; [rewrite <- in_rev |]; rewrite in_seq; lia.
Qed.

(** Among the candidates tried longest first, only the longest counts
    when the shorter ones fail. *)
Lemma first_some_longest {B} (f : nat -> option B) (lo len : nat) :
  (forall n, lo <= n < lo + len -> f n = None) ->
  first_some f (cand true lo (S len)) = f (lo + len).
Proof.
  intros H. unfold cand. rewrite seq_S, rev_app_distr. cbn [rev app first_some].
  rewrite (first_some_none f (rev (seq lo len))); [by rewrite orelse_None_r |].
  apply Forall_forall. intros n Hn. apply H.
  apply list_elem_of_In, in_rev, in_seq in Hn. lia.
Qed.

(** *** Runs *)

Lemma run_span (cs : cset) (s : str) : run cs s = Spec.span (accepts cs) s.
Proof. induction s as [| a s IH]; [reflexivity |]. cbn. by rewrite IH. Qed.

Lemma span_le (p : ascii -> bool) (s : str) : Spec.span p s <= length s.
Proof. induction s as [| a s IH]; cbn; [lia |]. destruct (p a); lia. Qed.

Lemma span_lookup (p : ascii -> bool) (s : str) : forall n,
  n < Spec.span p s -> exists a, s !! n = Some a /\ p a = true.
Proof.
  induction s as [| a s IH]; intros n Hn; cbn in Hn; [lia |].
  destruct (p a) eqn:Hp; [| lia].
  destruct n as [| n]; [by exists a |]. apply IH. lia.
Qed.

Lemma span_stop (p : ascii -> bool) (s : str) (a : ascii) :
  s !! Spec.span p s = Some a -> p a = false.
Proof.
  induction s as [| b s IH]; cbn; [discriminate |].
  destruct (p b) eqn:Hp; [exact IH | by intros [= <-]].
Qed.

Lemma span_all (p : ascii -> bool) (s : str) :
  forallb p (take (Spec.span p s) s) = true.
Proof.
  induction s as [| a s IH]; [reflexivity |]. cbn [Spec.span].
  destruct (p a) eqn:Hp; [| reflexivity]. cbn. by rewrite Hp, IH.
Qed.

(** *** The matcher on repetitions of one character *)

Lemma m_seq (s : str) (r1 r2 : regex) (i : nat) (c : caps) (k : cont) :
  m s (Seq r1 r2) i c k = m s r1 i c (fun j c' => m s r2 j c' k).
Proof. reflexivity. Qed.

Lemma m_group (s : str) (g : nat) (r : regex) (i : nat) (c : caps) (k : cont) :
  m s (Group g r) i c k = m s r i c (fun j c' => k j ((g, (i, j)) :: c')).
Proof. reflexivity. Qed.

Lemma m_alt (s : str) (r1 r2 : regex) (i : nat) (c : caps) (k : cont) :
  m s (Alt r1 r2) i c k = orelse (m s r1 i c k) (m s r2 i c k).
Proof. reflexivity. Qed.

Lemma m_eps (s : str) (i : nat) (c : caps) (k : cont) : m s Eps i c k = k i c.
Proof. reflexivity. Qed.

Lemma m_eos (s : str) (i : nat) (c : caps) (k : cont) :
  m s Eos i c k = if at_end s i then k i c else None.
Proof. reflexivity. Qed.

Lemma m_chr (s : str) (cs : cset) (i : nat) (c : caps) (k : cont) :
  m s (Chr cs) i c k
  = match s !! i with
    | Some a => if accepts cs a then k (S i) c else None
    | None => None
    end.
Proof. reflexivity. Qed.

Lemma run_drop_cases (s : str) (cs : cset) (i : nat) :
  match s !! i with
  | Some a => if accepts cs a then run cs (drop i s) = S (run cs (drop (S i) s))
              else run cs (drop i s) = 0
  | None => run cs (drop i s) = 0
  end.
Proof.
  destruct (s !! i) as [a |] eqn:Ha.
  - rewrite (drop_S s a i Ha). cbn [run]. by destruct (accepts cs a).
  - rewrite drop_ge by (by apply lookup_ge_None). reflexivity.
Qed.

(** A repetition of a one-character pattern tries every length up to the
    run of such characters, the longest first when greedy and the
    shortest first when lazy. *)
Lemma m_star_chr (s : str) (g : bool) (cs : cset) (c : caps) (k : cont) (n : nat) :
  forall i, length s - i <= n ->
  m s (Star g (Chr cs)) i c k
  = first_some (fun l => k (i + l) c) (cand g 0 (S (run cs (drop i s)))).
Proof.
  induction n as [| n IH]; intros i Hn; rewrite star_chr_unfold; cbn zeta;
    pose proof (run_drop_cases s cs i) as Hrun.
  - rewrite (lookup_ge_None_2 s i) in Hrun |- * by lia. rewrite Hrun.
    rewrite first_some_cand_0. cbn [cand seq rev first_some]. rewrite Nat.add_0_r.
    by destruct g.
  - destruct (s !! i) as [a |] eqn:Ha.
    + destruct (accepts cs a).
      * rewrite Hrun, first_some_cand_0, Nat.add_0_r.
        rewrite cand_shift, first_some_map, IH by lia.
        assert (E : first_some (fun l => k (S i + l) c) (cand g 0 (S (run cs (drop (S i) s))))
                    = first_some (fun x => k (i + S x) c)
                        (cand g 0 (S (run cs (drop (S i) s))))).
        { apply first_some_ext_in. intros x _. f_equal. lia. }
        by rewrite E.
      * rewrite Hrun, first_some_cand_0. cbn [cand seq rev first_some].
        rewrite Nat.add_0_r. by destruct g.
    + rewrite Hrun, first_some_cand_0. cbn [cand seq rev first_some].
      rewrite Nat.add_0_r. by destruct g.
Qed.

Lemma m_plus_chr (s : str) (g : bool) (cs : cset) (i : nat) (c : caps) (k : cont) :
  m s (Seq (Chr cs) (Star g (Chr cs))) i c k
  = first_some (fun l => k (i + l) c) (cand g 1 (run cs (drop i s))).
Proof.
  rewrite m_seq, m_chr. pose proof (run_drop_cases s cs i) as Hrun.
  destruct (s !! i) as [a |] eqn:Ha.
  - destruct (accepts cs a).
    + rewrite Hrun, cand_shift, first_some_map.
      rewrite (m_star_chr s g cs c k (length s)) by lia.
      apply first_some_ext_in. intros x _. f_equal. lia.
    + rewrite Hrun. by destruct g.
  - rewrite Hrun. by destruct g.
Qed.

(** *** From positions to suffixes *)

Lemma at_end_drop (s : str) (i : nat) :
  i <= length s ->
  at_end s i
  = bool_decide (drop i s = []) || bool_decide (drop i s = [Spec.newline]).
Proof.
  intros Hi. unfold at_end.
  destruct (drop i s) as [| a [| b t]] eqn:E.
  - apply (f_equal length) in E. rewrite length_drop in E. cbn in E.
    replace (i =? length s) with true by (symmetry; apply Nat.eqb_eq; lia).
    reflexivity.
  - pose proof (f_equal length E) as El. rewrite length_drop in El. cbn in El.
    apply drop_cons_inv in E as [Ha _]. rewrite Ha.
    replace (i =? length s) with false by (symmetry; apply Nat.eqb_neq; lia).
    replace (S i =? length s) with true by (symmetry; apply Nat.eqb_eq; lia).
    cbn [orb andb]. rewrite (bool_decide_eq_false_2 ([a] = [])) by discriminate.
    cbn [orb]. apply bool_decide_ext. unfold Spec.newline. split; intros [= ->]; reflexivity.
  - pose proof (f_equal length E) as El. rewrite length_drop in El. cbn in El.
    replace (i =? length s) with false by (symmetry; apply Nat.eqb_neq; lia).
    replace (S i =? length s) with false by (symmetry; apply Nat.eqb_neq; lia).
    cbn [orb andb].
    rewrite (bool_decide_eq_false_2 (a :: b :: t = [])) by discriminate.
    rewrite (bool_decide_eq_false_2 (a :: b :: t = [Spec.newline])) by discriminate.
    reflexivity.
Qed.

Lemma slice_take (s : str) (i n : nat) : slice s i (i + n) = take n (drop i s).
Proof. unfold slice. by replace (i + n - i) with n by lia. Qed.

Lemma drop_add (s : str) (i n : nat) : drop (i + n) s = drop n (drop i s).
Proof. by rewrite drop_drop. Qed.

(** Within a run of characters of a line the text does not end. *)
Lemma at_end_within (s : str) (j n : nat) :
  n < Spec.span Spec.in_line (drop j s) -> at_end s (j + n) = false.
Proof.
  intros Hn. apply span_lookup in Hn as (a & Ha & Hline).
  rewrite lookup_drop in Ha. unfold at_end. rewrite Ha.
  pose proof (lookup_lt_Some _ _ _ Ha) as Hlt.
  replace (j + n =? length s) with false by (symmetry; apply Nat.eqb_neq; lia).
  cbn [orb]. rewrite bool_decide_eq_false_2; [by rewrite andb_false_r |].
  intros [= ->]. discriminate.
Qed.

(** *** The tail [(.+)$] *)

Lemma m_last_line (s : str) (g : nat) (j : nat) (c : caps) :
  captured s <$> m s (Seq (Group g (Plus any)) Eos) j c accept
  = (fun y => (g, y) :: texts s c) <$> Spec.last_line (drop j s).
Proof.
  rewrite m_seq, m_group. unfold Plus, any. rewrite m_plus_chr. cbn beta.
  unfold Spec.last_line. rewrite run_span.
  change (Spec.span (accepts CAny)) with (Spec.span Spec.in_line).
  pose proof (span_le Spec.in_line (drop j s)) as Hle. rewrite length_drop in Hle.
  pose proof (at_end_within s j) as Hin.
  destruct (Spec.span Spec.in_line (drop j s)) as [| r]; [reflexivity |].
  change (0 <? S r) with true. cbn [andb].
  rewrite (first_some_longest _ 1 r).
  2: { intros n Hn. rewrite m_eos, Hin by lia. reflexivity. }
  rewrite m_eos. replace (j + (1 + r)) with (j + S r) by lia.
  rewrite at_end_drop by lia. rewrite drop_add.
  destruct (_ || _); [| reflexivity].
  unfold captured, texts, accept. cbn [fmap option_fmap option_map snd fst map].
  by rewrite slice_take.
Qed.

(** *** Tier 3: [remind me to (.+)$] *)

Lemma m_remind_to (s : str) (pos : nat) :
  captured s <$> m s _regex_simple_remind pos [] accept
  = (fun x => [(1, x)]) <$> Spec.remind_to_at (drop pos s).
Proof.
  unfold _regex_simple_remind. cbn [seqs]. rewrite m_seq. unfold word. rewrite m_lit.
  unfold Spec.remind_to_at, Spec.after.
  destruct (Py.startswith (drop pos s) _); [| reflexivity].
  cbn [mbind option_bind]. rewrite m_last_line, drop_add. reflexivity.
Qed.

(** *** Tier 1: [remind me (?:to\s+)?(.+?) (?:in|at|on|after)\s+(.+)$] *)

Lemma m_time_at (s : str) (j : nat) (c : caps) :
  captured s <$> m s (Seq (Plus ws) (Seq (Group 2 (Plus any)) Eos)) j c accept
  = (fun y => (2, y) :: texts s c) <$> Spec.time_at (drop j s).
Proof.
  rewrite m_seq. unfold Plus at 1, ws. rewrite m_plus_chr. cbn beta.
  unfold Spec.time_at, Spec.longest_first. rewrite !fmap_first_some, run_span.
  apply first_some_ext_in. intros n _. by rewrite m_last_line, drop_add.
Qed.

Lemma m_when_at (s : str) (j : nat) (c : caps) :
  captured s
    <$> m s (Seq (word " ")
               (Seq (one_of ["in"; "at"; "on"; "after"])
                  (Seq (Plus ws) (Seq (Group 2 (Plus any)) Eos)))) j c accept
  = (fun y => (2, y) :: texts s c) <$> Spec.when_at (drop j s).
Proof.
  rewrite m_seq. unfold word at 1. rewrite m_lit.
  unfold Spec.when_at, Spec.after.
  destruct (Py.startswith (drop j s) _); [| reflexivity].
  cbn [mbind option_bind]. rewrite m_seq.
  change (one_of _) with (alts (map lit Spec.separators)).
  rewrite m_alts_lit by discriminate. rewrite !fmap_first_some.
  apply first_some_ext_in. intros sep _. cbn beta. rewrite <- drop_add.
  destruct (Py.startswith (drop (j + _) s) sep); [| reflexivity].
  cbn [mbind option_bind]. by rewrite m_time_at, drop_add.
Qed.

Lemma m_clause_at (s : str) (i : nat) (c : caps) :
  captured s
    <$> m s (Seq (Group 1 (PlusLazy any))
               (Seq (word " ")
                  (Seq (one_of ["in"; "at"; "on"; "after"])
                     (Seq (Plus ws) (Seq (Group 2 (Plus any)) Eos))))) i c accept
  = (fun xy => (2, snd xy) :: (1, fst xy) :: texts s c) <$> Spec.clause_at (drop i s).
Proof.
  rewrite m_seq, m_group. unfold PlusLazy, any. rewrite m_plus_chr. cbn beta.
  unfold Spec.clause_at, Spec.shortest_first. rewrite !fmap_first_some, run_span.
  apply first_some_ext_in. intros n _. rewrite m_when_at, drop_add.
  rewrite <- option_fmap_compose. unfold texts at 1. cbn [map fst snd].
  by rewrite slice_take.
Qed.

Lemma m_remind_when (s : str) (pos : nat) :
  captured s <$> m s _regex_reminder pos [] accept
  = (fun xy => [(2, snd xy); (1, fst xy)]) <$> Spec.remind_when_at (drop pos s).
Proof.
  unfold _regex_reminder. cbn [seqs]. rewrite m_seq. unfold word at 1. rewrite m_lit.
  unfold Spec.remind_when_at, Spec.after.
  destruct (Py.startswith (drop pos s) _); [| reflexivity].
  cbn [mbind option_bind]. rewrite <- drop_add.
  set (i := pos + _). rewrite m_seq. unfold Opt. rewrite m_alt, m_eps.
  rewrite !fmap_orelse. f_equal; [| apply m_clause_at].
  rewrite m_seq. unfold word at 1. rewrite m_lit.
  destruct (Py.startswith (drop i s) _); [| reflexivity].
  cbn [mbind option_bind]. unfold Plus at 1, ws. rewrite m_plus_chr. cbn beta.
  unfold Spec.longest_first. rewrite !fmap_first_some, run_span, <- drop_add.
  apply first_some_ext_in. intros n _. by rewrite m_clause_at, drop_add.
Qed.

(** *** Tier 2: [(\d+)\s*(second|seconds|minute|minutes|hour|hours)] *)

Lemma startswith_take (rest w : str) :
  Py.startswith rest w = true -> take (length w) rest = w.
Proof.
  revert rest. induction w as [| b w IH]; intros rest Hsw; [reflexivity |].
  destruct rest as [| c rest]; [discriminate |]. cbn [Py.startswith] in Hsw.
  apply andb_prop in Hsw as [Hbc Hsw]. apply Ascii.eqb_eq in Hbc. subst c.
  cbn [length take]. f_equal. by apply IH.
Qed.

Lemma startswith_app (rest w v : str) :
  Py.startswith rest (w ++ v) = true -> Py.startswith rest w = true.
Proof.
  revert rest. induction w as [| b w IH]; intros rest Hsw; [reflexivity |].
  destruct rest as [| c rest]; [discriminate |].
  cbn [app Py.startswith] in *. apply andb_prop in Hsw as [Hbc Hsw].
  rewrite Hbc. cbn [andb]. by apply IH.
Qed.


(** Of the unit words the first that stands at the head of a text is a
    singular: each plural comes after its singular, which stands there
    too. *)
Lemma find_units (rest : str) :
  List.find (Py.startswith rest) Spec.unit_words
  = List.find (Py.startswith rest) Spec.captured_units.
Proof.
  unfold Spec.unit_words, Spec.captured_units. cbn [words map List.find].
  destruct (Py.startswith rest "second") eqn:H1; [reflexivity |].
  destruct (Py.startswith rest "seconds") eqn:H2.
  { apply (startswith_app rest "second" "s") in H2. congruence. }
  destruct (Py.startswith rest "minute") eqn:H3; [reflexivity |].
  destruct (Py.startswith rest "minutes") eqn:H4.
  { apply (startswith_app rest "minute" "s") in H4. congruence. }
  destruct (Py.startswith rest "hour") eqn:H5; [reflexivity |].
  destruct (Py.startswith rest "hours") eqn:H6; [| reflexivity].
  apply (startswith_app rest "hour" "s") in H6. congruence.
Qed.

(** No unit word begins with a digit or with whitespace. *)
Lemma no_unit_at (rest : str) (a : ascii) :
  head rest = Some a -> Py.isdecimal a || Py.isspace a = true ->
  List.find (Py.startswith rest) Spec.unit_words = None.
Proof.
  destruct rest as [| b rest]; [discriminate |]. intros [= ->] Ha.
  assert (H : forall w : str, w ∈ Spec.unit_words -> Py.startswith (a :: rest) w = false).
  { intros w Hw. destruct w as [| x w]; [exfalso |].
    - vm_compute in Hw. repeat (apply elem_of_cons in Hw as [Hw | Hw]; [discriminate |]).
      by apply elem_of_nil in Hw.
    - cbn [Py.startswith]. destruct (Ascii.eqb_spec x a) as [-> | Hne]; [| reflexivity].
      exfalso. unfold Spec.unit_words in Hw. cbn [words map list_ascii_of_string] in Hw.
      repeat (apply elem_of_cons in Hw as [Hw | Hw];
              [injection Hw as -> _; vm_compute in Ha; discriminate Ha |]).
      by apply elem_of_nil in Hw. }
  destruct (List.find _ Spec.unit_words) as [w |] eqn:Hf; [| reflexivity].
  apply find_some in Hf as [Hin Hsw]. apply list_elem_of_In, H in Hin. congruence.
Qed.

(** The units at a position, as the matcher finds them. *)
Lemma m_units (s : str) (j : nat) (c : caps) :
  m s (Group 2 (one_of ["second"; "seconds"; "minute"; "minutes"; "hour"; "hours"]))
    j c accept
  = (fun w => (j + length w, (2, (j, j + length w)) :: c))
      <$> List.find (Py.startswith (drop j s)) Spec.unit_words.
Proof.
  rewrite m_group. change (one_of _) with (alts (map lit Spec.unit_words)).
  rewrite m_alts_lit by discriminate. cbn beta. unfold accept.
  by rewrite first_some_find.
Qed.

Lemma span_head (p : ascii -> bool) (s : str) (n : nat) :
  n < Spec.span p s -> exists a, head (drop n s) = Some a /\ p a = true.
Proof.
  intros Hn. apply span_lookup in Hn as (a & Ha & Hp). exists a. split; [| exact Hp].
  by rewrite <- (Nat.add_0_r n), <- lookup_drop, <- head_lookup in Ha.
Qed.

Lemma span_0 (p : ascii -> bool) (s : str) (a : ascii) :
  head s = Some a -> p a = false -> Spec.span p s = 0.
Proof. destruct s as [| b s]; [discriminate |]. intros [= ->] Hp. cbn. by rewrite Hp. Qed.

(** After the digits: the whitespace, all of it, and a unit word. *)
Lemma m_spaces_units (s : str) (j : nat) (c : caps) :
  m s (Seq (Star true ws)
         (Group 2 (one_of ["second"; "seconds"; "minute"; "minutes"; "hour"; "hours"])))
    j c accept
  = (fun w => let j2 := j + Spec.span Py.isspace (drop j s) in
              (j2 + length w, (2, (j2, j2 + length w)) :: c))
      <$> List.find (Py.startswith (drop (Spec.span Py.isspace (drop j s)) (drop j s)))
            Spec.unit_words.
Proof.
  rewrite m_seq. unfold ws. rewrite (m_star_chr s true CSpace c _ (length s)) by lia.
  rewrite run_span. change (accepts CSpace) with Py.isspace.
  rewrite first_some_longest.
  - cbn beta. rewrite m_units, Nat.add_0_l, drop_add. reflexivity.
  - intros n Hn. rewrite m_units.
    destruct (span_head Py.isspace (drop j s) n ltac:(lia)) as (a & Ha & Hsp).
    rewrite <- drop_add in Ha. rewrite (no_unit_at _ a Ha); [reflexivity |].
    by rewrite Hsp, orb_true_r.
Qed.

Lemma m_duration (s : str) (pos : nat) :
  captured s <$> m s _regex_time_seconds pos [] accept
  = (fun du => [(2, snd du); (1, fst du)]) <$> Spec.duration_at (drop pos s).
Proof.
  unfold _regex_time_seconds. cbn [seqs]. rewrite m_seq, m_group.
  unfold Plus. rewrite m_plus_chr. cbn beta. rewrite run_span.
  change (accepts CDigit) with Py.isdecimal.
  unfold Spec.duration_at.
  destruct (Spec.span Py.isdecimal (drop pos s)) as [| r] eqn:Hr; [reflexivity |].
  rewrite (first_some_longest _ 1 r).
  2: { intros n Hn. rewrite m_spaces_units.
       destruct (span_head Py.isdecimal (drop pos s) n ltac:(lia)) as (a & Ha & Hd).
       rewrite <- drop_add in Ha.
       assert (Hsp : Py.isspace a = false).
       { clear - Hd. destruct a as [[] [] [] [] [] [] [] []]; try discriminate; reflexivity. }
       rewrite (span_0 _ _ a Ha Hsp), drop_0.
       rewrite (no_unit_at _ a Ha); [reflexivity |]. by rewrite Hd. }
  rewrite m_spaces_units, find_units. replace (1 + r) with (S r) by lia.
  rewrite drop_add.
  destruct (take (S r) (drop pos s)) as [| d ds] eqn:Hd.
  { apply (f_equal length) in Hd. rewrite length_take in Hd. cbn [length] in Hd.
    pose proof (span_le Py.isdecimal (drop pos s)) as Hle. rewrite Hr in Hle. lia. }
  rewrite <- Hd. clear Hd d ds.
  destruct (List.find _ Spec.captured_units) as [w |] eqn:Hfind; [| reflexivity].
  apply find_some in Hfind as [_ Hsw].
  unfold captured, texts. cbn [fmap option_fmap option_map snd fst map].
  rewrite !slice_take, !drop_add. by rewrite (startswith_take _ _ Hsw).
Qed.

(** *** From the positions of [search] to the suffixes of the text *)

Lemma scan_first_at {B} (s : str) (r : regex) (obs : nat * caps -> B)
    (head_at : str -> option B) :
  (forall pos, obs <$> m s r pos [] accept = head_at (drop pos s)) ->
  forall fuel pos, pos + fuel = length s ->
  (fun mo => obs (m_end mo, m_caps mo)) <$> scan s r fuel pos false
  = Spec.first_at head_at (drop pos s).
Proof.
  intros H. induction fuel as [| fuel IH]; intros pos Hlen; cbn [scan andb];
    change (fun (j : nat) (c : caps) => Some (j, c)) with accept;
    specialize (H pos).
  - rewrite drop_ge in H |- * by lia. cbn [Spec.first_at]. rewrite <- H.
    by destruct (m s r pos [] accept) as [[j c] |].
  - destruct (lookup_lt_is_Some_2 s pos) as [a Ha]; [lia |].
    rewrite (drop_S s a pos Ha) in H |- *. cbn [Spec.first_at]. rewrite <- H.
    destruct (m s r pos [] accept) as [[j c] |]; [reflexivity |].
    cbn [fmap option_fmap option_map]. apply IH. lia.
Qed.

Lemma search_first_at {B} (s : str) (r : regex) (obs : nat * caps -> B)
    (head_at : str -> option B) :
  (forall pos, obs <$> m s r pos [] accept = head_at (drop pos s)) ->
  (fun mo => obs (m_end mo, m_caps mo)) <$> search s r = Spec.first_at head_at s.
Proof. intros H. unfold search. by rewrite (scan_first_at s r obs head_at H). Qed.

Lemma fmap_first_at {B C} (g : B -> C) (f : str -> option B) (s : str) :
  g <$> Spec.first_at f s = Spec.first_at (fun rest => g <$> f rest) s.
Proof.
  induction s as [| a s IH]; cbn [Spec.first_at].
  - by destruct (f []).
  - destruct (f (a :: s)); [reflexivity | exact IH].
Qed.

(** A group of a match object, from the captures as texts. *)
Lemma group_texts (s : str) (mo : match_obj) (n : nat) :
  group s mo (S n)
  = snd <$> List.find (fun p => fst p =? S n) (texts s (m_caps mo)).
Proof.
  cbn [group]. unfold cap_lookup, texts.
  induction (m_caps mo) as [| [g [a b]] c IH]; [reflexivity |].
  cbn [List.find map fst snd]. destruct (g =? S n); [reflexivity | exact IH].
Qed.

(** What [search] finds for the three patterns of the reminder. *)
Lemma search_remind_when (s : str) :
  match search s _regex_reminder with
  | Some mo => exists x y, Spec.remind_when s = Some (x, y)
                           /\ group s mo 1 = Some x /\ group s mo 2 = Some y
  | None => Spec.remind_when s = None
  end.
Proof.
  pose proof (search_first_at s _regex_reminder (captured s)
                (fun rest => (fun xy => [(2, snd xy); (1, fst xy)])
                               <$> Spec.remind_when_at rest)
                (m_remind_when s)) as H.
  rewrite <- fmap_first_at in H. fold (Spec.remind_when s) in H.
  destruct (search s _regex_reminder) as [mo |];
    destruct (Spec.remind_when s) as [[x y] |]; try discriminate; [| reflexivity].
  exists x, y. split; [reflexivity |]. injection H as H. unfold captured in H.
  cbn [snd fst] in H. rewrite !group_texts, H. split; reflexivity.
Qed.

Lemma search_duration (s : str) :
  match search s _regex_time_seconds with
  | Some mo => exists digits unit, Spec.duration s = Some (digits, unit)
                                   /\ group s mo 1 = Some digits
                                   /\ group s mo 2 = Some unit
  | None => Spec.duration s = None
  end.
Proof.
  pose proof (search_first_at s _regex_time_seconds (captured s)
                (fun rest => (fun du => [(2, snd du); (1, fst du)])
                               <$> Spec.duration_at rest)
                (m_duration s)) as H.
  rewrite <- fmap_first_at in H. fold (Spec.duration s) in H.
  destruct (search s _regex_time_seconds) as [mo |];
    destruct (Spec.duration s) as [[x y] |]; try discriminate; [| reflexivity].
  exists x, y. split; [reflexivity |]. injection H as H. unfold captured in H.
  cbn [snd fst] in H. rewrite !group_texts, H. split; reflexivity.
Qed.

Lemma search_remind_to (s : str) :
  match search s _regex_simple_remind with
  | Some mo => exists x, Spec.remind_to s = Some x /\ group s mo 1 = Some x
  | None => Spec.remind_to s = None
  end.
Proof.
  pose proof (search_first_at s _regex_simple_remind (captured s)
                (fun rest => (fun x => [(1, x)]) <$> Spec.remind_to_at rest)
                (m_remind_to s)) as H.
  rewrite <- fmap_first_at in H. fold (Spec.remind_to s) in H.
  destruct (search s _regex_simple_remind) as [mo |];
    destruct (Spec.remind_to s) as [x |]; try discriminate; [| reflexivity].
  exists x. split; [reflexivity |]. injection H as H. unfold captured in H.
  cbn [snd fst] in H. rewrite !group_texts, H. reflexivity.
Qed.

(** *** Numbers *)

Lemma fold_number (digits : str) : forall acc : Z,
  fold_left (fun acc c => 10 * acc + Py.digit_val c)%Z digits acc
  = (acc * 10 ^ Z.of_nat (length digits) + Spec.number digits)%Z.
Proof.
  induction digits as [| d digits IH]; intros acc.
  - cbn. lia.
  - cbn [fold_left Spec.number length]. rewrite IH.
    rewrite Nat2Z.inj_succ. rewrite Z.pow_succ_r by lia. ring.
Qed.

(** [int] on a run of digits: the number it writes, up to the limit. *)
Lemma int_digits (digits : str) :
  digits <> [] -> forallb Py.isdecimal digits = true ->
  Py.int digits
  = if (Z.of_nat (length digits) <=? Py.max_str_digits)%Z
    then Ok (Spec.number digits) else Raise ValueError.
Proof.
  intros Hne Hall. unfold Py.int. destruct digits as [| d digits]; [done |].
  rewrite Hall. destruct (_ <=? _)%Z; [| reflexivity].
  rewrite fold_number. f_equal; lia.
Qed.

Lemma first_at_suffix {B} (f : str -> option B) (s : str) (b : B) :
  Spec.first_at f s = Some b -> exists pre rest, s = pre ++ rest /\ f rest = Some b.
Proof.
  induction s as [| a s IH]; cbn [Spec.first_at].
  - destruct (f []) eqn:E; [| discriminate]. intros [= <-]. by exists [], [].
  - destruct (f (a :: s)) eqn:E.
    + intros [= <-]. by exists [], (a :: s).
    + intros H. apply IH in H as (pre & rest & -> & H). by exists (a :: pre), rest.
Qed.

(** The digits of a duration: a run of decimal digits of the text. *)
Lemma duration_digits (s digits unit : str) :
  Spec.duration s = Some (digits, unit) ->
  digits <> [] /\ forallb Py.isdecimal digits = true
  /\ length digits <= length s /\ unit ∈ Spec.captured_units.
Proof.
  intros H. apply first_at_suffix in H as (pre & rest & -> & H).
  unfold Spec.duration_at in H.
  pose proof (span_all Py.isdecimal rest) as Hall.
  pose proof (span_le Py.isdecimal rest) as Hle.
  destruct (take (Spec.span Py.isdecimal rest) rest) as [| d ds] eqn:Hd; [discriminate |].
  destruct (List.find _ Spec.captured_units) as [w |] eqn:Hf; [| discriminate].
  injection H as <- <-. split; [discriminate |]. split; [exact Hall |].
  split.
  - rewrite <- Hd, length_take, length_app. lia.
  - apply find_some in Hf as [Hin _]. by apply list_elem_of_In.
Qed.

(** *** The reminder branch of [_extract_params] *)

Lemma extract_reminder_spec (text raw : str) :
  _extract_params "reminder" text raw = Spec.reminder raw.
Proof.
  unfold _extract_params, Spec.reminder.
  repeat match goal with
         | |- context [is_intent ?a ?b] =>
             let v := eval vm_compute in (is_intent a b) in
             change (is_intent a b) with v
         end.
  cbv [mbind result_mbind result_bind].
  pose proof (search_remind_when (Py.lower raw)) as H1.
  destruct (search (Py.lower raw) _regex_reminder) as [mo |].
  { destruct H1 as (x & y & -> & Hx & Hy). unfold group_strip. by rewrite Hx, Hy. }
  rewrite H1. clear H1.
  pose proof (search_duration (Py.lower raw)) as H2.
  destruct (search (Py.lower raw) _regex_time_seconds) as [mo2 |].
  { destruct H2 as (digits & unit & Hd & Hg1 & Hg2). rewrite Hd.
    apply duration_digits in Hd as (Hne & Hall & _ & _).
    unfold group_int, group_value. rewrite Hg1, Hg2, (int_digits digits Hne Hall).
    by destruct (_ <=? _)%Z. }
  rewrite H2. clear H2.
  pose proof (search_remind_to (Py.lower raw)) as H3.
  destruct (search (Py.lower raw) _regex_simple_remind) as [mo3 |].
  { destruct H3 as (x & -> & Hx). unfold group_strip. by rewrite Hx. }
  by rewrite H3.
Qed.

(** *** The tiers, read as decompositions of the text *)














(** *** The tiers apply to every text that reads so *)



















End ReminderFacts.

(** ** Resolution: what [process] returns, and when it raises *)
Section OutcomeFacts.
Import Re ReSem CommandProcessor.

Lemma number_nonneg (digits : str) :
  forallb Py.isdecimal digits = true -> (0 <= Spec.number digits)%Z.
Proof.
  induction digits as [| d digits IH]; [intros _; cbn; lia |].
  cbn [forallb Spec.number]. intros H. apply andb_prop in H as [Hd H].
  specialize (IH H). unfold Py.digit_val, Py.isdecimal, Py.between in *.
  apply andb_prop in Hd as [Hd _]. apply Nat.leb_le in Hd.
  assert (0 <= 10 ^ Z.of_nat (length digits))%Z by (apply Z.pow_nonneg; lia).
  nia.
Qed.

(** A duration too long for [int] needs a text longer than the limit. *)
Lemma overlong_long (raw : str) :
  Spec.overlong raw = true -> (Py.max_str_digits < Z.of_nat (length raw))%Z.
Proof.
  unfold Spec.overlong.
  destruct (Spec.duration (Py.lower raw)) as [[digits unit] |] eqn:E; [| discriminate].
  apply duration_digits in E as (_ & _ & Hlen & _).
  unfold Py.lower in Hlen. rewrite length_map in Hlen.
  intros H. apply Z.ltb_lt in H. lia.
Qed.

(** The reminder branch returns the parameters of the table, or raises
    the [ValueError] of [int]. *)
Lemma extract_reminder_outcome (text raw : str) :
  match _extract_params "reminder" text raw with
  | Ok p => Spec.extracted "reminder" p
  | Raise e => e = ValueError /\ Spec.overlong raw = true
  end.
Proof.
  rewrite extract_reminder_spec. unfold Spec.reminder, Spec.overlong.
  destruct (Spec.remind_when _) as [[x y] |]; [constructor |].
  destruct (Spec.duration _) as [[digits unit] |].
  - destruct (Z.leb_spec (Z.of_nat (length digits)) Py.max_str_digits) as [Hle | Hgt].
    + constructor.
    + split; [reflexivity | by apply Z.ltb_lt].
  - destruct (Spec.remind_to _); constructor.
Qed.

Lemma extract_reminder_raises (text raw : str) :
  _extract_params "reminder" text raw = Raise ValueError
  <-> Spec.remind_when (Py.lower raw) = None /\ Spec.overlong raw = true.
Proof.
  rewrite extract_reminder_spec. unfold Spec.reminder, Spec.overlong.
  destruct (Spec.remind_when _) as [[x y] |]; [split; [discriminate | by intros [? _]] |].
  destruct (Spec.duration _) as [[digits unit] |].
  - destruct (Z.leb_spec (Z.of_nat (length digits)) Py.max_str_digits) as [Hle | Hgt].
    + split; [discriminate |]. intros [_ H]. apply Z.ltb_lt in H. lia.
    + split; [| reflexivity]. intros _. split; [reflexivity | by apply Z.ltb_lt].
  - destruct (Spec.remind_to _); (split; [discriminate | by intros [_ ?]]).
Qed.

Lemma outcome_total (intent : string) (raw : str) (r : result (gmap string value)) :
  (exists p, r = Ok p /\ Spec.extracted intent p) -> Spec.outcome intent raw r.
Proof. by intros (p & -> & H). Qed.

(** Extraction on the catalog: the parameters of the table, and no
    exception but that of the reminder. *)
Lemma extract_params_outcome :
  Forall (fun d : string * IntentSpec =>
            forall text raw, Spec.outcome (fst d) raw (_extract_params (fst d) text raw))
         intent_definitions.
Proof.
  unfold intent_definitions.
  repeat (apply Forall_cons; split; [cbn [fst]; intros text raw |]);
    [| | | | | | | | | | | | | by apply Forall_nil].
  - apply outcome_total. done_extracted.
  - apply outcome_total. done_extracted.
  - apply outcome_total, extract_weather.
  - apply outcome_total, extract_wikipedia.
  - apply outcome_total, extract_search.
  - apply outcome_total, extract_open_app.
  - apply outcome_total, extract_system_status.
  - pose proof (extract_reminder_outcome text raw) as H. unfold Spec.outcome.
    destruct (_extract_params "reminder" text raw); [exact H |].
    destruct H as [-> H]. auto.
  - apply outcome_total, extract_volume.
  - apply outcome_total, extract_voice_style.
  - apply outcome_total. done_extracted.
  - apply outcome_total. done_extracted.
  - apply outcome_total, extract_listening.
Qed.

(** Resolution over a catalog yields a catalog entry with its parameters
    or the sentinel, and raises only what the extraction raises. *)
Lemma resolve_outcome (defs : list (string * IntentSpec)) (text : option str) :
  defs <> [] ->
  Forall (fun d : string * IntentSpec =>
            forall text raw, Spec.outcome (fst d) raw (_extract_params (fst d) text raw)) defs ->
  match Spec.resolve defs text with
  | Ok cmd =>
      (In (action cmd) (map fst defs) /\ Spec.extracted (action cmd) (params cmd))
      \/ cmd = Spec.unknown (text_value text)
  | Raise e =>
      e = ValueError /\ exists raw, text = Some raw /\ Spec.overlong raw = true
  end.
Proof.
  intros Hne Hall. rewrite Forall_forall in Hall.
  assert (Hcmd : forall (d : string * IntentSpec) (t raw : str), In d defs ->
            match command_for (fst d) t raw with
            | Ok cmd =>
                (In (action cmd) (map fst defs)
                 /\ Spec.extracted (action cmd) (params cmd))
                \/ cmd = Spec.unknown (text_value (Some raw))
            | Raise e =>
                e = ValueError
                /\ exists raw', Some raw = Some raw' /\ Spec.overlong raw' = true
            end).
  { intros d t raw Hd.
    pose proof (Hall d (proj2 (list_elem_of_In _ _) Hd) t raw) as H.
    unfold command_for, Spec.outcome in *.
    destruct (_extract_params (fst d) t raw) as [p | e]; cbn.
    - left. split; [by apply in_map | exact H].
    - destruct H as (-> & _ & H). split; [reflexivity |]. by exists raw. }
  unfold Spec.resolve. destruct text as [[| c raw] |]; [by right | | by right].
  set (text := _normalize (Some (c :: raw))).
  destruct (List.find (Spec.pattern_matches text) defs) as [d |] eqn:Hfind.
  { apply find_some in Hfind as [Hd _]. by apply Hcmd. }
  destruct (first_max_nonempty (Spec.overlap (_tokens text)) defs Hne) as [d Hd].
  rewrite Hd. apply first_max_In in Hd.
  destruct (Qle_bool _ _); [by apply Hcmd |].
  destruct (List.find (Spec.required_present _) defs) as [d' |] eqn:Hfind'.
  - apply find_some in Hfind' as [Hd' _]. by apply Hcmd.
  - by right.
Qed.

(** What [process] returns, and the one way it raises. *)
Lemma process_outcome (text : option str) :
  match process text with
  | Ok cmd =>
      action cmd ∈ Spec.action_names
      /\ if bool_decide (action cmd = "unknown")
         then params cmd = {["text" := text_value text]}
         else Spec.extracted (action cmd) (params cmd)
  | Raise e =>
      e = ValueError /\ exists raw, text = Some raw /\ Spec.overlong raw = true
  end.
Proof.
  unfold process. rewrite process_with_resolve.
  pose proof (resolve_outcome intent_definitions text ltac:(discriminate)
                extract_params_outcome) as H.
  destruct (Spec.resolve intent_definitions text) as [cmd | e]; [| exact H].
  destruct H as [[Hin Hex] | ->].
  - split.
    + unfold Spec.action_names. apply elem_of_app. left. by apply list_elem_of_In.
    + rewrite bool_decide_eq_false_2; [exact Hex |].
      intros Heq. rewrite Heq in Hin. vm_compute in Hin.
      repeat (destruct Hin as [Hin | Hin]; [discriminate |]). exact Hin.
  - split; [vm_compute; repeat constructor | reflexivity].
Qed.

(** [process] returns on every text within the limit of [int]. *)
Lemma process_returns (raw : str) :
  (Z.of_nat (length raw) <= Py.max_str_digits)%Z -> exists cmd, process (Some raw) = Ok cmd.
Proof.
  intros Hlen. pose proof (process_outcome (Some raw)) as H.
  destruct (process (Some raw)) as [cmd | e]; [by exists cmd |].
  destruct H as (_ & raw' & [= <-] & H). apply overlong_long in H. lia.
Qed.

(** *** A text that makes [process] raise *)

Lemma feasible_sound (s : str) (ok : ascii -> bool) (r : regex) :
  forallb ok s = true -> feasible ok r = false ->
  forall i c j c', ~ matches s r i c j c'.
Proof.
  intros Hs. rewrite forallb_forall in Hs.
  induction r as [| cs | r1 IH1 r2 IH2 | r1 IH1 r2 IH2 | g r IH | n r IH | |];
    intros Hf i c j c' Hm; cbn [feasible matches] in *; try discriminate.
  - destruct cs; try discriminate. destruct Hm as (a & Ha & Hacc & _).
    cbn [accepts] in Hacc. apply Ascii.eqb_eq in Hacc. subst a.
    apply list_elem_of_lookup_2, list_elem_of_In, Hs in Ha. congruence.
  - destruct Hm as (l & c1 & H1 & H2). apply andb_false_iff in Hf as [Hf | Hf].
    + by apply (IH1 Hf i c l c1).
    + by apply (IH2 Hf l c1 j c').
  - apply orb_false_iff in Hf as [Hf1 Hf2]. destruct Hm as [Hm | Hm].
    + by apply (IH1 Hf1 i c j c').
    + by apply (IH2 Hf2 i c j c').
  - destruct Hm as (c1 & Hm & _). by apply (IH Hf i c j c1).
Qed.

(** No pattern of the intent can match in a text over the characters
    [ok]. *)
Lemma infeasible_intent (s : str) (ok : ascii -> bool) (d : string * IntentSpec) :
  forallb ok s = true ->
  forallb (fun pat => negb (feasible ok pat)) (patterns (snd d)) = true ->
  Spec.pattern_matches s d = false.
Proof.
  intros Hs Hd. unfold Spec.pattern_matches.
  induction (patterns (snd d)) as [| pat pats IH]; [reflexivity |].
  cbn [forallb existsb] in *. apply andb_prop in Hd as [Hpat Hd].
  rewrite (IH Hd), orb_false_r. apply bool_decide_eq_false. intros [mo Hmo].
  apply search_sound in Hmo. apply negb_true_iff in Hpat.
  by apply (feasible_sound s ok pat Hs Hpat) in Hmo.
Qed.

Lemma find_after {A} (f : A -> bool) (pre : list A) (x : A) (post : list A) :
  forallb (fun d => negb (f d)) pre = true -> f x = true ->
  List.find f (pre ++ x :: post) = Some x.
Proof.
  intros Hpre Hx. induction pre as [| y pre IH]; cbn [app List.find].
  - by rewrite Hx.
  - cbn [forallb] in Hpre. apply andb_prop in Hpre as [Hy Hpre].
    apply negb_true_iff in Hy. rewrite Hy. by apply IH.
Qed.

(** A text in which the first intent with a matching pattern is [d]
    resolves to [d]. *)
Lemma resolve_pattern (catalog : list (string * IntentSpec)) (raw text : str)
    (pre post : list (string * IntentSpec)) (d : string * IntentSpec) (ok : ascii -> bool) :
  raw <> [] -> catalog = pre ++ d :: post ->
  _normalize (Some raw) = text ->
  forallb ok text = true ->
  forallb (fun d' => forallb (fun pat => negb (feasible ok pat)) (patterns (snd d'))) pre
  = true ->
  Spec.pattern_matches text d = true ->
  Spec.resolve catalog (Some raw) = command_for (fst d) text raw.
Proof.
  intros Hne -> Htext Hok Hpre Hd. destruct raw as [| a raw]; [done |].
  unfold Spec.resolve. rewrite Htext.
  rewrite (find_after _ pre d post); [reflexivity | | exact Hd].
  clear Hd. induction pre as [| y pre IH]; [reflexivity |].
  cbn [forallb] in *. apply andb_prop in Hpre as [Hy Hpre].
  rewrite (infeasible_intent _ ok y Hok Hy). cbn [negb andb]. by apply IH.
Qed.

(** "remind <4301 ones> seconds" is a reminder by its pattern
    [\b(remind|reminder)\b]; it does not read "remind me ...", so the
    duration tier applies, and [int] refuses the 4301 digits. *)
Lemma overlong_reminder_raises :
  process (Some Spec.overlong_reminder) = Raise ValueError.
Proof.
  unfold process. rewrite process_with_resolve.
  rewrite (resolve_pattern intent_definitions Spec.overlong_reminder
             Spec.overlong_reminder
             (take 7 intent_definitions)
             (drop 8 intent_definitions)
             ("reminder",
              mkIntent (words ["remind"; "reminder"; "remember"; "remind me"])
                [seqs [WordB; Group 1 (one_of ["remind"; "reminder"]); WordB];
                 seqs [WordB; word "remember"; WordB]])
             (fun a => existsb (Ascii.eqb a) ("remind 1secon" : str))).
  - unfold command_for. rewrite extract_reminder_spec.
    replace (Spec.reminder Spec.overlong_reminder) with
      (Raise ValueError : result (gmap string value)) by (vm_compute; reflexivity).
    reflexivity.
  - intros E. apply (f_equal length) in E. vm_compute in E. discriminate.
  - reflexivity.
  - vm_compute. reflexivity.
  - vm_compute. reflexivity.
  - vm_compute. reflexivity.
  - vm_compute. reflexivity.
Qed.

(** C4, counterexample.  On "remind <4301 ones> seconds", a text of 4316
    characters, [process] raises: the text is a reminder, the duration tier
    applies, and [int] refuses the 4301 digits with a [ValueError], which
    nothing in [process] catches. *)
Lemma process_raises_on_overlong_duration :
  length Spec.overlong_reminder = 4316
  /\ process (Some Spec.overlong_reminder) = Raise ValueError.
Proof. split; [vm_compute; reflexivity | exact overlong_reminder_raises]. Qed.

(** C4, amended.  [process] returns a command for every input that holds
    no duration of more than 4300 digits, in particular for every input
    of at most 4300 characters: its action is one of the fourteen names,
    the thirteen of the catalog and the sentinel [unknown]; under [unknown]
    the params hold the input as [text], and under a catalog intent they
    hold exactly the keys the intent defines, with a string, an integer,
    [None] or the documented default as value.  The one exception it can
    raise is the [ValueError] of [int]: extraction raises it for a
    reminder, and exactly when the text does not read "remind me [to] X
    <in|at|on|after> Y" and its first duration has more than 4300 digits.
    [_extract_params] itself behaves so for every catalog intent and every
    pair of texts. *)
Theorem process_total_well_formed :
  length Spec.action_names = 14
  /\ (forall text : option str,
        match process text with
        | Ok cmd =>
            action cmd ∈ Spec.action_names
            /\ if bool_decide (action cmd = "unknown")
               then params cmd = {["text" := text_value text]}
               else Spec.extracted (action cmd) (params cmd)
        | Raise e =>
            e = ValueError
            /\ exists raw, text = Some raw /\ Spec.overlong raw = true
        end)
  /\ (forall raw : str,
        (Z.of_nat (length raw) <= Py.max_str_digits)%Z ->
        exists cmd, process (Some raw) = Ok cmd)
  /\ (forall text raw : str,
        _extract_params "reminder" text raw = Raise ValueError
        <-> Spec.remind_when (Py.lower raw) = None /\ Spec.overlong raw = true)
  /\ Forall (fun d : string * IntentSpec =>
               forall text raw,
                 match _extract_params (fst d) text raw with
                 | Ok p => Spec.extracted (fst d) p
                 | Raise e =>
                     e = ValueError /\ fst d = "reminder" /\ Spec.overlong raw = true
                 end)
            intent_definitions.
Proof.
  split; [reflexivity |]. split; [exact process_outcome |].
  split; [exact process_returns |]. split; [exact extract_reminder_raises |].
  exact extract_params_outcome.
Qed.

End OutcomeFacts.

(** ** Repeat and undo *)
Section RepeatFacts.
Import Jarvis.

(** [process] yields one of the fourteen action names. *)
Lemma process_action_names (text : option str) (cmd : Command) :
  CommandProcessor.process text = Ok cmd -> action cmd ∈ Spec.action_names.
Proof.
  intros H. pose proof (process_outcome text) as Ho. rewrite H in Ho. by destruct Ho.
Qed.

Lemma action_names_plain (a : string) :
  a ∈ Spec.action_names -> a <> "repeat" /\ a <> "mode_switch".
Proof.
  intros Ha. split; intros ->; vm_compute in Ha;
    repeat (apply elem_of_cons in Ha as [Ha | Ha]; [discriminate |]);
    by apply elem_of_nil in Ha.
Qed.

(** C3, the defect.  The help text tells the user to say "repeat that" or
    "undo", and [_execute_command] has a branch for the action [repeat],
    but no input is ever resolved to it: the catalog has no such intent.
    So the repeat and undo dispatch of the claim never takes place: after
    "what time is it", the inputs "repeat that" and "undo" are dispatched
    as unknown commands, the time handler has been called once, not
    again, and the controller answers that it did not understand. *)
Theorem repeat_is_never_dispatched (functions : Call -> str) (clock d : nat) :
  let inputs :=
    [Props.said "what time is it"; Props.said "repeat that"; Props.said "undo"] in
  let j := snd (start (S d) inputs (__init__ functions clock)) in
  Py.contains "say 'repeat that' or 'undo'" help_text = true
  /\ (forall (text : option str) (cmd : Command),
        CommandProcessor.process text = Ok cmd -> action cmd <> "repeat")
  /\ CommandProcessor.process (Some ("repeat that" : str))
     = Ok (Spec.unknown (VStr "repeat that"))
  /\ CommandProcessor.process (Some ("undo" : str)) = Ok (Spec.unknown (VStr "undo"))
  /\ map SessionManager.command
       (SessionManager.items (SessionManager.command_history (session j)))
     = [mkCommand "time" ∅; Spec.unknown (VStr "repeat that"); Spec.unknown (VStr "undo")]
  /\ handled j = [get_time]
  /\ drop (length (SpeechEngine.spoken (speech j)) - 2) (SpeechEngine.spoken (speech j))
     = [Props.not_understood; Props.not_understood].
Proof.
  intros inputs j. subst inputs j.
  split; [vm_compute; reflexivity |].
  split.
  { intros text cmd H. apply process_action_names, action_names_plain in H. tauto. }
  split; [vm_compute; reflexivity |].
  split; [vm_compute; reflexivity |].
  split; [vm_compute; reflexivity |].
  split; [vm_compute; reflexivity |].
  vm_compute. destruct (functions get_time); reflexivity.
Qed.

End RepeatFacts.

(** * Further properties of the code *)

(** ** Controller steps and what they keep *)
Section Dispatch.
Import Jarvis.
Variable P : t -> Prop.

Lemma keeps_ret {A} (a : A) : Props.keeps P (mret a).
Proof. intros j Hj. exact Hj. Qed.

Lemma keeps_raise {A} (e : exn) : Props.keeps P (raise (A := A) e).
Proof. intros j Hj. exact Hj. Qed.

Lemma keeps_gets {A} (f : t -> A) : Props.keeps P (gets f).
Proof. intros j Hj. exact Hj. Qed.

Lemma keeps_lift {A} (r : result A) : Props.keeps P (lift r).
Proof. intros j Hj. exact Hj. Qed.

Lemma keeps_bind {A B} (x : M A) (f : A -> M B) :
  Props.keeps P x -> (forall a, Props.keeps P (f a)) -> Props.keeps P (x ≫= f).
Proof.
  intros Hx Hf j Hj. specialize (Hx j Hj).
  cbv [mbind M_bind bind]. destruct (x j) as [[a | e] j']; cbn [snd] in *.
  - by apply Hf.
  - exact Hx.
Qed.

Lemma keeps_getitem (params : gmap string value) (key : string) :
  Props.keeps P (getitem params key).
Proof. unfold getitem. destruct (params !! key); [apply keeps_ret | apply keeps_raise]. Qed.

Lemma keeps_try_except (body : M unit) (handler : exn -> M unit) :
  Props.keeps P body -> (forall e, Props.keeps P (handler e)) ->
  Props.keeps P (try_except body handler).
Proof.
  intros Hb Hh j Hj. specialize (Hb j Hj). unfold try_except.
  destruct (body j) as [[[] | e] j']; cbn [snd] in *; [exact Hb | by apply Hh].
Qed.


Lemma snd_bind {A B} (x : M A) (f : A -> M B) (j : t) :
  snd ((x ≫= f) j)
  = match fst (x j) with
    | Ok a => snd (f a (snd (x j)))
    | Raise _ => snd (x j)
    end.
Proof. cbv [mbind M_bind bind]. by destruct (x j) as [[a | e] j']. Qed.

Hypothesis P_speak : forall text, Props.keeps P (speak text).
Hypothesis P_call : forall c, Props.harmless c = true -> Props.keeps P (call c).
Hypothesis P_style : forall style j,
  P j -> P (snd (set_speech (SpeechEngine._apply_voice_style style) j)).
Hypothesis P_running : forall b, Props.keeps P (set_running b).
Hypothesis P_continuous : forall b, Props.keeps P (set_continuous b).

Ltac keeps_step :=
  first
    [ apply keeps_bind; [| intros ? ]
    | apply keeps_ret | apply keeps_raise | apply keeps_gets
    | apply keeps_lift | apply keeps_getitem
    | apply P_speak | apply P_running | apply P_continuous
    | apply P_call; reflexivity
    | match goal with
      | |- Props.keeps _ (if ?b then _ else _) => destruct b eqn:?
      | |- Props.keeps _ (match ?o with Some _ => _ | None => _ end) => destruct o
      end ].

Lemma keeps_change_style (style : value) :
  Props.keeps P
    (fun j => let '(ok, e) := SpeechEngine.change_voice_style style (speech j) in
              (Ok ok, snd (set_speech (fun _ => e) j))).
Proof.
  intros j Hj. unfold SpeechEngine.change_voice_style.
  pose proof (P_style style j Hj) as H.
  unfold SpeechEngine._apply_voice_style in H |- *.
  destruct (SpeechEngine.style_settings style); cbn [snd] in *.
  - exact H.
  - destruct j as [[] ? ? ? ? ? ? ? ?]. exact Hj.
Qed.

Lemma is_action_true (a n : string) : is_action a n = true -> a = n.
Proof. apply String.eqb_eq. Qed.

(** Whatever holds once the command is recorded in the history still
    holds when the dispatch is over, provided the steps this command can
    reach keep it. *)
Lemma execute_command_keeps (d : nat) (c : Command) (j : t) :
  P (snd ((t ← now; set_session (SessionManager.add_to_history t c)) j)) ->
  (action c = "repeat" -> forall c', Props.keeps P (_execute_command d c')) ->
  (SessionManager.needs_confirmation (action c) = true ->
   SessionManager.pending_confirmation (session j) = None ->
   forall p m, Props.keeps P
     (set_session (SessionManager.set_pending_confirmation (action c) p m))) ->
  (SessionManager.needs_confirmation (action c) = true ->
   is_Some (SessionManager.pending_confirmation (session j)) ->
   (forall a, Props.keeps P (call (open_application a)))
   /\ (forall s says, Props.keeps P (set_session (SessionManager.set_alarm s says)))) ->
  (action c = "volume" ->
   forall a, Props.keeps P (set_speech (SpeechEngine.adjust_volume a))) ->
  (action c = "mode_switch" -> forall m, Props.keeps P (set_mode m)) ->
  P (snd (_execute_command (S d) c j)).
Proof.
  intros H1 Hrep Hgate Hsens Hvol Hmode.
  cbn [_execute_command]. rewrite snd_bind.
  match goal with
  | |- context [fst (?x j)] => change (fst (x j)) with (@Ok unit tt)
  end.
  cbv iota. rewrite snd_bind.
  match goal with
  | |- context [fst (gets ?f ?j1)] =>
      change (fst (gets f j1)) with (Ok (SessionManager.pending_confirmation (session j)));
      change (snd (gets f j1)) with j1
  end.
  cbv iota.
  match goal with
  | |- P (snd (?x ?j1)) => cut (Props.keeps P x); [intros Hk; by apply Hk |]
  end.
  clear H1.
  match goal with
  | |- Props.keeps P (if _ then _ else ?br) =>
      assert (Hbr : (SessionManager.needs_confirmation (action c) = true ->
                     is_Some (SessionManager.pending_confirmation (session j))) ->
                    Props.keeps P br)
  end.
  { intros Himp.
    assert (Hopen : action c = "open_app" ->
                    forall a, Props.keeps P (call (open_application a))).
    { intros E. apply Hsens; [| apply Himp]; by rewrite E. }
    assert (Halarm : action c = "alarm" \/ action c = "reminder" ->
                     forall s says,
                       Props.keeps P (set_session (SessionManager.set_alarm s says))).
    { intros E. apply Hsens; [| apply Himp]; by destruct E as [-> | ->]. }
    repeat match goal with
           | |- Props.keeps P (if is_action (action c) ?n then _ else _) =>
               let E := fresh "E" in
               destruct (is_action (action c) n) eqn:E;
               [apply is_action_true in E |]
           end;
      try (unfold _set_alarm, _set_reminder, _switch_mode, _show_help,
             _handle_listening_mode);
      try (repeat keeps_step; fail).
    - repeat keeps_step. by apply Hopen.
    - repeat keeps_step. apply Halarm. by left.
    - repeat keeps_step. apply Halarm. by right.
    - repeat keeps_step. apply keeps_change_style.
    - repeat keeps_step; by apply Hvol.
    - repeat keeps_step; by apply Hmode.
    - unfold _handle_repeat_with. repeat keeps_step; by apply Hrep. }
  destruct (SessionManager.needs_confirmation (action c)) eqn:Hneed; cbn [andb];
    [| by apply Hbr].
  case_bool_decide as Hpend; cbn [negb]; [by apply Hbr |].
  assert (Hnone : SessionManager.pending_confirmation (session j) = None).
  { destruct (SessionManager.pending_confirmation (session j)); [| reflexivity].
    exfalso. apply Hpend. by eexists. }
  unfold _request_confirmation.
  repeat keeps_step; by apply Hgate.
Qed.


End Dispatch.

(** ** The main loop *)
Section RunFacts.
Import Jarvis.

Lemma steady_refl (j : t) : Props.steady j j.
Proof.
  split; [by left | reflexivity | | by left].
  exists []. by rewrite app_nil_r.
Qed.

Lemma steady_trans (a b c : t) : Props.steady a b -> Props.steady b c -> Props.steady a c.
Proof.
  intros [Hm1 Ha1 (l1 & Hh1 & Hl1) Hp1] [Hm2 Ha2 (l2 & Hh2 & Hl2) Hp2]. split.
  - destruct Hm2 as [Hm2 | Hm2]; [rewrite Hm2; exact Hm1 | by right].
  - by rewrite Ha2.
  - exists (l1 ++ l2). rewrite Hh2, Hh1, <- app_assoc. split; [reflexivity |].
    rewrite forallb_app, Hl1, Hl2. reflexivity.
  - intros p Hp. destruct (Hp2 p Hp) as [H | H]; [by apply Hp1 | by right].
Qed.

(** A step that moves every state steadily keeps steadiness from any
    starting point. *)
Lemma keeps_steady {A} (x : M A) (j0 : t) :
  (forall j, Props.steady j (snd (x j))) -> Props.keeps (Props.steady j0) x.
Proof. intros Hx j Hj. eapply steady_trans; [exact Hj | apply Hx]. Qed.

Ltac steady_same :=
  split; cbn;
  [ by left | reflexivity | by (exists []; rewrite app_nil_r) | by (intros ? ?; left) ].

Lemma speak_steady (text : str) (j : t) : Props.steady j (snd (speak text j)).
Proof. steady_same. Qed.

Lemma call_steady (c : Call) (j : t) :
  Props.harmless c = true -> Props.steady j (snd (call c j)).
Proof.
  intros Hc. split; cbn; [by left | reflexivity | | by (intros ? ?; left)].
  exists [c]. split; [reflexivity |]. cbn. by rewrite Hc.
Qed.

Lemma set_speech_steady (f : SpeechEngine.t -> SpeechEngine.t) (j : t) :
  Props.steady j (snd (set_speech f j)).
Proof. steady_same. Qed.

Lemma set_pending_steady (a : string) (p : gmap string value) (m : str) (j : t) :
  SessionManager.needs_confirmation a = true ->
  Props.steady j (snd (set_session (SessionManager.set_pending_confirmation a p m) j)).
Proof.
  intros Ha. split; cbn; [by left | reflexivity | by (exists []; rewrite app_nil_r) |].
  intros q Hq. right. inversion Hq. exact Ha.
Qed.

(** Dispatching a command that is neither a mode switch nor a repeat,
    with no confirmation pending, is steady: a sensitive command stops at
    the gate, and the others reach no sensitive handler. *)
Lemma execute_command_steady (d : nat) (c : Command) (j : t) :
  SessionManager.pending_confirmation (session j) = None ->
  action c <> "repeat" -> action c <> "mode_switch" ->
  Props.steady j (snd (_execute_command d c j)).
Proof.
  intros Hnone Hrep Hmode. destruct d as [| d]; [apply steady_refl |].
  apply execute_command_keeps.
  - intros text. apply keeps_steady. intros. apply speak_steady.
  - intros k Hk. apply keeps_steady. intros. by apply call_steady.
  - intros style j1 Hj1. eapply steady_trans; [exact Hj1 | apply set_speech_steady].
  - intros b. apply keeps_steady. intros. steady_same.
  - intros b. apply keeps_steady. intros. steady_same.
  - steady_same.
  - intros E. contradiction.
  - intros Hneed _ p m. apply keeps_steady. intros. by apply set_pending_steady.
  - intros _ [q Hq]. rewrite Hnone in Hq. discriminate.
  - intros _ a. apply keeps_steady. intros. apply set_speech_steady.
  - intros E. contradiction.
Qed.


Lemma speech_error_steady (error : option str) (j : t) :
  Props.steady j (snd (_handle_speech_error error j)).
Proof.
  unfold _handle_speech_error.
  repeat case_bool_decide; try (split; cbn; [by right | reflexivity
    | by (exists []; rewrite app_nil_r) | by (intros ? ?; left)]).
  destruct error as [error |]; [| apply steady_refl].
  destruct (Py.contains "network_error" error);
    [| case_bool_decide];
    split; cbn; try (by right); try (by left); try reflexivity;
    try (by (exists []; rewrite app_nil_r)); by (intros ? ?; left).
Qed.

(** What holds after [x ≫= f]: follow [x], then [f] or the exception. *)
Lemma bind_post {A B} (x : M A) (f : A -> M B) (j : t) (Q : t -> Prop) :
  (forall a j', x j = (Ok a, j') -> Q (snd (f a j'))) ->
  (forall e j', x j = (Raise e, j') -> Q j') ->
  Q (snd ((x ≫= f) j)).
Proof.
  intros Hok Hraise. cbv [mbind M_bind bind].
  destruct (x j) as [[a | e] j']; cbn [snd]; eauto.
Qed.

Lemma pending_confirmation_steady (d : nat) (input : Input) (j : t) :
  Props.pending_sensitive j ->
  Props.steady j (snd (_handle_pending_confirmation d input j)).
Proof.
  intros Hsens. unfold _handle_pending_confirmation, Props.pending_sensitive in *.
  apply bind_post; [| intros e j' [=]]. intros pending j' [= <- <-].
  unfold SessionManager.get_pending_confirmation.
  destruct (SessionManager.pending_confirmation (session j)) as [p |] eqn:Hp;
    [| apply steady_refl].
  apply bind_post; [| intros e j' [=]]. intros mode j' [= <- <-].
  apply bind_post.
  2: { intros e j' E. case_bool_decide.
       - destruct (SpeechEngine.listen (mic input)) as [[[] text] err]; discriminate.
       - discriminate. }
  intros response j1 E.
  assert (Hj1 : Props.steady j j1
                /\ SessionManager.pending_confirmation (session j1) = Some p).
  { case_bool_decide.
    - destruct (SpeechEngine.listen (mic input)) as [[[] text] err];
        inversion E; subst; split; try apply steady_refl; try exact Hp.
      apply speak_steady.
    - inversion E; subst. split; [apply speak_steady | exact Hp]. }
  clear E. destruct Hj1 as [Hj1 Hp1].
  destruct response as [text |]; [| exact Hj1].
  destruct (affirmative text).
  - apply bind_post.
    2: { intros e j' E. destruct (SessionManager.confirm_action _); discriminate. }
    intros confirmed j2 E. unfold SessionManager.confirm_action in E.
    rewrite Hp1 in E. inversion E; subst. clear E.
    apply bind_post; [| intros e j' [=]]. intros [] j3 [= <-].
    eapply steady_trans; [exact Hj1 |].
    eapply steady_trans; [| apply execute_command_steady].
    + destruct Hj1. split; cbn; [by left | reflexivity
        | by (exists []; rewrite app_nil_r) | intros ? [=]].
    + reflexivity.
    + cbn [action]. intros E. rewrite E in Hsens. discriminate.
    + cbn [action]. intros E. rewrite E in Hsens. discriminate.
  - apply bind_post; [| intros e j' [=]]. intros [] j2 [= <-].
    eapply steady_trans; [exact Hj1 |].
    split; cbn; [by left | reflexivity | by (exists []; rewrite app_nil_r) | intros ? [=]].
Qed.

Lemma bind_inv {A B} (x : M A) (f : A -> M B) (j j' : t) (r : result B) :
  (x ≫= f) j = (r, j') ->
  (exists a j1, x j = (Ok a, j1) /\ f a j1 = (r, j'))
  \/ (exists e, x j = (Raise e, j') /\ r = Raise e).
Proof.
  cbv [mbind M_bind bind]. destruct (x j) as [[a | e] j1]; intros E.
  - left. by exists a, j1.
  - right. inversion E; subst. by exists e.
Qed.

Lemma try_except_post (body : M unit) (handler : exn -> M unit) (j : t)
    (Q : t -> Prop) :
  Q (snd (body j)) -> (forall e, Props.keeps Q (handler e)) ->
  Q (snd (try_except body handler j)).
Proof.
  intros Hb Hh. unfold try_except.
  destruct (body j) as [[[] | e] j']; cbn [snd] in *; [exact Hb | by apply Hh].
Qed.

Lemma run_iteration_steady (d : nat) (input : Input) (j : t) :
  Props.pending_sensitive j ->
  Props.steady j (snd (run_iteration d input j)).
Proof.
  intros Hsens. unfold run_iteration. apply try_except_post.
  2: { intros e. apply keeps_steady. intros. apply speak_steady. }
  apply bind_post; [| intros e j' [=]]. intros pending j' [= <- <-].
  unfold SessionManager.get_pending_confirmation.
  destruct (SessionManager.pending_confirmation (session j)) as [p |] eqn:Hp.
  { by apply pending_confirmation_steady. }
  apply bind_post; [| intros e j' [=]]. intros mode j' [= <- <-].
  apply bind_post.
  - intros acquired j1 E.
    assert (Hj1 : Props.steady j j1
                  /\ (is_Some acquired ->
                      SessionManager.pending_confirmation (session j1) = None)).
    { case_bool_decide.
      - destruct (SpeechEngine.listen (mic input)) as [[[] text] err].
        + inversion E; subst. split; [apply steady_refl | by intros _].
        + apply bind_inv in E as [([] & j2 & Herr & [= <- <-]) | (e & _ & [=])].
          split; [| by intros [? ?]].
          pose proof (speech_error_steady err j) as H'. by rewrite Herr in H'.
      - apply bind_inv in E as [([] & j2 & [= <-] & E) | (e & [=] & _)].
        destruct (SpeechEngine.get_manual_input (keyboard input)) as [[| a text] |];
          inversion E; subst;
          (split; [apply speak_steady | by intros _ || by intros [? ?]]). }
    clear E. destruct Hj1 as [Hj1 Hnone].
    destruct acquired as [text |]; [| exact Hj1].
    specialize (Hnone (ltac:(by eexists))).
    destruct (CommandProcessor.process text) as [cmd | e] eqn:Hcmd.
    2: { apply bind_post; [intros c j2 [=] | intros e' j2 [= <- <-]; exact Hj1]. }
    apply process_action_names, action_names_plain in Hcmd as [Hrep Hmode].
    apply bind_post; [| intros e j' [=]]. intros c j2 [= <- <-].
    apply bind_post; [| intros e j' [=]]. intros m j2 [= <- <-].
    apply bind_post; [| intros e j' [=]]. intros [] j2 [= <-].
    eapply steady_trans; [exact Hj1 |].
    eapply steady_trans; [| by apply execute_command_steady].
    steady_same.
  - intros e j1 E. case_bool_decide.
    + destruct (SpeechEngine.listen (mic input)) as [[[] text] err]; [discriminate |].
      apply bind_inv in E as [([] & j2 & _ & [=]) | (e' & Herr & _)].
      pose proof (speech_error_steady err j) as H'. by rewrite Herr in H'.
    + apply bind_inv in E as [([] & j2 & _ & E) | (e' & [=] & _)].
      destruct (SpeechEngine.get_manual_input (keyboard input)) as [[| a text] |];
        discriminate.
Qed.

Lemma steady_pending_sensitive (j j' : t) :
  Props.steady j j' -> Props.pending_sensitive j -> Props.pending_sensitive j'.
Proof.
  intros [_ _ _ Hp] Hj. unfold Props.pending_sensitive in *.
  destruct (SessionManager.pending_confirmation (session j')) as [p |]; [| exact I].
  destruct (Hp p eq_refl) as [H | H]; [by rewrite H in Hj | exact H].
Qed.

Lemma run_steady (d : nat) (inputs : list Input) : forall j : t,
  Props.pending_sensitive j -> Props.steady j (snd (run d inputs j)).
Proof.
  induction inputs as [| input inputs IH]; intros j Hj; [apply steady_refl |].
  cbn [run]. apply bind_post; [| intros e j' [=]]. intros running j' [= <- <-].
  destruct (is_running j); [| apply steady_refl].
  pose proof (run_iteration_steady d input j Hj) as H1.
  apply bind_post.
  - intros [] j1 E. rewrite E in H1. cbn [snd] in H1.
    eapply steady_trans; [exact H1 |]. apply IH.
    by apply (steady_pending_sensitive j).
  - intros e j1 E. by rewrite E in H1.
Qed.

Lemma start_steady (d : nat) (inputs : list Input) (j : t) :
  Props.pending_sensitive j -> Props.steady j (snd (start d inputs j)).
Proof.
  intros Hj. unfold start.
  apply bind_post; [| intros e j' [=]]. intros [] j1 [= <-].
  apply bind_post; [| intros e j' [=]]. intros [] j2 [= <-].
  apply bind_post; [| intros e j' [=]]. intros [] j3 [= <-].
  eapply steady_trans; [| apply run_steady; exact Hj].
  steady_same.
Qed.

(** X1.  In a run from a fresh controller, whatever the inputs, no
    sensitive handler is ever reached: no alarm or reminder thread is
    started and [open_application] is never called.  A sensitive command
    stops at the confirmation gate, its confirmation is dispatched through
    the same gate again, and [process] yields no [repeat] command that
    could dispatch it otherwise. *)
Theorem sensitive_handlers_never_run (functions : Call -> str) (clock d : nat)
    (inputs : list Input) :
  let j := snd (start d inputs (__init__ functions clock)) in
  SessionManager.alarm_threads (session j) = []
  /\ (forall app, open_application app ∉ handled j).
Proof.
  intros j.
  destruct (start_steady d inputs (__init__ functions clock) I)
    as [_ Ha (l & Hl & Hh) _].
  fold j in Ha, Hl. cbn in Ha, Hl. rewrite Hl.
  split; [exact Ha |].
  intros app Hin. rewrite forallb_forall in Hh.
  apply list_elem_of_In in Hin. apply Hh in Hin. discriminate.
Qed.

(** X2.  Manual mode is absorbing.  In a state whose pending
    confirmation, if any, is for a sensitive action (the fresh controller
    is such a state, and a run leads from such states to such states), a
    run that starts in manual mode ends in manual mode, whatever is typed:
    [process] has no intent that yields [mode_switch], so [_switch_mode]
    is never reached. *)
Theorem manual_mode_is_absorbing (d : nat) (inputs : list Input) (j : t) :
  Props.pending_sensitive j ->
  current_mode j = Config.MODE_MANUAL ->
  current_mode (snd (run d inputs j)) = Config.MODE_MANUAL
  /\ Props.pending_sensitive (snd (run d inputs j)).
Proof.
  intros Hj Hm. pose proof (run_steady d inputs j Hj) as Hs. split.
  - destruct Hs as [[H | H] _ _ _]; congruence.
  - by apply (steady_pending_sensitive j).
Qed.


(** *** Muting *)

Lemma speak_hushed (text : str) (j : t) : Props.hushed j (snd (speak text j)).
Proof. intros Hm. cbn. unfold SpeechEngine.speak. rewrite Hm. by split. Qed.

Lemma keeps_hushed {A} (x : M A) (j0 : t) :
  (forall j, Props.hushed j (snd (x j))) -> Props.keeps (Props.hushed j0) x.
Proof.
  intros Hx j Hj Hm. destruct (Hj Hm) as [Hm1 Hs1].
  destruct (Hx j Hm1) as [Hm2 Hs2]. split; [exact Hm2 | by rewrite Hs2].
Qed.

Lemma execute_command_hushed (d : nat) (c : Command) (j : t) :
  action c <> "repeat" -> action c <> "volume" ->
  Props.hushed j (snd (_execute_command d c j)).
Proof.
  intros Hrep Hvol. destruct d as [| d]; [by intros Hm |].
  apply execute_command_keeps.
  - intros text. apply keeps_hushed. intros. apply speak_hushed.
  - intros k _. apply keeps_hushed. intros j1 Hm. by split.
  - intros style j1 Hj1 Hm. destruct (Hj1 Hm) as [Hm1 Hs1]. cbn.
    unfold SpeechEngine._apply_voice_style.
    destruct (SpeechEngine.style_settings style); by split.
  - intros b. apply keeps_hushed. intros j1 Hm. by split.
  - intros b. apply keeps_hushed. intros j1 Hm. by split.
  - intros Hm. by split.
  - intros E. contradiction.
  - intros _ _ p m. apply keeps_hushed. intros j1 Hm. by split.
  - intros _ _. split.
    + intros a. apply keeps_hushed. intros j1 Hm. by split.
    + intros s says. apply keeps_hushed. intros j1 Hm. by split.
  - intros E. contradiction.
  - intros _ m. apply keeps_hushed. intros j1 Hm. by split.
Qed.

(** X4.  While the engine is muted, the dispatch of any command other
    than [volume] and [repeat] says nothing and leaves the engine muted.
    The dispatch still has its effects: an [open_app] command with no
    confirmation pending is stored as pending, its prompt unspoken. *)
Theorem muted_dispatch_is_silent (d : nat) (c : Command) (j : t) :
  action c <> "repeat" -> action c <> "volume" ->
  SpeechEngine.is_muted (speech j) = true ->
  let j' := snd (_execute_command d c j) in
  SpeechEngine.is_muted (speech j') = true
  /\ SpeechEngine.spoken (speech j') = SpeechEngine.spoken (speech j)
  /\ (forall app,
        action c = "open_app" -> params c !! "app" = Some app ->
        SessionManager.pending_confirmation (session j) = None ->
        0 < d ->
        SessionManager.pending_confirmation (session j')
        = Some (SessionManager.mkPending "open_app" (params c)
                  ("Do you want me to open " ++ fmt app ++ "? Say yes or no."))).
Proof.
  intros Hrep Hvol Hm j'.
  destruct (execute_command_hushed d c j Hrep Hvol Hm) as [H1 H2].
  split; [exact H1 |]. split; [exact H2 |].
  intros app Ha Happ Hnone Hd. subst j'.
  destruct d as [| d]; [lia |]. destruct c as [a p]. cbn in Ha, Happ. subst a.
  destruct (execute_open_app_gated d j p app Hnone Happ) as (j1 & E & _ & Hp).
  by rewrite E.
Qed.

Lemma muted_dispatch_is_silent_witness :
  let j := snd (set_speech (SpeechEngine.adjust_volume (VStr "mute"))
                  (__init__ (fun _ => []) 0)) in
  let c := mkCommand "open_app" {["app" := VStr "notepad"]} in
  SpeechEngine.is_muted (speech j) = true
  /\ SpeechEngine.spoken (speech (snd (_execute_command 1 c j))) = []
  /\ is_Some (SessionManager.pending_confirmation (session (snd (_execute_command 1 c j)))).
Proof.
  intros j c. split; [reflexivity |].
  destruct (muted_dispatch_is_silent 1 c j) as (_ & H2 & H3);
    [discriminate | discriminate | reflexivity |].
  split; [exact H2 |]. eexists. apply (H3 (VStr "notepad")); try reflexivity. lia.
Defined.

(** X5.  The inputs "mute" and "unmute" resolve to the same command,
    [volume] with the adjustment [mute], and its dispatch toggles
    [is_muted] whatever the state; the volume and the handlers are left
    alone.  The acknowledgement is spoken after the toggle, so "Voice
    muted" is never said: the only thing said is "Voice unmuted", when the
    engine was muted. *)
Theorem mute_command_toggles (d : nat) (j : t) :
  let mute := mkCommand "volume" {["adjustment" := VStr "mute"]} in
  let r := _execute_command (S d) mute j in
  CommandProcessor.process (Some ("mute" : str)) = Ok mute
  /\ CommandProcessor.process (Some ("unmute" : str)) = Ok mute
  /\ fst r = Ok tt
  /\ SpeechEngine.is_muted (speech (snd r)) = negb (SpeechEngine.is_muted (speech j))
  /\ SpeechEngine.spoken (speech (snd r))
     = SpeechEngine.spoken (speech j)
       ++ (if SpeechEngine.is_muted (speech j) then ["Voice unmuted" : str] else [])
  /\ SpeechEngine.base_volume (speech (snd r)) = SpeechEngine.base_volume (speech j)
  /\ handled (snd r) = handled j.
Proof.
  intros mute r.
  split; [vm_compute; reflexivity |]. split; [vm_compute; reflexivity |].
  subst r mute. cbn [_execute_command action params].
  change (SessionManager.needs_confirmation "volume") with false. cbn [andb].
  cbv [is_action]. cbn [String.eqb Ascii.eqb Bool.eqb].
  change (getitem {["adjustment" := VStr "mute"]} "adjustment") with (ret (VStr "mute")).
  cbv [mbind M_bind bind ret gets now set_session set_speech modify speak].
  cbn [fst snd speech handled].
  rewrite (bool_decide_eq_true_2 (VStr "mute" = VStr "mute")) by reflexivity.
  unfold SpeechEngine.adjust_volume.
  rewrite (bool_decide_eq_false_2 (VStr "mute" = VStr "louder")) by discriminate.
  rewrite (bool_decide_eq_false_2 (VStr "mute" = VStr "softer")) by discriminate.
  rewrite (bool_decide_eq_true_2 (VStr "mute" = VStr "mute")) by reflexivity.
  unfold SpeechEngine.speak. cbn [SpeechEngine.is_muted].
  destruct (SpeechEngine.is_muted (speech j)); cbn; rewrite ?app_nil_r; auto.
Qed.

(** *** The history records every dispatch *)

(** X6.  [_execute_command] records the command before anything else:
    when the dispatch of a command other than [repeat] is over, whether it
    ran a handler, stopped at the confirmation gate or raised, the command
    is the most recent history entry, stamped with the clock reading at
    the call. *)
Theorem dispatch_is_recorded (d : nat) (c : Command) (j : t) :
  action c <> "repeat" ->
  0 < SessionManager.maxlen (SessionManager.command_history (session j)) ->
  let j' := snd (_execute_command (S d) c j) in
  SessionManager.get_last_command (session j') = Ok (Some c)
  /\ Spec.from_end (SessionManager.items (SessionManager.command_history (session j'))) 1
     = Some (SessionManager.mkEntry c (clock j)).
Proof.
  intros Hrep Hmax j'.
  set (P := fun j1 : t =>
         Spec.from_end (SessionManager.items
                          (SessionManager.command_history (session j1))) 1
         = Some (SessionManager.mkEntry c (clock j))).
  assert (HP : P j').
  { apply execute_command_keeps; try (intros; intros j1 Hj1; exact Hj1);
      try (intros E; contradiction).
    - intros style j1 Hj1. exact Hj1.
    - unfold P. cbn. by apply deque_append_last.
    - intros _ _. split; intros; intros j1 Hj1; exact Hj1. }
  split; [| exact HP]. rewrite get_last_command_spec. unfold P in HP. by rewrite HP.
Qed.

Lemma dispatch_is_recorded_witness :
  let c := mkCommand "search" ∅ in
  let j := __init__ (fun _ => []) 7 in
  fst (_execute_command 1 c j) = Raise (KeyError "query")
  /\ SessionManager.get_last_command (session (snd (_execute_command 1 c j)))
     = Ok (Some c).
Proof.
  intros c j. split; [reflexivity |].
  apply (dispatch_is_recorded 0 c j); [discriminate | apply Nat.ltb_lt; reflexivity].
Defined.


Lemma manual_mode_is_absorbing_witness :
  let j := snd (_handle_speech_error (Some ("timeout" : str)) (__init__ (fun _ => []) 0)) in
  let typed := mkInput (fun _ => SpeechEngine.WaitTimeoutError) (Ok ("voice mode" : str)) in
  current_mode j = Config.MODE_MANUAL
  /\ current_mode (snd (run 3 [typed; typed] j)) = Config.MODE_MANUAL.
Proof.
  intros j typed. split; [reflexivity |].
  exact (proj1 (manual_mode_is_absorbing 3 [typed; typed] j I eq_refl)).
Defined.

(** *** A pending confirmation and a silent microphone *)

Lemma pending_voice_failure (d : nat) (input : Input) (j : t) (p : SessionManager.Pending) :
  SessionManager.pending_confirmation (session j) = Some p ->
  current_mode j = Config.MODE_VOICE ->
  fst (fst (SpeechEngine.listen (mic input))) = false ->
  run_iteration d input j = (Ok tt, snd (speak Props.unheard j)).
Proof.
  intros Hp Hmode Hfail. unfold run_iteration, try_except, _handle_pending_confirmation.
  cbv [mbind M_bind bind gets ret]. unfold SessionManager.get_pending_confirmation.
  rewrite Hp. cbv iota beta. rewrite Hp, Hmode. cbv iota beta.
  rewrite bool_decide_eq_true_2 by reflexivity.
  destruct (SpeechEngine.listen (mic input)) as [[[] text] err]; [discriminate |].
  reflexivity.
Qed.

(** X3.  While a confirmation is pending in voice mode, a failed
    [listen] never falls back to manual mode: each pass of the loop only
    says that the answer was not heard, and leaves the session (the
    pending confirmation included), the mode, the run flag and the
    handlers as they were, for as many passes as the failures last. *)
Theorem pending_confirmation_blocks_fallback (d : nat) (inputs : list Input) (j : t)
    (p : SessionManager.Pending) :
  SessionManager.pending_confirmation (session j) = Some p ->
  current_mode j = Config.MODE_VOICE ->
  is_running j = true ->
  Forall (fun input => fst (fst (SpeechEngine.listen (mic input))) = false) inputs ->
  let r := run d inputs j in
  fst r = Ok tt
  /\ session (snd r) = session j
  /\ current_mode (snd r) = Config.MODE_VOICE
  /\ is_running (snd r) = true
  /\ handled (snd r) = handled j
  /\ (SpeechEngine.is_muted (speech j) = false ->
      SpeechEngine.spoken (speech (snd r))
      = SpeechEngine.spoken (speech j) ++ replicate (length inputs) Props.unheard).
Proof.
  intros Hp Hmode Hrun Hall. revert j Hp Hmode Hrun.
  induction Hall as [| input inputs Hfail _ IH]; intros j Hp Hmode Hrun r.
  { subst r. cbn. repeat split; try reflexivity; try assumption.
    intros _. by rewrite app_nil_r. }
  subst r. cbn [run]. cbv [mbind M_bind bind gets]. rewrite Hrun.
  rewrite (pending_voice_failure d input j p Hp Hmode Hfail).
  destruct (IH (snd (speak Props.unheard j)) Hp Hmode Hrun) as (H1 & H2 & H3 & H4 & H5 & H6).
  split; [exact H1 |]. split; [exact H2 |]. split; [exact H3 |].
  split; [exact H4 |]. split; [exact H5 |].
  intros Hm. rewrite H6.
  - cbn. unfold SpeechEngine.speak. rewrite Hm. cbn. by rewrite <- app_assoc.
  - cbn. unfold SpeechEngine.speak. rewrite Hm. reflexivity.
Qed.

Lemma pending_confirmation_blocks_fallback_witness :
  let open := mkCommand "open_app" {["app" := VStr "notepad"]} in
  let j := mkJarvis SpeechEngine.__init__
             (SessionManager.set_pending_confirmation "open_app" (params open) "?"
                SessionManager.__init__)
             (fun _ => []) [] [] Config.MODE_VOICE true false 0 in
  let dead := mkInput (fun _ => SpeechEngine.WaitTimeoutError) (Ok []) in
  current_mode (snd (run 2 [dead; dead; dead] j)) = Config.MODE_VOICE
  /\ current_mode (snd (run 2 [dead; dead; dead]
                          (mkJarvis (speech j) SessionManager.__init__ (functions j) []
                             [] Config.MODE_VOICE true false 0)))
     = Config.MODE_MANUAL.
Proof.
  intros open j dead. split; [| reflexivity].
  eapply (pending_confirmation_blocks_fallback 2 [dead; dead; dead] j);
    [reflexivity | reflexivity | reflexivity |].
  repeat constructor.
Defined.


(** *** What is logged *)

(** No dispatch, whatever the command and the depth, touches the log. *)
Lemma execute_command_keeps_log (d : nat) (l : list (str * str)) : forall c : Command,
  Props.keeps (fun j => logged j = l) (_execute_command d c).
Proof.
  induction d as [| d IH]; intros c j Hj; [exact Hj |].
  apply execute_command_keeps; try (intros; intros j1 Hj1; exact Hj1).
  - intros style j1 Hj1. exact Hj1.
  - exact Hj.
  - intros _. exact IH.
  - intros _ _. split; intros; intros j1 Hj1; exact Hj1.
Qed.

Lemma error_keeps_log (error : option str) (j : t) :
  logged (snd (_handle_speech_error error j)) = logged j.
Proof.
  unfold _handle_speech_error.
  repeat case_bool_decide; try reflexivity.
  destruct error as [error |]; [| reflexivity].
  destruct (Py.contains "network_error" error); [reflexivity |].
  by case_bool_decide.
Qed.

(** What one pass of the main loop logs. *)
Lemma logged_in_one_pass (d : nat) (input : Input) (j : t) :
  let j' := snd (run_iteration d input j) in
  (is_Some (SessionManager.pending_confirmation (session j)) -> logged j' = logged j)
  /\ (SessionManager.pending_confirmation (session j) = None ->
      logged j'
      = logged j
        ++ (if bool_decide (current_mode j = Config.MODE_VOICE) then
              match SpeechEngine.listen (mic input) with
              | (true, text, _) =>
                  match CommandProcessor.process text with
                  | Ok _ => [(default ("None" : str) text, current_mode j)]
                  | Raise _ => []
                  end
              | (false, _, _) => []
              end
            else
              match SpeechEngine.get_manual_input (keyboard input) with
              | Some (c :: text) =>
                  match CommandProcessor.process (Some (c :: text)) with
                  | Ok _ => [(c :: text, current_mode j)]
                  | Raise _ => []
                  end
              | _ => []
              end)).
Proof.
  intros j'. subst j'. unfold run_iteration. split.
  - intros [p Hp]. apply try_except_post; [| intros e j1 Hj1; exact Hj1].
    apply bind_post; [| intros e j' [=]]. intros pending j' [= <- <-].
    unfold SessionManager.get_pending_confirmation. rewrite Hp.
    unfold _handle_pending_confirmation.
    apply bind_post; [| intros e j' [=]]. intros pending j' [= <- <-].
    unfold SessionManager.get_pending_confirmation. rewrite Hp.
    apply bind_post; [| intros e j' [=]]. intros mode j' [= <- <-].
    apply bind_post.
    2: { intros e j' E. case_bool_decide.
         - destruct (SpeechEngine.listen (mic input)) as [[[] text] err]; discriminate.
         - discriminate. }
    intros response j1 E.
    assert (Hj1 : logged j1 = logged j).
    { case_bool_decide.
      - by destruct (SpeechEngine.listen (mic input)) as [[[] text] err];
          inversion E; subst.
      - by inversion E; subst. }
    clear E. destruct response as [text |]; [| exact Hj1].
    destruct (affirmative text).
    + apply bind_post.
      2: { intros e j' E. destruct (SessionManager.confirm_action _); discriminate. }
      intros confirmed j2 E.
      assert (Hj2 : logged j2 = logged j).
      { destruct (SessionManager.confirm_action (session j1)); inversion E; subst.
        exact Hj1. }
      clear E. destruct confirmed as [confirmed |]; [| exact Hj2].
      apply bind_post; [| intros e j' [=]]. intros [] j3 [= <-].
      by apply execute_command_keeps_log.
    + apply bind_post; [| intros e j' [=]]. intros [] j2 [= <-]. exact Hj1.
  - intros Hp.
    set (l := logged j ++ _).
    apply try_except_post; [| intros e j1 Hj1; exact Hj1].
    apply bind_post; [| intros e j' [=]]. intros pending j' [= <- <-].
    unfold SessionManager.get_pending_confirmation. rewrite Hp.
    apply bind_post; [| intros e j' [=]]. intros mode j' [= <- <-].
    subst l. case_bool_decide as Hmode.
    + destruct (SpeechEngine.listen (mic input)) as [[[] text] err].
      * apply bind_post; [| intros e j' [=]]. intros acquired j1 [= <- <-].
        destruct (CommandProcessor.process text) as [cmd | e].
        2: { rewrite app_nil_r.
             by apply bind_post; [intros c j2 [=] | intros e' j2 [= <- <-]]. }
        apply bind_post; [| intros e j' [=]]. intros c j2 [= <- <-].
        apply bind_post; [| intros e j' [=]]. intros m j2 [= <- <-].
        apply bind_post; [| intros e j' [=]]. intros [] j2 [= <-].
        by apply execute_command_keeps_log.
      * rewrite app_nil_r. apply bind_post.
        -- intros acquired j1 E.
           apply bind_inv in E as [([] & j2 & Herr & [= <- <-]) | (e & _ & [=])].
           pose proof (error_keeps_log err j) as H. by rewrite Herr in H.
        -- intros e j1 E.
           apply bind_inv in E as [([] & j2 & _ & [=]) | (e' & Herr & _)].
           pose proof (error_keeps_log err j) as H. by rewrite Herr in H.
    + apply bind_post.
      2: { intros e j1 E.
           apply bind_inv in E as [([] & j2 & _ & E) | (e' & [=] & _)].
           destruct (SpeechEngine.get_manual_input (keyboard input)) as [[| a text] |];
             discriminate. }
      intros acquired j1 E.
      apply bind_inv in E as [([] & j2 & [= <-] & E) | (e & [=] & _)].
      destruct (SpeechEngine.get_manual_input (keyboard input)) as [[| a text] |];
        inversion E; subst; rewrite ?app_nil_r; try reflexivity.
      destruct (CommandProcessor.process (Some (a :: text))) as [cmd | e].
      2: { rewrite app_nil_r.
           by apply bind_post; [intros c j2 [=] | intros e' j2 [= <- <-]]. }
      apply bind_post; [| intros e j' [=]]. intros c j2 [= <- <-].
      apply bind_post; [| intros e j' [=]]. intros m j2 [= <- <-].
      apply bind_post; [| intros e j' [=]]. intros [] j2 [= <-].
      by apply execute_command_keeps_log.
Qed.

(** X7.  One pass of the main loop logs at most one entry.  With a
    confirmation pending nothing is logged, so the answers to a prompt
    and the commands dispatched on them leave no trace.  Otherwise the
    text acquired, if any, is first resolved by [process] and then logged:
    when [process] returns, the text is logged once, with the mode in
    force, before the dispatch and whatever the dispatch does; when
    [process] raises, the pass ends in the error handler and nothing is
    logged, as on a reminder whose duration has more than 4300 digits.  A
    failed [listen], an empty line and a failing [input] log nothing. *)
Theorem commands_are_logged_once (d : nat) (input : Input) (j : t) :
  let j' := snd (run_iteration d input j) in
  (is_Some (SessionManager.pending_confirmation (session j)) -> logged j' = logged j)
  /\ (SessionManager.pending_confirmation (session j) = None ->
      logged j'
      = logged j
        ++ (if bool_decide (current_mode j = Config.MODE_VOICE) then
              match SpeechEngine.listen (mic input) with
              | (true, text, _) =>
                  match CommandProcessor.process text with
                  | Ok _ => [(default ("None" : str) text, current_mode j)]
                  | Raise _ => []
                  end
              | (false, _, _) => []
              end
            else
              match SpeechEngine.get_manual_input (keyboard input) with
              | Some (c :: text) =>
                  match CommandProcessor.process (Some (c :: text)) with
                  | Ok _ => [(c :: text, current_mode j)]
                  | Raise _ => []
                  end
              | _ => []
              end))
  /\ (SessionManager.pending_confirmation (session j) = None ->
      current_mode j = Config.MODE_VOICE ->
      let j'' := snd (run_iteration d (Props.said Spec.overlong_reminder) j) in
      logged j'' = logged j
      /\ speech j''
         = SpeechEngine.speak "I encountered an error. Please try again." (speech j)).
Proof.
  intros j'. subst j'. destruct (logged_in_one_pass d input j) as [H1 H2].
  split; [exact H1 |]. split; [exact H2 |]. intros Hp Hmode j''. subst j''.
  assert (Hlow : Py.lower Spec.overlong_reminder = Spec.overlong_reminder)
    by (vm_compute; reflexivity).
  split.
  - destruct (logged_in_one_pass d (Props.said Spec.overlong_reminder) j) as [_ H].
    rewrite (H Hp), bool_decide_eq_true_2 by exact Hmode.
    cbn [Props.said mic SpeechEngine.listen SpeechEngine.listen_loop
         Config.MAX_RECOGNITION_RETRIES Nat.ltb Nat.leb].
    rewrite Hlow, overlong_reminder_raises. apply app_nil_r.
  - unfold run_iteration, try_except.
    cbv [mbind M_bind bind gets ret M_ret lift].
    unfold SessionManager.get_pending_confirmation. rewrite Hp.
    rewrite bool_decide_eq_true_2 by exact Hmode.
    cbn [Props.said mic SpeechEngine.listen SpeechEngine.listen_loop
         Config.MAX_RECOGNITION_RETRIES Nat.ltb Nat.leb].
    rewrite Hlow, overlong_reminder_raises.
    reflexivity.
Qed.


End RunFacts.

(** ** Confirmation answers *)
Section AnswerFacts.
Import Jarvis.

Lemma startswith_prefix (s p : str) :
  Py.startswith s p = true <-> exists b, s = p ++ b.
Proof.
  revert s. induction p as [| a p IH]; intros s.
  - split; [intros _; by exists s | reflexivity].
  - destruct s as [| c s]; cbn [Py.startswith].
    + split; [discriminate | intros [b Hb]; discriminate].
    + rewrite andb_true_iff, IH. split.
      * intros [Hac [b ->]]. apply Ascii.eqb_eq in Hac. subst c. by exists b.
      * intros [b Hb]. injection Hb as -> ->. split; [apply Ascii.eqb_refl | by exists b].
Qed.

(** [sub in s] holds exactly when [s] contains [sub] as a substring. *)
Lemma contains_substring (sub s : str) :
  Py.contains sub s = true <-> exists a b, s = a ++ sub ++ b.
Proof.
  unfold Py.contains. induction s as [| c s IH]; cbn [Py.find].
  - destruct (Py.startswith [] sub) eqn:Hsw.
    + split; [intros _ | reflexivity]. apply startswith_prefix in Hsw as [b Hb].
      by exists [], b.
    + split; [discriminate |]. intros (a & b & Hab).
      assert (Hsw' : Py.startswith [] sub = true).
      { apply startswith_prefix. destruct a; [by exists b | discriminate]. }
      congruence.
  - destruct (Py.startswith (c :: s) sub) eqn:Hsw.
    + split; [intros _ | reflexivity]. apply startswith_prefix in Hsw as [b Hb].
      by exists [], b.
    + destruct (Py.find sub s) as [i |]; cbn [fmap option_fmap option_map] in *.
      * split; [intros _ | reflexivity].
        destruct (proj1 IH eq_refl) as (a & b & ->). by exists (c :: a), b.
      * split; [discriminate |]. intros (a & b & Hab). destruct a as [| x a].
        { assert (Hsw' : Py.startswith (c :: s) sub = true)
            by (apply startswith_prefix; by exists b).
          congruence. }
        injection Hab as -> ->.
        assert (H : false = true) by (apply IH; by exists a, b). discriminate.
Qed.

(** X8.  An answer confirms exactly when it contains "yes", "yeah" or
    "sure" somewhere, as a substring: inside another word or after a
    negation as well, so that "not sure" and "yesterday" confirm.  An
    empty or missing answer does not. *)
Theorem affirmative_is_a_substring_test :
  (forall text : option str,
     affirmative text = true <->
     exists (t a b w : str),
       text = Some t /\ w ∈ [("yes" : str); ("yeah" : str); ("sure" : str)]
       /\ t = a ++ w ++ b)
  /\ affirmative (Some ("not sure" : str)) = true
  /\ affirmative (Some ("yesterday" : str)) = true
  /\ affirmative (Some []) = false
  /\ affirmative None = false.
Proof.
  split; [| by repeat split]. intros text. split.
  - destruct text as [[| c t] |]; cbn [affirmative]; try discriminate.
    intros H. apply orb_true_iff in H as [H | H];
      [apply orb_true_iff in H as [H | H] |];
      apply contains_substring in H as (a & b & Hab);
      eexists _, a, b, _; (split; [reflexivity |]); (split; [| exact Hab]).
    + by left.
    + by right; left.
    + by right; right; left.
  - intros (t & a & b & w & -> & Hw & ->).
    assert (Hne : exists c r, a ++ w ++ b = c :: r).
    { destruct a as [| x a]; [| by eexists _, _].
      repeat (apply elem_of_cons in Hw as [-> | Hw]; [by eexists _, _ |]).
      by apply elem_of_nil in Hw. }
    destruct Hne as (c & r & Hcr). unfold affirmative. rewrite Hcr, <- Hcr.
    repeat (apply elem_of_cons in Hw as [-> | Hw]).
    + replace (Py.contains "yes" (a ++ "yes" ++ b)) with true; [reflexivity |].
      symmetry. apply contains_substring. by exists a, b.
    + replace (Py.contains "yeah" (a ++ "yeah" ++ b)) with true;
        [by rewrite orb_true_r |].
      symmetry. apply contains_substring. by exists a, b.
    + replace (Py.contains "sure" (a ++ "sure" ++ b)) with true;
        [by rewrite orb_true_r |].
      symmetry. apply contains_substring. by exists a, b.
    + by apply elem_of_nil in Hw.
Qed.

End AnswerFacts.

(** ** Speech input: retries *)
Section ListenFacts.
Import SpeechEngine.

Ltac listen_cases mic :=
  unfold listen; cbn -[app list_ascii_of_string Py.lower];
  destruct (mic 0) eqn:E0; cbn -[app list_ascii_of_string Py.lower];
  try match goal with
      | |- context [mic 1] =>
          destruct (mic 1) eqn:E1; cbn -[app list_ascii_of_string Py.lower]
      end;
  try match goal with
      | |- context [mic 2] =>
          destruct (mic 2) eqn:E2; cbn -[app list_ascii_of_string Py.lower]
      end.

(** X9.  [listen] consults the recogniser at most
    [MAX_RECOGNITION_RETRIES] times: its result depends on the first three
    attempts only.  It succeeds exactly when one of them recognises a text
    and every attempt before it ended in a timeout or an unknown value,
    and then returns that text in lower case.  When it fails it returns
    no text, and after two such soft failures the third attempt alone
    decides the error reported. *)
Theorem listen_retries :
  (forall mic mic' : nat -> heard,
     (forall k, k < Config.MAX_RECOGNITION_RETRIES -> mic k = mic' k) ->
     listen mic = listen mic')
  /\ (forall (mic : nat -> heard) (t : str),
        listen mic = (true, Some t, None) <->
        exists k text,
          k < Config.MAX_RECOGNITION_RETRIES /\ mic k = Recognized text
          /\ t = Py.lower text /\ forall i, i < k -> Props.soft (mic i) = true)
  /\ (forall mic : nat -> heard,
        fst (fst (listen mic)) = false ->
        fst (listen mic) = (false, None)
        /\ (Props.soft (mic 0) = true -> Props.soft (mic 1) = true ->
            snd (listen mic)
            = match mic 2 with
              | WaitTimeoutError => Some ("timeout" : str)
              | UnknownValueError => Some ("unknown" : str)
              | RequestError e => Some ("network_error: " ++ e)
              | OtherException e => Some ("error: " ++ e)
              | Recognized _ => None
              end)).
Proof.
  split; [| split].
  - intros mic mic' H. unfold listen. cbn -[app list_ascii_of_string Py.lower].
    rewrite <- (H 0), <- (H 1), <- (H 2) by (unfold Config.MAX_RECOGNITION_RETRIES; lia).
    reflexivity.
  - intros mic t. split.
    + listen_cases mic; intros [=]; subst;
        match goal with
        | E : mic ?k = Recognized ?tx |- _ => exists k, tx
        end;
        (split; [unfold Config.MAX_RECOGNITION_RETRIES; lia |]);
        (split; [assumption |]); (split; [reflexivity |]);
        intros i Hi;
        repeat (destruct i as [| i]; [by rewrite ?E0, ?E1 |]); lia.
    + intros (k & text & Hk & Hrec & -> & Hsoft).
      unfold Config.MAX_RECOGNITION_RETRIES in Hk.
      destruct k as [| [| [| k]]]; [| | | lia].
      * unfold listen. cbn -[app list_ascii_of_string Py.lower]. by rewrite Hrec.
      * pose proof (Hsoft 0 ltac:(lia)) as H0.
        unfold listen. cbn -[app list_ascii_of_string Py.lower].
        destruct (mic 0); try discriminate; cbn -[app list_ascii_of_string Py.lower];
          by rewrite Hrec.
      * pose proof (Hsoft 0 ltac:(lia)) as H0. pose proof (Hsoft 1 ltac:(lia)) as H1.
        unfold listen. cbn -[app list_ascii_of_string Py.lower].
        destruct (mic 0); try discriminate; cbn -[app list_ascii_of_string Py.lower];
          destruct (mic 1); try discriminate; cbn -[app list_ascii_of_string Py.lower];
          by rewrite Hrec.
  - intros mic. listen_cases mic; intros Hf; try discriminate;
      (split; [reflexivity |]); cbn; try discriminate; reflexivity.
Qed.

(** X10.  [listen] never reports ["max_retries"]: the [return] after the
    loop is not reachable, the third soft failure returning from inside
    the loop.  An error is reported exactly when [listen] fails. *)
Theorem listen_never_reports_max_retries :
  (forall mic : nat -> heard, snd (listen mic) <> Some ("max_retries" : str))
  /\ (forall mic : nat -> heard,
        snd (listen mic) = None <-> fst (fst (listen mic)) = true).
Proof.
  split.
  - intros mic. listen_cases mic; discriminate.
  - intros mic. listen_cases mic; split; intros; try reflexivity; discriminate.
Qed.

End ListenFacts.

(** ** Volume: saturation *)
Section SaturationFacts.
Import PyFloat Config SpeechEngine.

Lemma base_volume_apply (style : value) (e : t) :
  base_volume (_apply_voice_style style e) = base_volume e.
Proof. unfold _apply_voice_style. by destruct (style_settings style). Qed.

Lemma base_volume_louder (e : t) :
  base_volume (adjust_volume (VStr "louder") e) = py_min f1_0 (fadd (base_volume e) f0_2).
Proof.
  unfold adjust_volume. rewrite bool_decide_eq_true_2 by reflexivity.
  by rewrite base_volume_apply.
Qed.

Lemma base_volume_softer (e : t) :
  base_volume (adjust_volume (VStr "softer") e) = py_max f0_2 (fsub (base_volume e) f0_2).
Proof.
  unfold adjust_volume. rewrite bool_decide_eq_false_2 by discriminate.
  rewrite bool_decide_eq_true_2 by reflexivity. by rewrite base_volume_apply.
Qed.

Lemma base_volume_louder_times (n : nat) (e : t) :
  base_volume (Props.adjust_times n (VStr "louder") e)
  = Nat.iter n (fun v => py_min f1_0 (fadd v f0_2)) (base_volume e).
Proof.
  induction n as [| n IH]; [reflexivity |].
  unfold Props.adjust_times in *. rewrite !Nat.iter_succ.
  by rewrite base_volume_louder, IH.
Qed.

Lemma base_volume_softer_times (n : nat) (e : t) :
  base_volume (Props.adjust_times n (VStr "softer") e)
  = Nat.iter n (fun v => py_max f0_2 (fsub v f0_2)) (base_volume e).
Proof.
  induction n as [| n IH]; [reflexivity |].
  unfold Props.adjust_times in *. rewrite !Nat.iter_succ.
  by rewrite base_volume_softer, IH.
Qed.

(** X11.  The volume saturates.  From every state the engine can reach,
    four times [louder] give exactly 1.0 and five times [softer] exactly
    0.2, where the adjustments then leave the volume; and no adjustment
    leads back to the initial 0.9, the steps of 0.2 not being exact in
    binary floating point. *)
Theorem volume_saturates (e : t) :
  Spec.reachable e ->
  base_volume (Props.adjust_times 4 (VStr "louder") e) = f1_0
  /\ base_volume (Props.adjust_times 5 (VStr "softer") e) = f0_2
  /\ (base_volume e = f1_0 -> base_volume (adjust_volume (VStr "louder") e) = f1_0)
  /\ (base_volume e = f0_2 -> base_volume (adjust_volume (VStr "softer") e) = f0_2)
  /\ base_volume (adjust_volume (VStr "louder") e) <> f0_9
  /\ base_volume (adjust_volume (VStr "softer") e) <> f0_9.
Proof.
  intros Hr. destruct (reachable_inv e Hr) as [Hv _].
  rewrite base_volume_louder_times, base_volume_softer_times,
    base_volume_louder, base_volume_softer.
  revert Hv.
  apply (is_volume_cases
           (fun v =>
              Nat.iter 4 (fun v => py_min f1_0 (fadd v f0_2)) v = f1_0
              /\ Nat.iter 5 (fun v => py_max f0_2 (fsub v f0_2)) v = f0_2
              /\ (v = f1_0 -> py_min f1_0 (fadd v f0_2) = f1_0)
              /\ (v = f0_2 -> py_max f0_2 (fsub v f0_2) = f0_2)
              /\ py_min f1_0 (fadd v f0_2) <> f0_9
              /\ py_max f0_2 (fsub v f0_2) <> f0_9)).
  unfold Spec.volumes.
  repeat (constructor;
          [ split; [vm_compute; reflexivity |];
            split; [vm_compute; reflexivity |];
            split; [first [intros [=] | intros _; vm_compute; reflexivity] |];
            split; [first [intros [=] | intros _; vm_compute; reflexivity] |];
            split; vm_compute; discriminate |]).
  constructor.
Qed.

Lemma volume_saturates_witness :
  Spec.reachable __init__
  /\ base_volume (Props.adjust_times 4 (VStr "louder") __init__) = f1_0
  /\ base_volume (Props.adjust_times 5 (VStr "softer") __init__) = f0_2.
Proof.
  split; [constructor |].
  destruct (volume_saturates __init__ Spec.reach_init) as (H1 & H2 & _).
  split; assumption.
Defined.

End SaturationFacts.

(** ** Typed input *)
Section ManualInputFacts.

Lemma isspace_lower_char (a : ascii) : Py.isspace (Py.lower_char a) = Py.isspace a.
Proof. destruct a as [[] [] [] [] [] [] [] []]; reflexivity. Qed.

Lemma lstrip_lower (s : str) : Py.lstrip (Py.lower s) = Py.lower (Py.lstrip s).
Proof.
  induction s as [| a s IH]; [reflexivity |].
  cbn [Py.lower map Py.lstrip]. rewrite isspace_lower_char.
  destruct (Py.isspace a); [exact IH | reflexivity].
Qed.

Lemma rstrip_lower (s : str) : Py.rstrip (Py.lower s) = Py.lower (Py.rstrip s).
Proof.
  induction s as [| a s IH]; [reflexivity |].
  cbn [Py.lower map Py.rstrip]. fold (Py.lower s). rewrite IH, isspace_lower_char.
  destruct (Py.rstrip s); cbn [Py.lower map]; [by destruct (Py.isspace a) | reflexivity].
Qed.

Lemma strip_lower (s : str) : Py.strip (Py.lower s) = Py.lower (Py.strip s).
Proof. unfold Py.strip. by rewrite lstrip_lower, rstrip_lower. Qed.

Lemma lower_fixed (s : str) : Py.lower (Py.lower s) = Py.lower s.
Proof.
  unfold Py.lower. rewrite map_map. apply map_ext. intros a. apply lower_char_fixed.
Qed.

(** [s.lower().strip()] is a fixed point of [lower] and of [strip]. *)
Lemma strip_lower_fixed (s : str) :
  let t := Py.strip (Py.lower s) in
  Py.strip (Py.lower t) = t.
Proof.
  intros t. subst t. rewrite !strip_lower, lower_fixed, strip_fixed. reflexivity.
Qed.

Lemma rstrip_nil (s : str) : Py.rstrip s = [] -> forallb Py.isspace s = true.
Proof.
  induction s as [| a s IH]; [reflexivity |]. cbn [Py.rstrip forallb].
  destruct (Py.rstrip s); [| discriminate].
  destruct (Py.isspace a); [intros _; by apply IH | discriminate].
Qed.

Lemma lstrip_blank (s : str) :
  forallb Py.isspace (Py.lstrip s) = true -> forallb Py.isspace s = true.
Proof.
  induction s as [| a s IH]; [reflexivity |]. cbn [Py.lstrip].
  destruct (Py.isspace a) eqn:Ha; [| by intros H].
  intros H. cbn [forallb]. rewrite Ha. by apply IH.
Qed.

(** X12.  [get_manual_input] returns [None] when [input] raises or the
    line is blank, and otherwise the line stripped and in lower case: a
    text that is not empty, has no whitespace at either end, has no
    upper-case letter, and that [get_manual_input] would return
    unchanged. *)
Theorem manual_input_shape (line : result str) :
  match SpeechEngine.get_manual_input line with
  | Some t =>
      t <> [] /\ Py.strip t = t /\ Py.lower t = t
      /\ SpeechEngine.get_manual_input (Ok t) = Some t
      /\ exists l, line = Ok l /\ t = Py.lower (Py.strip l)
  | None =>
      match line with
      | Ok l => forallb Py.isspace l = true
      | Raise _ => True
      end
  end.
Proof.
  destruct line as [l | e]; [| exact I]. unfold SpeechEngine.get_manual_input.
  destruct (Py.strip l) as [| a s] eqn:Hs.
  - unfold Py.strip in Hs. by apply lstrip_blank, rstrip_nil.
  - rewrite <- Hs.
    assert (Hst : Py.strip (Py.lower (Py.strip l)) = Py.lower (Py.strip l)).
    { by rewrite strip_lower, strip_fixed. }
    split; [rewrite Hs; discriminate |]. split; [exact Hst |].
    split; [apply lower_fixed |]. split; [| by exists l].
    rewrite Hst. rewrite Hs at 1. cbn [Py.lower map]. by rewrite lower_fixed.
Qed.

End ManualInputFacts.

(** ** Session: offsets, durations, summary *)
Section SessionExtras.
Import SessionManager.

(** X13.  [get_previous_command(k)] returns the command [k] places from
    the end for [k] from 1 to the length of the history, [None] beyond,
    and agrees with [get_last_command] at 1.  Offset 0 is not "none
    back": on an empty history it raises [IndexError], and otherwise it
    returns the oldest command, [history[-0]] being [history[0]]. *)
Theorem previous_command_offsets (s : t) :
  let l := items (command_history s) in
  get_previous_command 0 s
  = match l with
    | [] => Raise IndexError
    | oldest :: _ => Ok (Some (command oldest))
    end
  /\ (forall k, 1 <= k <= length l ->
        exists e, l !! (length l - k) = Some e
                  /\ get_previous_command k s = Ok (Some (command e)))
  /\ (forall k, length l < k -> get_previous_command k s = Ok None)
  /\ get_previous_command 1 s = get_last_command s.
Proof.
  intros l. subst l. unfold get_previous_command, get_last_command, deque_from_end.
  set (l := items (command_history s)).
  split; [| split; [| split]].
  - cbn [Nat.leb]. unfold Py.index. by destruct l.
  - intros k [H1 H2]. destruct k as [| k]; [lia |].
    destruct (lookup_lt_is_Some_2 l (length l - S k)) as [e He]; [lia |].
    exists e. split; [exact He |].
    replace (S k <=? length l) with true by (symmetry; apply Nat.leb_le; lia).
    unfold Py.index. by rewrite He.
  - intros k Hk. destruct k as [| k]; [lia |].
    by replace (S k <=? length l) with false by (symmetry; apply Nat.leb_gt; lia).
  - destruct l as [| e l']; [reflexivity |]. reflexivity.
Qed.

(** X14.  Whenever [_extract_params] gives a reminder a [value] and a
    [unit], [calculate_seconds] converts them without raising: the value
    is a non-negative integer [n], the unit is "second", "minute" or
    "hour", and the result is [n], [60 n] or [3600 n] accordingly. *)
Theorem duration_in_seconds (text raw : str) (p : gmap string value) (v u : value) :
  CommandProcessor._extract_params "reminder" text raw = Ok p ->
  p !! "value" = Some v -> p !! "unit" = Some u ->
  exists (n k : Z),
    v = VInt n /\ (0 <= n)%Z
    /\ (u, k) ∈ [(VStr "second", 1%Z); (VStr "minute", 60%Z); (VStr "hour", 3600%Z)]
    /\ calculate_seconds v u = Ok (VInt (n * k)).
Proof.
  intros Hp Hv Hu. rewrite extract_reminder_spec in Hp. unfold Spec.reminder in Hp.
  destruct (Spec.remind_when _) as [[x y] |].
  { inversion Hp; subst. rewrite lookup_insert_ne in Hv by discriminate.
    rewrite lookup_singleton_ne in Hv by discriminate. discriminate. }
  destruct (Spec.duration _) as [[digits unit] |] eqn:Hd.
  - apply duration_digits in Hd as (_ & Hall & _ & Hunit).
    destruct (_ <=? _)%Z; [| discriminate]. inversion Hp; subst. clear Hp.
    rewrite lookup_insert_ne in Hv by discriminate.
    rewrite lookup_singleton in Hv. rewrite lookup_insert in Hu.
    inversion Hv; subst. inversion Hu; subst. clear Hv Hu.
    apply number_nonneg in Hall. set (n := Spec.number digits) in *.
    unfold Spec.captured_units in Hunit. cbn in Hunit.
    assert (Hk : forall (w : str) (k : Z),
              (VStr w, k) ∈ [(VStr "second", 1%Z); (VStr "minute", 60%Z);
                             (VStr "hour", 3600%Z)] ->
              calculate_seconds (VInt n) (VStr w) = Ok (VInt (n * k)) ->
              exists n0 k0 : Z,
                VInt n = VInt n0 /\ (0 <= n0)%Z
                /\ (VStr w, k0) ∈ [(VStr "second", 1%Z); (VStr "minute", 60%Z);
                                   (VStr "hour", 3600%Z)]
                /\ calculate_seconds (VInt n) (VStr w) = Ok (VInt (n0 * k0))).
    { intros w k Hin Hc. exists n, k. auto. }
    apply elem_of_cons in Hunit as [-> | Hunit].
    { apply (Hk _ 1%Z); [by left | cbn; by rewrite Z.mul_1_r]. }
    apply elem_of_cons in Hunit as [-> | Hunit].
    { apply (Hk _ 60%Z); [by right; left | reflexivity]. }
    apply elem_of_cons in Hunit as [-> | Hunit].
    { apply (Hk _ 3600%Z); [by right; right; left | reflexivity]. }
    by apply elem_of_nil in Hunit.
  - destruct (Spec.remind_to _) as [x |]; inversion Hp; subst;
      rewrite lookup_singleton_ne in Hv by discriminate; discriminate.
Qed.

Lemma duration_in_seconds_witness :
  let raw : str := "remind me 15 minutes" in
  CommandProcessor._extract_params "reminder" raw raw
  = Ok (<["unit" := VStr "minute"]> {["value" := VInt 15]})
  /\ exists n k : Z,
       calculate_seconds (VInt 15) (VStr "minute") = Ok (VInt (n * k)).
Proof.
  intros raw.
  assert (H : CommandProcessor._extract_params "reminder" raw raw
              = Ok (<["unit" := VStr "minute"]> {["value" := VInt 15]}))
    by (vm_compute; reflexivity).
  split; [exact H |].
  destruct (duration_in_seconds raw raw _ (VInt 15) (VStr "minute") H eq_refl eq_refl)
    as (n & k & _ & _ & _ & Hs).
  by exists n, k.
Defined.

(** X15.  After any sequence of [add_to_history] calls on a fresh
    session, [get_history_summary] lists the action and the formatted
    timestamp of the last [MEMORY_SIZE] commands added, oldest first, and
    nothing else. *)
Theorem history_summary_lists_last_actions (strftime : nat -> str)
    (cmds : list (Command * nat)) :
  get_history_summary strftime (Spec.add_all cmds __init__)
  = map (fun cn => (action (fst cn), strftime (snd cn)))
        (drop (length cmds - Config.MEMORY_SIZE) cmds)
  /\ length (get_history_summary strftime (Spec.add_all cmds __init__))
     = Nat.min (length cmds) Config.MEMORY_SIZE.
Proof.
  unfold get_history_summary. rewrite add_all_history.
  destruct (deque_append_all (Spec.entries cmds) (command_history __init__))
    as [_ Hi]; [cbn; lia |].
  cbn zeta in Hi. rewrite Hi. cbn [__init__ command_history items maxlen app].
  assert (Hlen : length (Spec.entries cmds) = length cmds)
    by (unfold Spec.entries; apply length_map).
  rewrite Hlen. unfold Spec.entries. rewrite skipn_map, map_map. cbn [command timestamp].
  split; [reflexivity |]. rewrite length_map, length_drop.
  unfold Config.MEMORY_SIZE. lia.
Qed.

End SessionExtras.

(** ** Scores *)
Section ScoreFacts.
Import CommandProcessor.

Lemma size_meet_zero (T K : gset str) :
  size (T ∩ K) = 0 <-> forall k, k ∈ K -> k ∉ T.
Proof.
  rewrite size_empty_iff. split.
  - intros He k Hk Ht. apply (not_elem_of_empty (C := gset str) k).
    rewrite <- He. by apply elem_of_intersection.
  - intros H. apply elem_of_equiv_empty. intros k Hk.
    apply elem_of_intersection in Hk as [Ht Hk]. by apply (H k).
Qed.

Lemma size_meet_full (T K : gset str) :
  size (T ∩ K) = size K <-> forall k, k ∈ K -> k ∈ T.
Proof.
  assert (Hsub : T ∩ K ⊆ K).
  { intros k Hk. by apply elem_of_intersection in Hk as [_ Hk]. }
  split.
  - intros Hs k Hk. assert (Heq : T ∩ K ≡ K).
    { apply set_subseteq_size_equiv; [exact Hsub | lia]. }
    apply Heq in Hk. by apply elem_of_intersection in Hk as [Ht _].
  - intros H. f_equal. apply leibniz_equiv. intros k. split; [apply Hsub |].
    intros Hk. apply elem_of_intersection. split; [by apply H | exact Hk].
Qed.

Lemma size_keywords_pos (keywords : list str) :
  keywords <> [] -> 0 < size (list_to_set keywords : gset str).
Proof.
  destruct keywords as [| k ks]; [done |]. intros _.
  destruct (size (list_to_set (k :: ks) : gset str)) eqn:Hs; [| lia].
  apply size_empty_inv in Hs. exfalso.
  apply (not_elem_of_empty (C := gset str) k). rewrite <- Hs.
  apply elem_of_list_to_set. by left.
Qed.

(** X16.  [_overlap_score] lies between 0 and 1; it is 0 exactly when no
    keyword is among the tokens (in particular for an empty keyword
    list), and, for a keyword list that is not empty, 1 exactly when
    every keyword is among the tokens. *)
Theorem overlap_score_bounds (tokens keywords : list str) :
  let score := _overlap_score tokens keywords in
  (0 <= score)%Q /\ (score <= 1)%Q
  /\ ((score == 0)%Q <-> forall k, k ∈ keywords -> k ∉ tokens)
  /\ (keywords <> [] -> ((score == 1)%Q <-> forall k, k ∈ keywords -> k ∈ tokens)).
Proof.
  intros score. subst score.
  destruct (decide (keywords = [])) as [-> | Hne].
  { cbn. repeat split; try done. intros _ k Hk. by apply elem_of_nil in Hk. }
  pose proof (size_keywords_pos keywords Hne) as Hpos.
  pose proof (size_meet_zero (list_to_set tokens) (list_to_set keywords)) as Hzero.
  pose proof (size_meet_full (list_to_set tokens) (list_to_set keywords)) as Hfull.
  assert (Hle : size (list_to_set tokens ∩ list_to_set keywords : gset str)
                <= size (list_to_set keywords : gset str)).
  { apply subseteq_size. intros k Hk. by apply elem_of_intersection in Hk as [_ Hk]. }
  assert (Hscore : _overlap_score tokens keywords
                   = (Z.of_nat (size (list_to_set tokens ∩ list_to_set keywords : gset str))
                      # Pos.of_nat (size (list_to_set keywords : gset str)))%Q).
  { unfold _overlap_score. by destruct keywords. }
  rewrite Hscore. clear Hscore.
  assert (Hz : Z.pos (Pos.of_nat (size (list_to_set keywords : gset str)))
               = Z.of_nat (size (list_to_set keywords : gset str))).
  { rewrite <- positive_nat_Z, Nat2Pos.id by lia. reflexivity. }
  split; [unfold Qle; cbn; lia |]. split; [unfold Qle; cbn; lia |]. split.
  - unfold Qeq. cbn. rewrite Z.mul_1_r. split.
    + intros H k Hk Ht.
      apply (proj1 Hzero ltac:(lia) k); by apply elem_of_list_to_set.
    + intros H.
      assert (Hs : size (list_to_set tokens ∩ list_to_set keywords : gset str) = 0).
      { apply Hzero. intros k Hk Ht. apply elem_of_list_to_set in Hk, Ht.
        by apply (H k). }
      lia.
  - intros _. unfold Qeq. cbn. rewrite Z.mul_1_r, Hz. split.
    + intros H k Hk. apply (elem_of_list_to_set (C := gset str)).
      apply (proj1 Hfull ltac:(lia) k). by apply elem_of_list_to_set.
    + intros H.
      assert (Hs : size (list_to_set tokens ∩ list_to_set keywords : gset str)
                   = size (list_to_set keywords : gset str)).
      { apply Hfull. intros k Hk. apply elem_of_list_to_set in Hk.
        by apply elem_of_list_to_set, H. }
      lia.
Qed.

End ScoreFacts.

(** ** Tokens *)
Section TokenFacts.
Import CommandProcessor.

Lemma elem_of_rev_inv {A} (a : A) (l : list A) : a ∈ rev l -> a ∈ l.
Proof. intros H. apply list_elem_of_In, in_rev. by apply list_elem_of_In. Qed.

(** The words [split] yields: nonempty runs of characters that are no
    whitespace, taken from what was collected so far and from the text. *)
Lemma split_ws_aux_tokens (s : str) : forall (cur w : str),
  (forall a, a ∈ cur -> Py.isspace a = false) ->
  w ∈ Py.split_ws_aux cur s ->
  w <> [] /\ forall a, a ∈ w -> Py.isspace a = false /\ a ∈ rev cur ++ s.
Proof.
  assert (Hcur : forall cur w : str,
            (forall a, a ∈ cur -> Py.isspace a = false) ->
            w ∈ (if bool_decide (cur = []) then [] else [rev cur]) ->
            w <> [] /\ forall a, a ∈ w -> Py.isspace a = false /\ a ∈ rev cur).
  { intros cur w Hns Hw. case_bool_decide as Hc; [by apply elem_of_nil in Hw |].
    apply list_elem_of_singleton in Hw as ->. split.
    - intros Hr. apply Hc. by rewrite <- (rev_involutive cur), Hr.
    - intros a Ha. split; [| exact Ha]. apply Hns. by apply elem_of_rev_inv. }
  induction s as [| c s IH]; intros cur w Hns Hw; cbn [Py.split_ws_aux] in Hw.
  - rewrite app_nil_r. by apply Hcur.
  - destruct (Py.isspace c) eqn:Hsp.
    + apply elem_of_app in Hw as [Hw | Hw].
      * destruct (Hcur cur w Hns Hw) as [Hne Hall]. split; [exact Hne |].
        intros a Ha. destruct (Hall a Ha) as [H1 H2]. split; [exact H1 |].
        apply elem_of_app. by left.
      * destruct (IH [] w) as [Hne Hall]; [intros a Ha; by apply elem_of_nil in Ha
                                           | exact Hw |].
        split; [exact Hne |]. intros a Ha. destruct (Hall a Ha) as [H1 H2].
        split; [exact H1 |]. apply elem_of_app. right. by right.
    + destruct (IH (c :: cur) w) as [Hne Hall]; [| exact Hw |].
      { intros a Ha. apply elem_of_cons in Ha as [-> | Ha]; [exact Hsp | by apply Hns]. }
      split; [exact Hne |]. intros a Ha. destruct (Hall a Ha) as [H1 H2].
      split; [exact H1 |]. cbn [rev] in H2. by rewrite <- app_assoc in H2.
Qed.

(** A text without leading whitespace, whose whitespace is single spaces,
    and without trailing whitespace is its words joined by single spaces. *)
Lemma join_split_ws_aux (s : str) : forall cur : str,
  Spec.single_spaced (bool_decide (cur = [])) s = true ->
  Py.rstrip s = s ->
  Py.join " " (Py.split_ws_aux cur s) = rev cur ++ s.
Proof.
  induction s as [| c s IH]; intros cur Hss Hr; cbn [Py.split_ws_aux].
  - rewrite app_nil_r. case_bool_decide as Hc; [by subst cur | reflexivity].
  - cbn [Spec.single_spaced] in Hss. destruct (Py.isspace c) eqn:Hsp.
    + apply andb_prop in Hss as [Hss Hs']. apply andb_prop in Hss as [Hcur Hc].
      apply negb_true_iff in Hcur. rewrite Hcur. apply Ascii.eqb_eq in Hc. subst c.
      assert (Hrs : Py.rstrip s = s /\ s <> []).
      { cbn [Py.rstrip] in Hr. destruct (Py.rstrip s) as [| x r] eqn:Hx.
        - rewrite Hsp in Hr. discriminate.
        - injection Hr as Hs. split; congruence. }
      destruct Hrs as [Hrs Hne].
      specialize (IH [] Hs' Hrs). cbn [rev app] in IH.
      cbn [app]. destruct (Py.split_ws_aux [] s) as [| w ws] eqn:Hsplit.
      { cbn in IH. by subst s. }
      change (Py.join " " (rev cur :: w :: ws))
        with (rev cur ++ " " ++ Py.join " " (w :: ws)).
      by rewrite IH.
    + assert (Hrs : Py.rstrip s = s).
      { cbn [Py.rstrip] in Hr. destruct (Py.rstrip s) as [| x r] eqn:Hx.
        - rewrite Hsp in Hr. injection Hr as Hs. by rewrite <- Hs.
        - injection Hr as Hs. congruence. }
      rewrite (IH (c :: cur)); [| by rewrite bool_decide_eq_false_2 | exact Hrs].
      cbn [rev]. by rewrite <- app_assoc.
Qed.

Lemma rstrip_head (a b : ascii) (z r : str) : Py.rstrip (a :: z) = b :: r -> b = a.
Proof.
  cbn [Py.rstrip]. destruct (Py.rstrip z); [| congruence].
  destruct (Py.isspace a); congruence.
Qed.

(** A fixed point of [strip] has whitespace at neither end. *)
Lemma strip_fixed_ends (t : str) :
  Py.strip t = t ->
  Py.rstrip t = t /\ Spec.single_spaced false t = Spec.single_spaced true t.
Proof.
  unfold Py.strip. intros Hstrip. destruct t as [| a z]; [by split |].
  assert (Ha : Py.isspace a = false).
  { pose proof (lstrip_head (a :: z)) as Hh.
    destruct (Py.lstrip (a :: z)) as [| b y]; [discriminate |].
    apply rstrip_head in Hstrip. by subst b. }
  cbn [Py.lstrip] in Hstrip. rewrite Ha in Hstrip. split; [exact Hstrip |].
  cbn [Spec.single_spaced]. by rewrite Ha.
Qed.

(** X17.  The tokens of any text are non-empty words without whitespace,
    made of characters of the text.  The tokens of a normalised text
    consist of lower-case word characters, and joined by single spaces
    they give the normalised text back. *)
Theorem tokens_of_normalized_text :
  (forall (text : str) (w : str),
     w ∈ _tokens text ->
     w <> [] /\ forall a, a ∈ w -> Py.isspace a = false /\ a ∈ text)
  /\ (forall (raw : option str) (w : str) (a : ascii),
        w ∈ _tokens (_normalize raw) -> a ∈ w ->
        Py.isword a = true /\ Py.lower_char a = a)
  /\ (forall raw : option str,
        Py.join " " (_tokens (_normalize raw)) = _normalize raw).
Proof.
  split; [| split].
  - intros text w Hw. unfold _tokens, Py.split in Hw.
    apply split_ws_aux_tokens in Hw; [exact Hw |].
    intros a Ha. by apply elem_of_nil in Ha.
  - intros raw w a Hw Ha. unfold _tokens, Py.split in Hw.
    apply split_ws_aux_tokens in Hw as [_ Hall];
      [| intros x Hx; by apply elem_of_nil in Hx].
    destruct (Hall a Ha) as [Hsp Hin]. cbn [rev app] in Hin.
    destruct (normalize_alphabet raw a Hin) as [Hlow [Hword | ->]];
      [by split | discriminate].
  - intros raw. destruct (normalize_tidy raw) as [Hstrip Hcollapse].
    unfold _tokens, Py.split.
    assert (Hss : Spec.single_spaced false (_normalize raw) = true).
    { rewrite <- Hcollapse. apply collapse_single_spaced. }
    destruct (strip_fixed_ends _ Hstrip) as [Hr Hb].
    rewrite (join_split_ws_aux _ []); [reflexivity | | exact Hr].
    rewrite bool_decide_eq_true_2 by reflexivity. by rewrite <- Hb.
Qed.

End TokenFacts.

(** ** Resolution and the normalised text *)
Section ResolutionExtras.
Import CommandProcessor.

Lemma command_for_action (intent : string) (text raw : str) (c : Command) :
  command_for intent text raw = Ok c -> action c = intent.
Proof.
  unfold command_for. destruct (_extract_params intent text raw); [| discriminate].
  cbn. by intros [= <-].
Qed.

(** X18.  The action [process] resolves depends on the normalised text
    alone: two non-empty inputs with the same normalised text, say inputs
    that differ in case, punctuation or filler words, resolve to the same
    action. *)
Theorem action_depends_on_normalized_text (raw1 raw2 : str) (c1 c2 : Command) :
  raw1 <> [] -> raw2 <> [] ->
  _normalize (Some raw1) = _normalize (Some raw2) ->
  process (Some raw1) = Ok c1 -> process (Some raw2) = Ok c2 ->
  action c1 = action c2.
Proof.
  intros Hne1 Hne2 Hnorm. unfold process. rewrite !process_with_resolve.
  unfold Spec.resolve.
  destruct raw1 as [| a1 r1]; [done |]. destruct raw2 as [| a2 r2]; [done |].
  rewrite Hnorm. set (text := _normalize (Some (a2 :: r2))).
  destruct (List.find (Spec.pattern_matches text) intent_definitions) as [d |].
  { intros H1 H2. apply command_for_action in H1, H2. congruence. }
  destruct (Spec.first_max (Spec.overlap (_tokens text)) intent_definitions) as [d |];
    [| discriminate].
  destruct (Qle_bool _ _).
  { intros H1 H2. apply command_for_action in H1, H2. congruence. }
  destruct (List.find (Spec.required_present (_tokens text)) intent_definitions) as [d' |].
  { intros H1 H2. apply command_for_action in H1, H2. congruence. }
  intros [= <-] [= <-]. reflexivity.
Qed.

Lemma action_depends_on_normalized_text_witness :
  let raw1 : str := "Please, OPEN the Notepad!" in
  let raw2 : str := "open notepad" in
  _normalize (Some raw1) = _normalize (Some raw2)
  /\ exists c1 c2,
       process (Some raw1) = Ok c1 /\ process (Some raw2) = Ok c2
       /\ action c1 = action c2.
Proof.
  intros raw1 raw2.
  assert (Hn : _normalize (Some raw1) = _normalize (Some raw2)) by (vm_compute; reflexivity).
  split; [exact Hn |].
  destruct (process (Some raw1)) as [c1 |] eqn:H1; [| vm_compute in H1; discriminate].
  destruct (process (Some raw2)) as [c2 |] eqn:H2; [| vm_compute in H2; discriminate].
  exists c1, c2. split; [reflexivity |]. split; [reflexivity |].
  apply (action_depends_on_normalized_text raw1 raw2 c1 c2);
    [discriminate | discriminate | exact Hn | exact H1 | exact H2].
Defined.

(** X19.  A non-empty input that normalises to the empty text, one made
    of punctuation, whitespace and filler words, matches no pattern and
    scores 0 everywhere: [process] returns [unknown] with the input as it
    was given. *)
Theorem fillers_only_is_unknown (raw : str) :
  raw <> [] -> _normalize (Some raw) = [] ->
  process (Some raw) = Ok (mkCommand "unknown" {["text" := VStr raw]}).
Proof.
  intros Hne Hnorm. unfold process, process_with.
  destruct raw as [| a r]; [done |]. rewrite Hnorm.
  reflexivity.
Qed.

Lemma fillers_only_is_unknown_witness :
  let raw : str := "Um... okay, please!" in
  process (Some raw) = Ok (mkCommand "unknown" {["text" := VStr raw]}).
Proof.
  intros raw. apply (fillers_only_is_unknown raw); [discriminate | vm_compute; reflexivity].
Defined.

End ResolutionExtras.

(** ** Patterns that never decide *)
Section ShadowFacts.
Import Re ReSem CommandProcessor.

Lemma m_whole (s : str) (w : string) (i : nat) (c : caps) (k : cont) :
  m s (Props.whole w) i c k
  = if Props.stands s w i then k (i + length (w : str)) c else None.
Proof.
  unfold Props.whole, Props.stands, word. cbn [seqs m]. rewrite m_lit.
  destruct (boundary s i); [| reflexivity]. cbn [andb].
  destruct (Py.startswith (drop i s) w); [| reflexivity]. cbn [andb].
  by destruct (boundary s (i + length (w : str))).
Qed.

(** [scan] finds nothing exactly when the pattern matches at none of the
    positions it tries. *)
Lemma scan_none (s : str) (r : regex) (fuel : nat) : forall pos,
  scan s r fuel pos false = None <->
  forall i, pos <= i <= pos + fuel -> m s r i [] accept = None.
Proof.
  induction fuel as [| fuel IH]; intros pos; cbn [scan andb];
    change (fun (j : nat) (c : caps) => Some (j, c)) with accept.
  - destruct (m s r pos [] accept) as [[j c] |] eqn:Hm.
    + split; [discriminate |]. intros H. rewrite (H pos) in Hm by lia. discriminate.
    + split; [| reflexivity]. intros _ i Hi. by replace i with pos by lia.
  - destruct (m s r pos [] accept) as [[j c] |] eqn:Hm.
    + split; [discriminate |]. intros H. rewrite (H pos) in Hm by lia. discriminate.
    + rewrite IH. split.
      * intros H i Hi. destruct (decide (i = pos)) as [-> | Hne]; [exact Hm |].
        apply H. lia.
      * intros H i Hi. apply H. lia.
Qed.

Lemma search_whole_none (s : str) (w : string) :
  search s (Props.whole w) = None <->
  forall i, i <= length s -> Props.stands s w i = false.
Proof.
  unfold search. rewrite scan_none. split.
  - intros H i Hi. specialize (H i ltac:(lia)). rewrite m_whole in H.
    by destruct (Props.stands s w i).
  - intros H i Hi. rewrite m_whole, H by lia. reflexivity.
Qed.

(** A phrase that stands between boundaries begins with a word that
    does: the space after the word is a boundary. *)
Lemma stands_first_word (s : str) (w rest : string) (i : nat) :
  Spec.wordy w = true ->
  Props.stands s (w ++ " " ++ rest)%string i = true ->
  Props.stands s w i = true.
Proof.
  intros Hw H. unfold Props.stands in *.
  apply andb_prop in H as [H _]. apply andb_prop in H as [Hb Hsw].
  assert (Heq : list_ascii_of_string (w ++ " " ++ rest)
                = list_ascii_of_string w ++ " "%char :: list_ascii_of_string rest).
  { clear. induction w as [| a w IH]; [reflexivity |]. cbn. by rewrite <- IH. }
  rewrite Heq in Hsw.
  pose proof (startswith_app _ _ _ Hsw) as Hsw'.
  rewrite Hb, Hsw'. cbn [andb].
  destruct (boundary_around s i w Hw Hsw') as [_ ->].
  rewrite (startswith_lookup _ _ Hsw (length (w : str)) " "%char); [reflexivity |].
  rewrite lookup_app_r by lia. by rewrite Nat.sub_diag.
Qed.

Lemma search_first_word (s : str) (w rest : string) :
  Spec.wordy w = true ->
  search s (Props.whole w) = None ->
  search s (Props.whole (w ++ " " ++ rest)) = None.
Proof.
  intros Hw Hs. rewrite search_whole_none in Hs |- *. intros i Hi.
  destruct (Props.stands s (w ++ " " ++ rest)%string i) eqn:E; [| reflexivity].
  apply stands_first_word in E; [| exact Hw]. by rewrite Hs in E.
Qed.

Lemma pattern_matches_cons (text : str) (name : string) (kw : list str)
    (pat : regex) (pats : list regex) :
  Spec.pattern_matches text (name, mkIntent kw (pat :: pats)) = false ->
  search text pat = None /\ Spec.pattern_matches text (name, mkIntent kw pats) = false.
Proof.
  unfold Spec.pattern_matches. cbn [snd patterns existsb]. intros H.
  apply orb_false_iff in H as [H1 H2]. split; [| exact H2].
  apply bool_decide_eq_false in H1. destruct (search text pat); [| reflexivity].
  exfalso. apply H1. by eexists.
Qed.

Lemma first_some_found {A B} (f : A -> option B) (l : list A) (x : A) :
  x ∈ l -> is_Some (f x) -> is_Some (first_some f l).
Proof.
  induction l as [| y l IH]; intros Hx Hf; [by apply elem_of_nil in Hx |].
  cbn [first_some]. destruct (f y) as [b |] eqn:Hy; [by eexists |]. cbn [orelse].
  apply elem_of_cons in Hx as [-> | Hx]; [rewrite Hy in Hf; by destruct Hf |].
  by apply IH.
Qed.

(** A word of a group of alternatives that stands at a position makes the
    pattern [\b(w1|...|wn)\b] match there. *)
Lemma m_group_words (s : str) (ws : list string) (w : string) (i : nat) :
  w ∈ ws -> Props.stands s w i = true ->
  is_Some (m s (seqs [WordB; Group 1 (one_of ws); WordB]) i [] accept).
Proof.
  intros Hw Hst. unfold Props.stands in Hst.
  apply andb_prop in Hst as [Hst Hb2]. apply andb_prop in Hst as [Hb1 Hsw].
  cbn [seqs m]. rewrite Hb1. unfold one_of, word.
  replace (map (fun w0 : string => lit w0) ws)
    with (map lit (map list_ascii_of_string ws)) by (by rewrite map_map).
  rewrite m_alts_lit.
  2: { destruct ws; [by apply elem_of_nil in Hw | discriminate]. }
  apply (first_some_found _ _ (list_ascii_of_string w)).
  - apply list_elem_of_In, in_map. by apply list_elem_of_In.
  - rewrite Hsw, Hb2. by eexists.
Qed.

Lemma search_group_words (s : str) (ws : list string) (w : string) :
  w ∈ ws ->
  search s (seqs [WordB; Group 1 (one_of ws); WordB]) = None ->
  search s (Props.whole w) = None.
Proof.
  intros Hw Hs. unfold search in Hs. rewrite scan_none in Hs.
  apply search_whole_none. intros i Hi.
  destruct (Props.stands s w i) eqn:E; [| reflexivity].
  destruct (m_group_words s ws w i Hw E) as [x Hx].
  rewrite Hs in Hx by lia. discriminate.
Qed.

Lemma start_stop_shadowed (text : str) :
  Spec.pattern_matches text
    ("open_app",
     mkIntent (words ["open"; "launch"; "start"; "run"])
       [Props.whole "open"; Props.whole "launch";
        Props.whole "start"; Props.whole "run"]) = false ->
  Spec.pattern_matches text
    ("exit",
     mkIntent (words ["exit"; "quit"; "bye"; "goodbye"; "stop"])
       [seqs [WordB;
              Group 1 (one_of ["exit"; "quit"; "bye"; "goodbye"; "stop"]);
              WordB]]) = false ->
  search text (Props.whole "start listening") = None
  /\ search text (Props.whole "stop listening") = None
  /\ search text (Props.whole "start") = None
  /\ search text (Props.whole "stop") = None.
Proof.
  intros Ho He.
  apply pattern_matches_cons in Ho as [_ Ho]. apply pattern_matches_cons in Ho as [_ Ho].
  apply pattern_matches_cons in Ho as [Hstart _].
  apply pattern_matches_cons in He as [Hexit _].
  assert (Hstop : search text (Props.whole "stop") = None).
  { apply (search_group_words text _ "stop") in Hexit; [exact Hexit |].
    repeat (first [by left | right]). }
  split; [by apply (search_first_word text "start" "listening") |].
  split; [by apply (search_first_word text "stop" "listening") |].
  by split.
Qed.

(** [find] returns the first entry that satisfies the test. *)
Lemma find_first {A} (f : A -> bool) (l : list A) (d : A) :
  List.find f l = Some d ->
  exists i, l !! i = Some d /\ f d = true
            /\ forall j x, j < i -> l !! j = Some x -> f x = false.
Proof.
  induction l as [| y l IH]; cbn [List.find]; [discriminate |].
  destruct (f y) eqn:E.
  - intros [= <-]. exists 0. repeat split; [exact E |]. intros j x Hj. lia.
  - intros H. destruct (IH H) as (i & Hi & Hd & Hbefore).
    exists (S i). repeat split; [exact Hi | exact Hd |].
    intros [| j] x Hj Hx; cbn in Hx; [congruence |]. apply (Hbefore j); [lia | exact Hx].
Qed.

Lemma find_nothing {A} (f : A -> bool) (l : list A) (i : nat) (x : A) :
  List.find f l = None -> l !! i = Some x -> f x = false.
Proof.
  intros H Hx. apply (List.find_none f l H).
  apply list_elem_of_In. by apply (list_elem_of_lookup_2 _ i).
Qed.

(** The entry of the catalogue named [listening] is the last one. *)
Lemma listening_is_last (i : nat) (d : string * IntentSpec) :
  intent_definitions !! i = Some d -> fst d = "listening" -> i = 12.
Proof.
  intros Hi Hd.
  do 13 (destruct i as [| i];
         [cbn in Hi; injection Hi as <-; first [reflexivity | discriminate Hd] |]).
  destruct i; discriminate Hi.
Qed.

(** X24.  The patterns of the [listening] intent never decide.  Whenever
    [process] resolves an input to [listening], the normalised text holds
    neither "start listening" nor "stop listening" as whole words, nor
    "start" or "stop" alone: [open_app] and [exit] come earlier in the
    catalogue and match every text the two patterns match.  So "start
    listening" asks to open an application named "listening", and "stop
    listening" exits; [listening] is reached by its keywords only, as by
    the input "listening", which resolves to it with no mode. *)
Theorem listening_patterns_are_shadowed :
  (forall (raw : str) (cmd : Command),
     process (Some raw) = Ok cmd -> action cmd = "listening" ->
     let text := _normalize (Some raw) in
     search text (Props.whole "start listening") = None
     /\ search text (Props.whole "stop listening") = None
     /\ search text (Props.whole "start") = None
     /\ search text (Props.whole "stop") = None)
  /\ process (Some ("start listening" : str))
     = Ok (mkCommand "open_app" {["app" := VStr "listening"]})
  /\ process (Some ("stop listening" : str)) = Ok (mkCommand "exit" ∅)
  /\ process (Some ("listening" : str))
     = Ok (mkCommand "listening" {["mode" := VNone]}).
Proof.
  split; [| repeat split; vm_compute; reflexivity].
  intros raw cmd Hcmd Hact text. subst text.
  unfold process in Hcmd. rewrite process_with_resolve in Hcmd.
  unfold Spec.resolve in Hcmd. destruct raw as [| a raw].
  { inversion Hcmd; subst. discriminate. }
  set (text := _normalize (Some (a :: raw))) in *.
  destruct (List.find (Spec.pattern_matches text) intent_definitions) as [d |] eqn:Hfind.
  - (* a pattern decided: it would be one of [listening] itself *)
    exfalso. apply command_for_action in Hcmd.
    destruct (find_first _ _ _ Hfind) as (i & Hi & Hd & Hbefore).
    assert (i = 12) as -> by (apply (listening_is_last i d Hi); congruence).
    injection Hi as <-.
    destruct (start_stop_shadowed text
                (Hbefore 5 _ ltac:(lia) eq_refl) (Hbefore 11 _ ltac:(lia) eq_refl))
      as (H1 & H2 & _).
    clear - Hd H1 H2.
    change (existsb (fun pat => bool_decide (is_Some (search text pat)))
              [Props.whole "start listening"; Props.whole "stop listening"] = true)
      in Hd.
    cbn [existsb] in Hd. rewrite H1, H2 in Hd.
    rewrite (bool_decide_eq_false_2 (is_Some None)) in Hd
      by (intros [? ?]; discriminate).
    discriminate.
  - exact (start_stop_shadowed text
             (find_nothing _ _ 5 _ Hfind eq_refl) (find_nothing _ _ 11 _ Hfind eq_refl)).
Qed.

End ShadowFacts.

(** ** Patterns that never match *)
Section DeadPatternFacts.
Import Re ReSem CommandProcessor.

Lemma startswith_elem (p s : str) (a : ascii) :
  Py.startswith s p = true -> a ∈ p -> a ∈ s.
Proof.
  revert s. induction p as [| b p IH]; intros s H Ha.
  - by apply elem_of_nil in Ha.
  - destruct s as [| x s]; cbn [Py.startswith] in H; [discriminate |].
    apply andb_true_iff in H as [Hb Hp]. apply Ascii.eqb_eq in Hb. subst x.
    apply elem_of_cons in Ha as [-> | Ha]; [by left | right; by apply IH].
Qed.

Lemma elem_of_drop {A} (i : nat) (l : list A) (a : A) : a ∈ drop i l -> a ∈ l.
Proof.
  revert i. induction l as [| x l IH]; intros [| i] H; cbn [drop] in H; try done.
  right. by apply (IH i).
Qed.

(** A literal with a character that is neither a word character nor the
    space stands nowhere in a normalised text. *)
Lemma foreign_literal_never_stands (raw : option str) (w : string) (a : ascii) (i : nat) :
  a ∈ (w : str) -> Py.isword a = false -> a <> " "%char ->
  Props.stands (_normalize raw) w i = false.
Proof.
  intros Ha Hword Hsp. unfold Props.stands.
  destruct (Py.startswith (drop i (_normalize raw)) w) eqn:E;
    [| by rewrite andb_false_r].
  exfalso. apply (startswith_elem _ _ a) in E; [| exact Ha].
  apply elem_of_drop in E. apply normalize_alphabet in E as [_ [E | E]]; congruence.
Qed.

(** X25.  The pattern [\bwhat's today\b] of the [date] intent is dead: the
    normalised text has a space where the apostrophe was, so the pattern matches no input.
    The phrase itself still resolves to [date], by its keyword [today]. *)
Theorem apostrophe_pattern_is_dead :
  (exists d, intent_definitions !! 1 = Some ("date", d)
             /\ patterns d !! 2 = Some (seqs [WordB; word "what's today"; WordB]))
  /\ (forall raw : option str,
        search (_normalize raw) (seqs [WordB; word "what's today"; WordB]) = None)
  /\ _normalize (Some ("what's today" : str)) = ("what s today" : str)
  /\ process (Some ("what's today" : str)) = Ok (mkCommand "date" ∅).
Proof.
  split; [eexists; split; reflexivity |].
  split; [| split; vm_compute; reflexivity].
  intros raw. apply (search_whole_none _ "what's today"). intros i _.
  apply (foreign_literal_never_stands raw _ "'"%char); [| reflexivity | discriminate].
  apply (list_elem_of_lookup_2 _ 4). reflexivity.
Qed.

End DeadPatternFacts.

(** ** The history file *)
Section LoggerFacts.
Import Logger.

(** The slice [l[-count:]]: [count] counts from the end, except that
    [-0] is [0], the beginning. *)
Lemma slice_from_end {A} (l : list A) :
  Py.slice_from (- 0) l = l
  /\ (forall k : nat, 1 <= k <= length l ->
        Py.slice_from (- Z.of_nat k) l = drop (length l - k) l)
  /\ (forall count : Z, (Z.of_nat (length l) <= count)%Z -> Py.slice_from (- count) l = l)
  /\ (forall k : nat, Py.slice_from (- - Z.of_nat k) l = drop k l).
Proof.
  unfold Py.slice_from. split; [| split; [| split]].
  - change (- 0 <? 0)%Z with false. cbv iota.
    by replace (Z.min (- 0) (Z.of_nat (length l))) with 0%Z by lia.
  - intros k Hk.
    replace (- Z.of_nat k <? 0)%Z with true by (symmetry; apply Z.ltb_lt; lia).
    f_equal. lia.
  - intros count Hc. destruct (Z.ltb_spec (- count) 0) as [Hlt | Hge].
    + by replace (Z.max 0 (- count + Z.of_nat (length l))) with 0%Z by lia.
    + by replace (Z.min (- count) (Z.of_nat (length l))) with 0%Z by lia.
  - intros k. rewrite Z.opp_involutive.
    replace (Z.of_nat k <? 0)%Z with false by (symmetry; apply Z.ltb_ge; lia).
    destruct (Nat.le_gt_cases k (length l)) as [Hle | Hgt].
    + f_equal. lia.
    + replace (Z.to_nat (Z.min (Z.of_nat k) (Z.of_nat (length l))))
        with (length l) by lia.
      rewrite drop_all. symmetry. apply drop_ge. lia.
Qed.

Lemma get_recent_logs_lines (count : Z) (f : file) :
  get_recent_logs count false f = Py.slice_from (- count) (Props.lines f).
Proof.
  destruct f as [content |]; [reflexivity |].
  unfold Py.slice_from. cbn [get_recent_logs Props.lines]. by rewrite drop_nil.
Qed.

(** X20.  [get_recent_logs(count)] returns the last [count] lines of the
    history file for [count] from 1 to the number of lines, and all the
    lines for a larger [count].  For [count = 0] it returns all the lines
    too, not none, [lines[-0:]] being [lines[0:]]; and for a negative
    [count] the lines but the first [-count].  A missing file and a
    failure to read give the empty list. *)
Theorem recent_logs_slicing (f : file) :
  let lines := Props.lines f in
  get_recent_logs 0 false f = lines
  /\ (forall k : nat, 1 <= k <= length lines ->
        get_recent_logs (Z.of_nat k) false f = drop (length lines - k) lines)
  /\ (forall count : Z, (Z.of_nat (length lines) <= count)%Z ->
        get_recent_logs count false f = lines)
  /\ (forall k : nat, get_recent_logs (- Z.of_nat k) false f = drop k lines)
  /\ (forall count : Z, get_recent_logs count true f = [])
  /\ (forall (count : Z) (fails : bool), get_recent_logs count fails None = []).
Proof.
  intros lines. subst lines.
  destruct (slice_from_end (Props.lines f)) as (H0 & Hk & Hall & Hneg).
  split; [by rewrite get_recent_logs_lines |].
  split; [intros k Hk'; rewrite get_recent_logs_lines; by apply Hk |].
  split; [intros count Hc; rewrite get_recent_logs_lines; by apply Hall |].
  split; [intros k; rewrite get_recent_logs_lines; by apply Hneg |].
  split; [intros count; by destruct f | reflexivity].
Qed.

Lemma read_from_flag (b : str) :
  match b with c :: _ => is_lf c = false | [] => True end ->
  read_from true b = read_from false b.
Proof.
  destruct b as [| c b]; [reflexivity |]. intros Hc. cbn [read_from]. by rewrite Hc.
Qed.

Lemma read_from_app (a b : str) : forall flag,
  match b with c :: _ => is_lf c = false | [] => True end ->
  read_from flag (a ++ b) = read_from flag a ++ read_from false b.
Proof.
  induction a as [| c a IH]; intros flag Hb.
  - cbn [app read_from]. destruct flag; [by apply read_from_flag | reflexivity].
  - cbn [app read_from]. destruct (is_cr c); [by rewrite IH |].
    destruct (is_lf c); [destruct flag |]; by rewrite IH.
Qed.

Lemma read_line_free_app (a b : str) :
  Props.line_free a = true -> read_from false (a ++ b) = a ++ read_from false b.
Proof.
  induction a as [| c a IH]; intros Ha; [reflexivity |].
  cbn [Props.line_free forallb] in Ha. apply andb_prop in Ha as [Hc Ha].
  apply negb_true_iff, orb_false_iff in Hc as [Hlf Hcr].
  cbn [app read_from]. rewrite Hcr, Hlf. f_equal. by apply IH.
Qed.

Lemma written_line_free (linesep a : str) :
  Props.line_free a = true -> written linesep a = a.
Proof.
  induction a as [| c a IH]; intros Ha; [reflexivity |].
  cbn [Props.line_free forallb] in Ha. apply andb_prop in Ha as [Hc Ha].
  apply negb_true_iff, orb_false_iff in Hc as [Hlf Hcr].
  unfold written in *. cbn [flat_map]. rewrite Hlf. cbn [app]. f_equal. by apply IH.
Qed.

Lemma readlines_nil (a : str) : readlines a = [] -> a = [].
Proof.
  destruct a as [| c a]; [reflexivity |]. cbn [readlines].
  destruct (is_lf c); [discriminate |]. by destruct (readlines a).
Qed.

Lemma readlines_line (body : str) :
  Props.line_free body = true ->
  readlines (body ++ ["010"%char]) = [body ++ ["010"%char]].
Proof.
  induction body as [| c body IH]; intros Hb; [reflexivity |].
  cbn [Props.line_free forallb] in Hb. apply andb_prop in Hb as [Hc Hb].
  apply negb_true_iff, orb_false_iff in Hc as [Hlf _].
  cbn [app readlines]. rewrite Hlf, (IH Hb). reflexivity.
Qed.

Lemma readlines_app (a b : str) :
  a = [] \/ last a = Some "010"%char ->
  readlines (a ++ b) = readlines a ++ readlines b.
Proof.
  induction a as [| c a IH]; intros Ha; [reflexivity |].
  destruct Ha as [Ha | Ha]; [discriminate |].
  assert (Ha' : a = [] \/ last a = Some "010"%char).
  { destruct a as [| d a]; [by left | right]. by rewrite last_cons_cons in Ha. }
  cbn [app readlines]. destruct (is_lf c) eqn:Hlf; [by rewrite IH |].
  rewrite (IH Ha'). destruct a as [| d a].
  { cbn in Ha. injection Ha as ->. discriminate. }
  destruct (readlines (d :: a)) as [| l ls] eqn:Hl; [| reflexivity].
  by apply readlines_nil in Hl.
Qed.

Lemma upper_char_check (c : ascii) :
  match Py.upper_char c with
  | Some u => implb (negb (is_lf c || is_cr c)) (Props.line_free u)
  | None => true
  end = true.
Proof. destruct c as [[] [] [] [] [] [] [] []]; vm_compute; reflexivity. Qed.

Lemma upper_char_line_free (c : ascii) (u : str) :
  Py.upper_char c = Some u -> negb (is_lf c || is_cr c) = true ->
  Props.line_free u = true.
Proof.
  intros Hu Hc. pose proof (upper_char_check c) as H. rewrite Hu, Hc in H. exact H.
Qed.

Lemma line_free_app (a b : str) :
  Props.line_free (a ++ b) = Props.line_free a && Props.line_free b.
Proof. unfold Props.line_free. apply forallb_app. Qed.

Lemma upper_line_free (mode m : str) :
  Py.upper mode = Some m -> Props.line_free mode = true -> Props.line_free m = true.
Proof.
  unfold Py.upper. revert m. induction mode as [| c mode IH]; intros m Hm Hf.
  - cbn in Hm. by injection Hm as <-.
  - cbn [Props.line_free forallb] in Hf. apply andb_prop in Hf as [Hc Hf].
    cbn in Hm. destruct (Py.upper_char c) as [u |] eqn:Hu; [| discriminate].
    cbn in Hm. destruct (mapM Py.upper_char mode) as [us |] eqn:Hus; [| discriminate].
    cbn in Hm. injection Hm as <-. rewrite line_free_app.
    rewrite (upper_char_line_free c u Hu Hc). cbn [andb]. by apply IH.
Qed.


(** One logged command adds one line, the entry itself. *)
Lemma log_command_line (linesep timestamp command mode : str) (f : file) :
  linesep ∈ Props.lineseps ->
  Props.loggable (timestamp, command, mode) = true ->
  Props.complete f ->
  exists entry f',
    log_entry timestamp command mode = Some entry
    /\ log_command linesep timestamp command mode false f = Some f'
    /\ Props.complete f'
    /\ Props.lines f' = Props.lines f ++ [entry].
Proof.
  intros Hsep Hok Hf. unfold Props.loggable in Hok.
  apply andb_prop in Hok as [Hok Hup]. apply andb_prop in Hok as [Hok Hmode].
  apply andb_prop in Hok as [Hts Hcmd].
  apply bool_decide_eq_true in Hup as [m Hm].
  pose proof (upper_line_free mode m Hm Hmode) as Hmf.
  unfold log_command, log_entry. rewrite Hm. cbn [mbind option_bind].
  set (body := "[" ++ timestamp ++ "] [" ++ m ++ "] " ++ command).
  assert (Hbody : Props.line_free body = true).
  { subst body. rewrite !line_free_app, Hts, Hmf, Hcmd. reflexivity. }
  assert (Hentry : "[" ++ timestamp ++ "] [" ++ m ++ "] " ++ command ++ ["010"%char]
                   = body ++ ["010"%char]).
  { subst body. by repeat rewrite <- app_assoc. }
  rewrite Hentry. eexists. eexists. split; [reflexivity |]. split; [reflexivity |].
  assert (Hw : written linesep (body ++ ["010"%char]) = body ++ linesep).
  { unfold written. rewrite flat_map_app. fold (written linesep body).
    rewrite (written_line_free _ _ Hbody). cbn. by rewrite app_nil_r. }
  assert (Hr : read_from false (body ++ linesep) = body ++ ["010"%char]).
  { rewrite (read_line_free_app _ _ Hbody). f_equal.
    apply elem_of_cons in Hsep as [-> | Hsep]; [reflexivity |].
    apply elem_of_cons in Hsep as [-> | Hsep]; [reflexivity |].
    by apply elem_of_nil in Hsep. }
  assert (Hstart : match body ++ linesep with
                   | c :: _ => is_lf c = false
                   | [] => True
                   end) by reflexivity.
  assert (Hread : read (default [] f ++ written linesep (body ++ ["010"%char]))
                  = read (default [] f) ++ (body ++ ["010"%char])).
  { unfold read. rewrite Hw, (read_from_app (default [] f) (body ++ linesep) false Hstart), Hr.
    reflexivity. }
  assert (Hcomplete : read (default [] f) = []
                      \/ last (read (default [] f)) = Some "010"%char).
  { destruct f as [content |]; [exact Hf | by left]. }
  cbn [Props.complete Props.lines]. rewrite Hread. split.
  - right. rewrite app_assoc. apply last_snoc.
  - rewrite (readlines_app _ _ Hcomplete), (readlines_line _ Hbody).
    by destruct f as [content |].
Qed.

(** X21.  What [log_command] writes, [get_recent_logs] reads back.  On
    either kind of platform, after any sequence of [log_command] calls
    whose texts hold no line break, on a history file that is missing,
    empty or ends with a line break, the file has one more line per
    call, the entry [[timestamp] [MODE] command], and
    [get_recent_logs(k)] returns the entries of the last [k] calls. *)
Theorem logged_commands_read_back (linesep : str) (calls : list Props.log_call)
    (f : file) :
  linesep ∈ Props.lineseps ->
  forallb Props.loggable calls = true ->
  Props.complete f ->
  exists (entries : list str) (f' : file),
    mapM Props.entry_of calls = Some entries
    /\ Props.log_all linesep calls f = Some f'
    /\ get_recent_logs 0 false f' = get_recent_logs 0 false f ++ entries
    /\ forall k : nat, 1 <= k <= length calls ->
         get_recent_logs (Z.of_nat k) false f' = drop (length calls - k) entries.
Proof.
  intros Hsep Hok Hf.
  assert (H : exists (entries : list str) (f' : file),
            mapM Props.entry_of calls = Some entries
            /\ Props.log_all linesep calls f = Some f'
            /\ Props.lines f' = Props.lines f ++ entries
            /\ length entries = length calls).
  { revert f Hf. induction calls as [| [[timestamp command] mode] calls IH]; intros f Hf.
    - exists [], f. cbn. by rewrite app_nil_r.
    - cbn [forallb] in Hok. apply andb_prop in Hok as [Hc Hok].
      destruct (log_command_line linesep timestamp command mode f Hsep Hc Hf)
        as (entry & f1 & He & Hl & Hf1 & Hlines).
      destruct (IH Hok f1 Hf1) as (entries & f' & Hm & Hall & Hlines' & Hlen).
      exists (entry :: entries), f'. cbn [Props.log_all]. rewrite Hl.
      cbn [mbind option_bind]. split.
      + cbn. rewrite He. cbn. rewrite Hm. reflexivity.
      + split; [exact Hall |]. split; [| cbn; by rewrite Hlen].
        rewrite Hlines', Hlines, <- app_assoc. reflexivity. }
  destruct H as (entries & f' & Hm & Hall & Hlines & Hlen).
  exists entries, f'. split; [exact Hm |]. split; [exact Hall |].
  destruct (slice_from_end (Props.lines f')) as (H0 & Hk & _).
  destruct (slice_from_end (Props.lines f)) as (H0' & _).
  rewrite !get_recent_logs_lines. split; [by rewrite H0, H0', Hlines |].
  intros k Hk'. rewrite get_recent_logs_lines.
  rewrite Hk by (rewrite Hlines, length_app; lia).
  rewrite Hlines, length_app, Hlen.
  rewrite drop_app_ge by lia. f_equal. lia.
Qed.

Lemma logged_commands_read_back_witness :
  let calls : list Props.log_call :=
    [ ("2024-05-01 10:00:00" : str, "what time is it" : str, "voice" : str);
      ("2024-05-01 10:00:09" : str, "open notepad" : str, "manual" : str) ] in
  exists f',
    Props.log_all ["010"%char] calls None = Some f'
    /\ get_recent_logs 1 false f'
       = [ "[2024-05-01 10:00:09] [MANUAL] open notepad" ++ ["010"%char] ].
Proof.
  intros calls.
  destruct (logged_commands_read_back ["010"%char] calls None)
    as (entries & f' & Hm & Hall & _ & Hk); [by left | reflexivity | exact I |].
  exists f'. split; [exact Hall |].
  change 1%Z with (Z.of_nat 1). rewrite (Hk 1) by (cbn; lia).
  vm_compute in Hm. by injection Hm as <-.
Defined.

End LoggerFacts.

(** ** Opening applications *)
Section ApplicationFacts.
Import SystemFunctions.

Ltac decide_elem := refine (bool_decide_unpack _ _); vm_compute; exact I.

Lemma lookup_app_safe (w : World) (name : str) (c : app_command) :
  lookup_app w name = Some c ->
  name ∈ Props.safe_names
  /\ exists call, match c with
                  | Command_line command => [os_system command]
                  | Callable method => method
                  end = [call] /\ call ∈ Props.safe_calls.
Proof.
  unfold lookup_app, safe_apps. cbn [List.find fst snd].
  case_bool_decide as E1.
  { cbn. intros [= <-]. rewrite <- E1. split; [decide_elem |].
    eexists. split; [reflexivity | decide_elem]. }
  case_bool_decide as E2.
  { cbn. intros [= <-]. rewrite <- E2. split; [decide_elem |].
    eexists. split; [reflexivity | decide_elem]. }
  case_bool_decide as E3.
  { cbn. intros [= <-]. rewrite <- E3. split; [decide_elem |].
    eexists. split; [reflexivity | decide_elem]. }
  case_bool_decide as E4.
  { cbn. intros [= <-]. rewrite <- E4. split; [decide_elem |].
    eexists. split; [reflexivity |]. case_bool_decide; decide_elem. }
  case_bool_decide as E5; [| discriminate].
  cbn. intros [= <-]. rewrite <- E5. split; [decide_elem |].
  eexists. split; [reflexivity | decide_elem].
Qed.

Lemma perform_single (w : World) (call : effect) :
  perform w [call] = ([call], raises w call).
Proof. cbn. by destruct (raises w call). Qed.

(** X22.  [open_application] makes at most one external call, and only
    one of six fixed ones: whatever the argument, no text of the caller
    reaches [os.system] or the browser.  It reports success only for a
    name that, in lower case and stripped, is a key of [safe_apps], after
    a call that did not raise; it never reports success without a call. *)
Theorem open_application_whitelist (w : World) (app_name : value) :
  let '(ok, message, calls) := open_application w app_name in
  Forall (fun call => call ∈ Props.safe_calls) calls
  /\ length calls <= 1
  /\ (ok = true ->
      exists name call,
        app_name = VStr name /\ Py.strip (Py.lower name) ∈ Props.safe_names
        /\ calls = [call] /\ raises w call = None
        /\ message = "Opening " ++ Py.strip (Py.lower name))
  /\ (calls = [] -> ok = false).
Proof.
  assert (Hfail : forall message : str,
            Forall (fun call => call ∈ Props.safe_calls) []
            /\ length (@nil effect) <= 1
            /\ (false = true ->
                exists name call,
                  app_name = VStr name /\ Py.strip (Py.lower name) ∈ Props.safe_names
                  /\ @nil effect = [call] /\ raises w call = None
                  /\ message = "Opening " ++ Py.strip (Py.lower name))
            /\ (@nil effect = [] -> false = false)).
  { intros message. split; [constructor |]. split; [cbn; lia |]. by split. }
  destruct app_name as [name | z |]; cbn [open_application]; [| apply Hfail ..].
  destruct (lookup_app w (Py.strip (Py.lower name))) as [c |] eqn:Hc; [| apply Hfail].
  destruct (lookup_app_safe w _ c Hc) as (Hname & call & Hcalls & Hcall).
  rewrite Hcalls, perform_single.
  destruct (raises w call) as [msg |] eqn:Hr.
  - split; [constructor; [exact Hcall | constructor] |]. split; [cbn; lia |]. by split.
  - split; [constructor; [exact Hcall | constructor] |]. split; [cbn; lia |].
    split; [| done].
    intros _. by exists name, call.
Qed.

(** X23.  [open_application] depends on the name in lower case and
    stripped only; a name that is then no key of [safe_apps] is refused
    with a message that quotes it in that form, and no call is made. *)
Theorem open_application_normalises (w : World) (name : str) :
  open_application w (VStr name) = open_application w (VStr (Py.strip (Py.lower name)))
  /\ (Py.strip (Py.lower name) ∉ Props.safe_names ->
      open_application w (VStr name)
      = (false, "I cannot open " ++ Py.strip (Py.lower name)
                ++ ". It's not in my safe applications list.", [])).
Proof.
  split.
  - cbn [open_application]. by rewrite (strip_lower_fixed name).
  - intros Hn. cbn [open_application].
    destruct (lookup_app w (Py.strip (Py.lower name))) as [c |] eqn:Hc; [| reflexivity].
    by apply lookup_app_safe in Hc as [Hc _].
Qed.

End ApplicationFacts.
